(** * Kalisi graph loading scripts: a shallow embedding and its properties

    The development follows three scripts:
    - [codebase-analyzer/scripts/load_codebase_fast.py]: [flatten_nodes],
      [load_nodes_batch], [load_relationships_batch], [load_edges_batch],
      [verify_load], [main];
    - [scripts/import_neo4j.py]: [ensure_list], [merge_node],
      [merge_relationship], [main];
    - [scripts/export_neo4j.py]: [load_env_file], [serialize_neo4j_value],
      [export_neo4j_to_json].

    Python strings are modelled by [string]; the case conversion below is
    the one Python applies to code points below 128.  Python integers are
    [Z].  Floating point property values are left out of the value type. *)

From Stdlib Require Import ZArith Ascii Lia.
From stdpp Require Import gmap strings list fin_maps.

Local Open Scope Z_scope.
Set Warnings "-register-all".

(** ** Python helpers *)

Module Py.

(** [range(start, stop, step)]: the loop variable advances by [step] for as
    long as it stays on the near side of [stop]; a zero step raises
    [ValueError]. *)
Fixpoint range_from (fuel : nat) (i stop step : Z) : list Z :=
  match fuel with
  | O => []
  | S fuel' =>
      if (if 0 <? step then i <? stop else stop <? i)
      then i :: range_from fuel' (i + step) stop step
      else []
  end.

Definition range (start stop step : Z) : option (list Z) :=
  if step =? 0 then None
  else Some (range_from (Z.abs_nat (stop - start)) start stop step).

(** Slice bounds: a negative bound counts from the end, and every bound is
    clipped to the list. *)
Definition clip (len i : Z) : Z :=
  if i <? 0 then Z.max (i + len) 0 else Z.min i len.

(** [l[i:j]] *)
Definition slice {A} (l : list A) (i j : Z) : list A :=
  let len := Z.of_nat (length l) in
  let a := clip len i in
  let b := clip len j in
  take (Z.to_nat (b - a)) (drop (Z.to_nat a) l).

(** [str.upper()] on one character. *)
Definition upper_char (c : ascii) : ascii :=
  let n := nat_of_ascii c in
  if ((97 <=? n) && (n <=? 122))%nat then ascii_of_nat (n - 32) else c.

(** [s.upper()] *)
Fixpoint upper (s : string) : string :=
  match s with
  | EmptyString => EmptyString
  | String c s' => String (upper_char c) (upper s')
  end.

(** [s.replace(old, new)] for a one-character [old], as every call in the
    scripts has it. *)
Fixpoint replace (old : ascii) (new : string) (s : string) : string :=
  match s with
  | EmptyString => EmptyString
  | String c s' =>
      if Ascii.eqb c old then new +:+ replace old new s'
      else String c (replace old new s')
  end.

(** Truth value of a string: the empty string is false. *)
Definition truthy (s : string) : bool :=
  match s with EmptyString => false | _ => true end.

(** Truth value of [d.get(k)] for a string-valued key. *)
Definition truthy_opt (o : option string) : bool :=
  match o with Some s => truthy s | None => false end.

(** Number of batches: [ceil(L/B)]. *)
Definition batch_count (L B : Z) : Z := (L + B - 1) / B.

End Py.

(** ** HierarchyFlattener: [flatten_nodes] *)

Module Flatten.

(** An input tree node.  A key the JSON object may lack is an [option];
    [children] absent and [children] empty take the same branch. *)
Inductive tree_node : Type :=
  TreeNode (GUID type name description path : option string)
           (children : list tree_node).

Definition t_GUID (t : tree_node) : option string :=
  match t with TreeNode g _ _ _ _ _ => g end.
Definition t_children (t : tree_node) : list tree_node :=
  match t with TreeNode _ _ _ _ _ ch => ch end.

(** The flat record appended to [nodes_list]. *)
Record flat_node := FlatNode {
  GUID : string;
  type : string;
  name : string;
  description : string;
  path : string;
  source : string;
  import_date : string }.

(** The record appended to [relationships]. *)
Record contains_rel := ContainsRel {
  parent_GUID : string;
  child_GUID : string }.

(** The two accumulators, and the number of clock readings taken so far:
    [datetime.now()] is the [tick]-th reading of a clock. *)
Record acc := Acc {
  nodes_list : list flat_node;
  relationships : list contains_rel;
  tick : nat }.

Section WithClock.

Variable clock : nat -> string.

(** [flatten_nodes(node, parent_guid, nodes_list, relationships)];
    [None] is the [KeyError] of a missing ['GUID'], ['type'] or ['name']. *)
Fixpoint flatten_nodes (node : tree_node) (parent_guid : option string)
    (st : acc) : option acc :=
  match node with
  | TreeNode (Some g) (Some ty) (Some nm) d p ch =>
      let node_data :=
        {| GUID := g; type := ty; name := nm;
           description := default "" d; path := default "" p;
           source := "codebase-analyzer";
           import_date := clock (tick st) |} in
      let nodes' := nodes_list st ++ [node_data] in
      let rels' :=
        match parent_guid with
        | Some pg =>
            if Py.truthy pg
            then relationships st ++ [{| parent_GUID := pg; child_GUID := g |}]
            else relationships st
        | None => relationships st
        end in
      (fix each (cs : list tree_node) (st : acc) : option acc :=
         match cs with
         | [] => Some st
         | c :: cs' =>
             match flatten_nodes c (Some g) st with
             | Some st' => each cs' st'
             | None => None
             end
         end) ch {| nodes_list := nodes'; relationships := rels';
                    tick := S (tick st) |}
  | _ => None
  end.

(** The call of [main]: [flatten_nodes(data['nodes'])], both accumulators
    fresh. *)
Definition flatten (root : tree_node)
  : option (list flat_node * list contains_rel) :=
  match flatten_nodes root None
          {| nodes_list := []; relationships := []; tick := O |} with
  | Some st => Some (nodes_list st, relationships st)
  | None => None
  end.

End WithClock.

(** *** What the specification says about a tree *)

Definition guid_of (t : tree_node) : string := default "" (t_GUID t).

(** Number of nodes. *)
Fixpoint size (t : tree_node) : nat :=
  match t with
  | TreeNode _ _ _ _ _ ch =>
      S ((fix sum cs := match cs with
                        | [] => O
                        | c :: cs' => (size c + sum cs')%nat
                        end) ch)
  end.

(** Identifiers in depth-first order, a parent before its children. *)
Fixpoint preorder (t : tree_node) : list string :=
  match t with
  | TreeNode g _ _ _ _ ch =>
      default "" g ::
      (fix all cs := match cs with
                     | [] => []
                     | c :: cs' => preorder c ++ all cs'
                     end) ch
  end.

(** The parent-child pairs of the tree, in the order of the traversal. *)
Fixpoint tree_edges (t : tree_node) : list contains_rel :=
  match t with
  | TreeNode g _ _ _ _ ch =>
      (fix all cs := match cs with
                     | [] => []
                     | c :: cs' =>
                         {| parent_GUID := default "" g;
                            child_GUID := guid_of c |}
                         :: tree_edges c ++ all cs'
                     end) ch
  end.

(** Every node carries the three required keys and a non-empty
    identifier. *)
Fixpoint fields_ok (t : tree_node) : bool :=
  match t with
  | TreeNode g ty nm _ _ ch =>
      Py.truthy_opt g && bool_decide (is_Some ty) && bool_decide (is_Some nm)
      && (fix all cs := match cs with
                        | [] => true
                        | c :: cs' => fields_ok c && all cs'
                        end) ch
  end.

(** A well-formed tree: required keys present, identifiers non-empty and
    pairwise distinct. *)
Definition well_formed (t : tree_node) : Prop :=
  fields_ok t = true ∧ NoDup (preorder t).

(** *** Notions used in the proofs about the traversal *)

(** The sums over children, named. *)
Definition size_all (cs : list tree_node) : nat :=
  foldr (fun c n => (size c + n)%nat) O cs.

Definition preorder_all (cs : list tree_node) : list string :=
  foldr (fun c l => preorder c ++ l) [] cs.

Definition edges_all (g : string) (cs : list tree_node) : list contains_rel :=
  foldr (fun c l => {| parent_GUID := g; child_GUID := guid_of c |}
                    :: tree_edges c ++ l) [] cs.

Definition fields_all (cs : list tree_node) : bool :=
  forallb fields_ok cs.

(** The loop over the children. *)
Definition flatten_children (clock : nat -> string) (g : string) :=
  fix each (cs : list tree_node) (st : acc) : option acc :=
    match cs with
    | [] => Some st
    | c :: cs' =>
        match flatten_nodes clock c (Some g) st with
        | Some st' => each cs' st'
        | None => None
        end
    end.

(** What one call adds to the accumulators. *)
Definition appended (t : tree_node) (parent_guid : option string)
    (st st' : acc) : Prop :=
  GUID <$> nodes_list st' = (GUID <$> nodes_list st) ++ preorder t
  ∧ relationships st'
    = relationships st
      ++ (if Py.truthy_opt parent_guid
          then [{| parent_GUID := default "" parent_guid;
                   child_GUID := guid_of t |}]
          else [])
      ++ tree_edges t
  ∧ tick st' = (tick st + size t)%nat.

(** [p] stands before [c] in [l]. *)
Definition before (p c : string) (l : list string) : Prop :=
  ∃ l1 l2 l3, l = l1 ++ p :: l2 ++ c :: l3.

Definition sample_tree : tree_node :=
  TreeNode (Some "R") (Some "root") (Some "Kalisi") None None
    [TreeNode (Some "A") (Some "dir") (Some "a") None None
       [TreeNode (Some "C") (Some "file") (Some "c") None None []];
     TreeNode (Some "B") (Some "file") (Some "b") None None []].

Definition fixed_clock (n : nat) : string := "2025-01-01T00:00:00".

End Flatten.

(** ** The property-graph store, as far as the scripts' queries use it *)

Module Graph.

(** Property values the store keeps: scalars and arrays of scalars.
    [PNull] is Cypher's [null]: a query parameter may carry it, a stored
    property map does not. *)
Inductive scalar := SBool (b : bool) | SInt (z : Z) | SStr (s : string).
Inductive pval := PNull | PScalar (x : scalar) | PArray (xs : list scalar).

#[global] Instance scalar_eq_dec : EqDecision scalar.
Proof. solve_decision. Defined.
#[global] Instance pval_eq_dec : EqDecision pval.
Proof. solve_decision. Defined.

Definition str (s : string) : pval := PScalar (SStr s).

(** A node is identified by its position in [nodes], a relationship
    refers to its end points by position: the operations modelled here
    never delete.  Labels and relationship types are the tokens the
    scripts splice into the query text, taken as they are. *)
Record node := Node {
  n_labels : gset string;
  n_props : gmap string pval }.

Record rel := Rel {
  r_type : string;
  r_start : nat;
  r_end : nat;
  r_props : gmap string pval }.

(** [unique_guid]: the constraint
    [FOR (n:Imported) REQUIRE n.GUID IS UNIQUE] is in force. *)
Record db := Db {
  nodes : list node;
  rels : list rel;
  unique_guid : bool }.

(** [SET x += $props]: keys of [$props] overwrite, a [null] removes the
    key, the other keys stay. *)
Definition set_props (old new : gmap string pval) : gmap string pval :=
  merge (fun o n =>
           match n with
           | Some PNull => None
           | Some v => Some v
           | None => o
           end) old new.

(** Properties of a created entity: [null] entries are not stored. *)
Definition create_props (m : gmap string pval) : gmap string pval :=
  set_props ∅ m.

(** A property pattern [{k1: v1, ...}] holds of a property map. *)
Definition props_match (pat m : gmap string pval) : bool :=
  bool_decide (map_Forall (fun k v => v ≠ PNull ∧ m !! k = Some v) pat).

(** [(n:L1:L2 {pat})] *)
Definition node_matches (L : gset string) (pat : gmap string pval)
    (n : node) : bool :=
  bool_decide (L ⊆ n_labels n) && props_match pat (n_props n).

(** Positions of the entries a pattern matches, counted from [i]. *)
Fixpoint find_from {A} (p : A -> bool) (i : nat) (ns : list A) : list nat :=
  match ns with
  | [] => []
  | n :: ns' =>
      if p n then i :: find_from p (S i) ns' else find_from p (S i) ns'
  end.

(** [MATCH (n:L {pat})] *)
Definition match_nodes (L : gset string) (pat : gmap string pval)
    (s : db) : list nat :=
  find_from (node_matches L pat) O (nodes s).

(** [(a)-[r:ty {pat}]->(b)] with both end points bound. *)
Definition rel_matches (ty : string) (a b : nat) (pat : gmap string pval)
    (r : rel) : bool :=
  bool_decide (r_type r = ty) && bool_decide (r_start r = a)
  && bool_decide (r_end r = b) && props_match pat (r_props r).

(** [CREATE (n:L {m})] *)
Definition create_node (L : gset string) (m : gmap string pval) (s : db) : db :=
  {| nodes := nodes s ++ [{| n_labels := L; n_props := create_props m |}];
     rels := rels s; unique_guid := unique_guid s |}.

(** [CREATE (a)-[:ty {m}]->(b)] *)
Definition create_rel (ty : string) (a b : nat) (m : gmap string pval)
    (s : db) : db :=
  {| nodes := nodes s;
     rels := rels s ++ [{| r_type := ty; r_start := a; r_end := b;
                           r_props := create_props m |}];
     unique_guid := unique_guid s |}.

(** [MERGE (a)-[r:ty {pat}]->(b)] for bound [a], [b]: the relationships
    the pattern matches, or a created one when there is none.  The number
    returned is the number of rows the clause yields. *)
Definition merge_rel (ty : string) (a b : nat) (pat : gmap string pval)
    (s : db) : db * nat :=
  match List.filter (rel_matches ty a b pat) (rels s) with
  | [] => (create_rel ty a b pat s, 1%nat)
  | hits => (s, length hits)
  end.

(** [SET r += $props] on every relationship bound by the pattern. *)
Definition set_rels (ty : string) (a b : nat) (pat props : gmap string pval)
    (s : db) : db :=
  {| nodes := nodes s;
     rels := (fun r => if rel_matches ty a b pat r
                       then {| r_type := r_type r; r_start := r_start r;
                               r_end := r_end r;
                               r_props := set_props (r_props r) props |}
                       else r) <$> rels s;
     unique_guid := unique_guid s |}.

(** [SET n += $props] on every node bound by the pattern. *)
Definition set_nodes (L : gset string) (pat props : gmap string pval)
    (s : db) : db :=
  {| nodes := (fun n => if node_matches L pat n
                        then {| n_labels := n_labels n;
                                n_props := set_props (n_props n) props |}
                        else n) <$> nodes s;
     rels := rels s;
     unique_guid := unique_guid s |}.

(** All pairs, the first component varying slowest: the rows of two
    consecutive [MATCH] clauses. *)
Definition pairs (xs ys : list nat) : list (nat * nat) :=
  a ← xs; (fun b => (a, b)) <$> ys.

Definition has_label (l : string) (n : node) : bool :=
  bool_decide (l ∈ n_labels n).

Definition empty : db := {| nodes := []; rels := []; unique_guid := false |}.

(** [s'] is [s] with some relationships satisfying [P] appended. *)
Definition grows (P : rel → Prop) (s s' : db) : Prop :=
  nodes s' = nodes s ∧ unique_guid s' = unique_guid s
  ∧ ∃ new, rels s' = rels s ++ new ∧ Forall P new.

End Graph.

(** ** The bulk loader: [FastNeo4jLoader] *)

Module Loader.
Import Graph Flatten.

(** What a call evaluates to.  None of the loader's methods has a
    [return] with a value. *)
Inductive py_value := PyNone | PyInt (z : Z).

(** A finished call: the store after it, the progress lines it printed
    (as records), and the value of the call. *)
Record outcome (R : Type) := Outcome {
  db_after : db;
  printed : list R;
  returned : py_value }.
Arguments Outcome {R} _ _ _.
Arguments db_after {R} _.
Arguments printed {R} _.
Arguments returned {R} _.

Definition CodebaseNode : gset string := {["CodebaseNode"]}.
Definition by_guid (g : string) : gmap string pval := {["GUID" := str g]}.

(** *** [load_nodes_batch] *)

(** The property map of the [CREATE] clause. *)
Definition node_props (n : flat_node) : gmap string pval :=
  list_to_map
    [("GUID", str (GUID n)); ("name", str (name n)); ("type", str (type n));
     ("description", str (description n)); ("path", str (path n));
     ("source", str (source n)); ("import_date", str (import_date n))].

(** [UNWIND $batch AS node CREATE (n:CodebaseNode {...})] *)
Definition create_nodes (batch : list flat_node) (s : db) : db :=
  foldl (fun s n => create_node CodebaseNode (node_props n) s) s batch.

(** One progress line: batch number [i//batch_size + 1], the batch that
    was submitted, the count the store returned, and [i+created]. *)
Record node_line := NodeLine {
  nl_number : Z;
  nl_batch : list flat_node;
  nl_created : Z;
  nl_done : Z }.

Definition load_nodes_step (nodes : list flat_node) (batch_size : Z)
    (st : db * list node_line) (i : Z) : db * list node_line :=
  let batch := Py.slice nodes i (i + batch_size) in
  let s' := create_nodes batch (fst st) in
  let created := Z.of_nat (length batch) in
  (s', snd st ++ [{| nl_number := i / batch_size + 1; nl_batch := batch;
                     nl_created := created; nl_done := i + created |}]).

(** [load_nodes_batch(nodes, batch_size)]; [None] is the [ValueError] of
    a zero step.  The index created at the end does not change the data. *)
Definition load_nodes_batch (nodes : list flat_node) (batch_size : Z)
    (s : db) : option (outcome node_line) :=
  match Py.range 0 (Z.of_nat (length nodes)) batch_size with
  | None => None
  | Some starts =>
      let st := foldl (load_nodes_step nodes batch_size) (s, []) starts in
      Some (Outcome (fst st) (snd st) PyNone)
  end.

(** *** [load_relationships_batch] *)

(** One row of [$batch]: both [MATCH] clauses, then the [MERGE] for every
    pair of matched end points.  The second component counts the rows. *)
Definition merge_contains (st : db * nat) (r : contains_rel) : db * nat :=
  let s := fst st in
  let parents := match_nodes CodebaseNode (by_guid (parent_GUID r)) s in
  let children := match_nodes CodebaseNode (by_guid (child_GUID r)) s in
  foldl (fun st ab =>
           let m := merge_rel "CONTAINS" (fst ab) (snd ab)
                      (<["fromGUID" := str (parent_GUID r)]>
                         {["toGUID" := str (child_GUID r)]}) (fst st) in
           (fst m, (snd st + snd m)%nat))
        st (pairs parents children).

(** The query on one batch: the store after it and [count( * )]. *)
Definition run_contains (batch : list contains_rel) (s : db) : db * Z :=
  let st := foldl merge_contains (s, O) batch in
  (fst st, Z.of_nat (snd st)).

(** One progress line: batch number, the count the store returned for the
    batch, and [total_created] after adding it. *)
Record rel_line := RelLine {
  rl_number : Z;
  rl_created : Z;
  rl_total : Z }.

(** The loop state: store, [total_created], lines printed. *)
Definition load_relationships_step (relationships : list contains_rel)
    (batch_size : Z) (st : db * Z * list rel_line) (i : Z)
  : db * Z * list rel_line :=
  let '(s, total_created, log) := st in
  let batch := Py.slice relationships i (i + batch_size) in
  let '(s', created) := run_contains batch s in
  let total_created := total_created + created in
  (s', total_created,
   log ++ [{| rl_number := i / batch_size + 1; rl_created := created;
              rl_total := total_created |}]).

(** [load_relationships_batch(relationships, batch_size)]: the body ends
    with the loop, so the call evaluates to [None]. *)
Definition load_relationships_batch (relationships : list contains_rel)
    (batch_size : Z) (s : db) : option (outcome rel_line) :=
  match Py.range 0 (Z.of_nat (length relationships)) batch_size with
  | None => None
  | Some starts =>
      let '(s', _, log) :=
        foldl (load_relationships_step relationships batch_size)
              (s, 0, []) starts in
      Some (Outcome s' log PyNone)
  end.

(** *** [load_edges_batch] *)

(** An edge of the input: ['type'], ['source'] and ['target'] are read by
    the script, ['name'] and ['guid'] only by the query, where a missing
    key is [null]. *)
Record edge := Edge {
  e_source : string;
  e_target : string;
  e_type : string;
  e_name : option string;
  e_guid : option string }.

(** [edge['type'].upper().replace(' ', '_')] *)
Definition normalize_type (t : string) : string :=
  Py.replace " "%char "_" (Py.upper t).

(** [edge_types]: a dictionary in insertion order, each key with the list
    its edges were appended to. *)
Fixpoint group_add (k : string) (e : edge) (groups : list (string * list edge))
  : list (string * list edge) :=
  match groups with
  | [] => [(k, [e])]
  | (k', es) :: groups' =>
      if String.eqb k k' then (k', es ++ [e]) :: groups'
      else (k', es) :: group_add k e groups'
  end.

Definition group_by_type (edges : list edge) : list (string * list edge) :=
  foldl (fun groups e => group_add (normalize_type (e_type e)) e groups)
        [] edges.

(** The store has a [CodebaseNode] with this [GUID]. *)
Definition guid_exists (s : db) (g : string) : Prop :=
  match_nodes CodebaseNode (by_guid g) s ≠ [].

#[global] Instance guid_exists_dec s g : Decision (guid_exists s g).
Proof. unfold guid_exists. apply _. Defined.

(** [existing]: the identifiers among [all_guids] that the store
    returns. *)
Definition existing_guids (type_edges : list edge) (s : db) : gset string :=
  let source_guids : gset string := list_to_set (e_source <$> type_edges) in
  let target_guids : gset string := list_to_set (e_target <$> type_edges) in
  filter (guid_exists s) (source_guids ∪ target_guids).

Definition valid_edge (existing : gset string) (e : edge) : bool :=
  bool_decide (e_source e ∈ existing) && bool_decide (e_target e ∈ existing).

Definition opt_str (o : option string) : pval :=
  match o with Some x => str x | None => PNull end.

Definition edge_props (e : edge) : gmap string pval :=
  list_to_map
    [("name", opt_str (e_name e)); ("edge_guid", opt_str (e_guid e));
     ("fromGUID", str (e_source e)); ("toGUID", str (e_target e))].

(** One row of [$batch]: a relationship of the group's type is created
    between every matched source and every matched target. *)
Definition create_edge (edge_type : string) (st : db * nat) (e : edge)
  : db * nat :=
  let s := fst st in
  let sources := match_nodes CodebaseNode (by_guid (e_source e)) s in
  let targets := match_nodes CodebaseNode (by_guid (e_target e)) s in
  foldl (fun st ab =>
           (create_rel edge_type (fst ab) (snd ab) (edge_props e) (fst st),
            S (snd st)))
        st (pairs sources targets).

Definition run_create_edges (edge_type : string) (batch : list edge) (s : db)
  : db * Z :=
  let st := foldl (create_edge edge_type) (s, O) batch in
  (fst st, Z.of_nat (snd st)).

(** What is computed for one edge type: the key, [len(type_edges)],
    [skipped], [valid_edges], and for each sub-batch of 500 the count the
    store returned. *)
Record type_report := TypeReport {
  tr_type : string;
  tr_total : Z;
  tr_skipped : Z;
  tr_valid : list edge;
  tr_created : list Z }.

Definition batch_size_edges : Z := 500.

Definition load_type (st : db * list type_report)
    (group : string * list edge) : db * list type_report :=
  let '(s, log) := st in
  let '(edge_type, type_edges) := group in
  let existing := existing_guids type_edges s in
  let valid_edges := List.filter (valid_edge existing) type_edges in
  let skipped :=
    Z.of_nat (length type_edges) - Z.of_nat (length valid_edges) in
  let starts :=
    default [] (Py.range 0 (Z.of_nat (length valid_edges)) batch_size_edges) in
  let '(s', created) :=
    foldl (fun st i =>
             let batch := Py.slice valid_edges i (i + batch_size_edges) in
             let r := run_create_edges edge_type batch (fst st) in
             (fst r, snd st ++ [snd r]))
          (s, []) starts in
  (s', log ++ [{| tr_type := edge_type;
                  tr_total := Z.of_nat (length type_edges);
                  tr_skipped := skipped; tr_valid := valid_edges;
                  tr_created := created |}]).

(** [load_edges_batch(edges)]; an empty list returns at once. *)
Definition load_edges_batch (edges : list edge) (s : db)
  : outcome type_report :=
  match edges with
  | [] => Outcome s [] PyNone
  | _ =>
      let '(s', log) := foldl load_type (s, []) (group_by_type edges) in
      Outcome s' log PyNone
  end.

(** *** [verify_load] *)

Record stats := Stats {
  node_count : Z;
  contains_count : Z;
  imports_count : Z;
  depends_count : Z;
  kalisi_children : Z }.

Definition node_is (p : node -> bool) (s : db) (i : nat) : bool :=
  from_option p false (nodes s !! i).

Definition is_codebase (n : node) : bool := has_label "CodebaseNode" n.

Definition count {A} (p : A -> bool) (l : list A) : Z :=
  Z.of_nat (length (List.filter p l)).

(** The five count queries. *)
Definition collect_stats (s : db) : stats :=
  {| node_count := count is_codebase (nodes s);
     contains_count :=
       count (fun r => bool_decide (r_type r = "CONTAINS")
                       && node_is is_codebase s (r_start r)
                       && node_is is_codebase s (r_end r)) (rels s);
     imports_count :=
       count (fun r => bool_decide (r_type r = "IMPORTS")
                       && node_is is_codebase s (r_start r)
                       && node_is (fun _ => true) s (r_end r)) (rels s);
     depends_count :=
       count (fun r => bool_decide (r_type r = "DEPENDS_ON")
                       && node_is is_codebase s (r_start r)
                       && node_is (fun _ => true) s (r_end r)) (rels s);
     kalisi_children :=
       count (fun r => bool_decide (r_type r = "CONTAINS")
                       && node_is (node_matches CodebaseNode
                                     {["name" := str "Kalisi"]}) s (r_start r)
                       && node_is (fun _ => true) s (r_end r)) (rels s) |}.

(** [perfect] *)
Definition perfect (st : stats) : bool :=
  (node_count st =? 6943) && (contains_count st =? 6942)
  && (kalisi_children st =? 22).

(** The closing lines of the report. *)
Inductive verdict :=
  | PerfectLoad (missing_edges_note : bool)
  | ImperfectLoad.

Definition classify (st : stats) : verdict :=
  if perfect st
  then PerfectLoad ((imports_count st <? 2008) || (depends_count st <? 25))
  else ImperfectLoad.

(** [verify_load()]: the statistics shown and the verdict printed; the
    store is only read, and the call evaluates to [None]. *)
Definition verify_load (s : db) : outcome (stats * verdict) :=
  let st := collect_stats s in Outcome s [(st, classify st)] PyNone.

(** *** Notions used to state the loader's properties *)

Definition expected_counts (st : stats) : Prop :=
  node_count st = 6943 ∧ contains_count st = 6942 ∧ kalisi_children st = 22.

Definition with_node_count (v : Z) (st : stats) : stats :=
  {| node_count := v; contains_count := contains_count st;
     imports_count := imports_count st; depends_count := depends_count st;
     kalisi_children := kalisi_children st |}.

Definition with_contains_count (v : Z) (st : stats) : stats :=
  {| node_count := node_count st; contains_count := v;
     imports_count := imports_count st; depends_count := depends_count st;
     kalisi_children := kalisi_children st |}.

Definition with_kalisi_children (v : Z) (st : stats) : stats :=
  {| node_count := node_count st; contains_count := contains_count st;
     imports_count := imports_count st; depends_count := depends_count st;
     kalisi_children := v |}.

Definition with_edge_counts (i d : Z) (st : stats) : stats :=
  {| node_count := node_count st; contains_count := contains_count st;
     imports_count := i; depends_count := d;
     kalisi_children := kalisi_children st |}.

(** The load is reported as complete. *)
Definition complete (v : verdict) : bool :=
  match v with PerfectLoad _ => true | ImperfectLoad => false end.

Definition sample_stats : stats :=
  {| node_count := 6943; contains_count := 6942; imports_count := 1500;
     depends_count := 0; kalisi_children := 22 |}.

Definition sample_flat_node (g : string) : flat_node :=
  {| GUID := g; type := "file"; name := g; description := ""; path := "";
     source := "codebase-analyzer"; import_date := "2025-01-01T00:00:00" |}.

(** The list stored under a key of [edge_types]. *)
Fixpoint group_get (k : string) (groups : list (string * list edge))
  : list edge :=
  match groups with
  | [] => []
  | (k', es) :: groups' =>
      if String.eqb k k' then es else group_get k groups'
  end.

Definition add_edge (groups : list (string * list edge)) (e : edge) :=
  group_add (normalize_type (e_type e)) e groups.

Definition has_type (k : string) (e : edge) : bool :=
  bool_decide (normalize_type (e_type e) = k).

(** What [load_type] adds to the report for one group, read in the
    store [s]. *)
Definition reports (s : db) (group : string * list edge)
    (rep : type_report) : Prop :=
  tr_type rep = fst group
  ∧ tr_total rep = Z.of_nat (length (snd group))
  ∧ tr_valid rep
    = List.filter (valid_edge (existing_guids (snd group) s)) (snd group)
  ∧ tr_skipped rep = tr_total rep - Z.of_nat (length (tr_valid rep)).

(** An edge is created: both end points are in the store. *)
Definition endpoints_exist (s : db) (e : edge) : bool :=
  bool_decide (guid_exists s (e_source e))
  && bool_decide (guid_exists s (e_target e)).

(** The store in which the groups before the [j]-th have been handled:
    the store at the time the [j]-th group's edges are created. *)
Definition store_at (edges : list edge) (s : db) (j : nat) : db :=
  fst (foldl load_type (s, []) (take j (group_by_type edges))).

(** What [normalize_type] does to one character. *)
Definition type_char (c : ascii) : ascii :=
  if Ascii.eqb c " " then "_"%char else Py.upper_char c.

(** Python's [str.isspace] below 128: tab to carriage return, the four
    separators, and the space. *)
Definition is_space (c : ascii) : bool :=
  let n := nat_of_ascii c in
  (((9 <=? n) && (n <=? 13)) || ((28 <=? n) && (n <=? 32)))%nat.

(** The token as the specification words it: every whitespace character
    becomes an underscore, letters are uppercased. *)
Fixpoint whitespace_normalized (t : string) : string :=
  match t with
  | EmptyString => EmptyString
  | String c t' =>
      String (if is_space c then "_"%char else Py.upper_char c)
             (whitespace_normalized t')
  end.

Definition tab : ascii := ascii_of_nat 9.

Definition tab_edge : edge :=
  {| e_source := "A"; e_target := "B";
     e_type := String "a" (String tab "b");
     e_name := Some "calls"; e_guid := Some "e1" |}.

Definition sum_counts (cs : list Z) : Z := foldr Z.add 0 cs.

(** The counts the store returns when the batches are submitted one after
    the other. *)
Fixpoint store_counts (batches : list (list contains_rel)) (s : db) : list Z :=
  match batches with
  | [] => []
  | batch :: rest =>
      snd (run_contains batch s) :: store_counts rest (fst (run_contains batch s))
  end.

(** Totals after each of the counts, starting from [t]. *)
Fixpoint running (t : Z) (cs : list Z) : list Z :=
  match cs with
  | [] => []
  | c :: cs' => (t + c) :: running (t + c) cs'
  end.

Definition two_nodes : db :=
  create_nodes [sample_flat_node "R"; sample_flat_node "A"] Graph.empty.

Definition one_rel : list contains_rel :=
  [{| parent_GUID := "R"; child_GUID := "A" |}].

End Loader.

(** ** The exporter's value conversion: [serialize_neo4j_value] *)

Module Exporter.

Section WithDateTime.

(** [neo4j.time.DateTime] and its [iso_format()] belong to the driver. *)
Variable DateTime : Type.
Variable iso_format : DateTime -> string.

(** Objects no branch of the conversion looks into. [AOther] stands for
    any further object (a date, a duration, a point), by its name. *)
Inductive atom :=
  | ANone
  | ABool (b : bool)
  | AInt (z : Z)
  | AStr (s : string)
  | AOther (what : string).

Inductive value :=
  | VAtom (x : atom)
  | VDateTime (d : DateTime)
  | VList (items : list value)
  | VTuple (items : list value)
  | VDict (entries : list (string * value)).

Fixpoint serialize_neo4j_value (obj : value) : value :=
  match obj with
  | VDateTime d => VAtom (AStr (iso_format d))
  | VList items => VList (List.map serialize_neo4j_value items)
  | VTuple items => VList (List.map serialize_neo4j_value items)
  | VDict entries =>
      VDict (List.map (fun kv => (fst kv, serialize_neo4j_value (snd kv)))
                      entries)
  | VAtom _ => obj
  end.

(** *** Shape and leaves of a value *)

(** The nesting structure: sequences with their lengths, maps with their
    keys in order. *)
Inductive shape :=
  | ShLeaf
  | ShSeq (items : list shape)
  | ShMap (entries : list (string * shape)).

Fixpoint shape_of (v : value) : shape :=
  match v with
  | VAtom _ | VDateTime _ => ShLeaf
  | VList items | VTuple items => ShSeq (List.map shape_of items)
  | VDict entries =>
      ShMap (List.map (fun kv => (fst kv, shape_of (snd kv))) entries)
  end.

Inductive leaf := LAtom (x : atom) | LTime (d : DateTime).

(** The leaves from left to right. *)
Fixpoint leaves (v : value) : list leaf :=
  match v with
  | VAtom x => [LAtom x]
  | VDateTime d => [LTime d]
  | VList items | VTuple items => List.concat (List.map leaves items)
  | VDict entries =>
      List.concat (List.map (fun kv => leaves (snd kv)) entries)
  end.

(** What the specification asks of a leaf: a timestamp becomes its
    ISO-8601 string, anything else stays. *)
Definition normal_leaf (l : leaf) : leaf :=
  match l with
  | LTime d => LAtom (AStr (iso_format d))
  | LAtom x => LAtom x
  end.

(** Nesting depth. *)
Fixpoint depth (v : value) : nat :=
  match v with
  | VAtom _ | VDateTime _ => O
  | VList items | VTuple items =>
      S (List.fold_right (fun x d => Nat.max (depth x) d) O items)
  | VDict entries =>
      S (List.fold_right (fun kv d => Nat.max (depth (snd kv)) d) O entries)
  end.

End WithDateTime.

Arguments VAtom {DateTime} _.
Arguments VDateTime {DateTime} _.
Arguments VList {DateTime} _.
Arguments VTuple {DateTime} _.
Arguments VDict {DateTime} _.
Arguments LAtom {DateTime} _.
Arguments LTime {DateTime} _.
Arguments shape_of {DateTime} _.
Arguments leaves {DateTime} _.
Arguments depth {DateTime} _.

End Exporter.

(** ** The importer: [import_neo4j.py] *)

Module Importer.
Import Graph.

(** The value under ["labels"]: missing or [null], a list of strings, or
    a single string. *)
Inductive labels_field :=
  | LabelsNone
  | LabelsList (l : list string)
  | LabelsOne (v : string).

(** A node of the payload. *)
Record node_payload := NodePayload {
  np_GUID : option string;
  np_labels : labels_field;
  np_properties : option (gmap string pval);
  np_neo4jId : option pval }.

(** An edge of the payload. *)
Record edge_payload := EdgePayload {
  ep_GUID : option string;
  ep_type : option string;
  ep_fromGUID : option string;
  ep_toGUID : option string;
  ep_properties : option (gmap string pval);
  ep_neo4jId : option pval }.

Inductive error :=
  | KeyError (key : string)
  | NodeMissingGUID (n : node_payload)
  | EdgeMissingGUID (e : edge_payload)
  | EdgeMissingEndpoints (guid : string)
  | ConstraintViolation (guid : string).

(** One write transaction: committed, or rolled back by an exception. *)
Inductive result := Ok (s : db) | Raise (e : error).

Definition ensure_list (value : labels_field) : list string :=
  match value with
  | LabelsList l => List.filter Py.truthy l
  | LabelsNone => []
  | LabelsOne v => [v]
  end.

(** [d.setdefault(k, v)] *)
Definition setdefault (k : string) (v : pval) (m : gmap string pval)
  : gmap string pval :=
  match m !! k with
  | Some _ => m
  | None => <[k := v]> m
  end.

Definition with_legacy (id : option pval) (m : gmap string pval)
  : gmap string pval :=
  match id with
  | Some v => setdefault "legacyNeo4jId" v m
  | None => m
  end.

Definition by_guid (g : string) : gmap string pval := {["GUID" := str g]}.

(** The labels of the [MERGE] pattern.  The script sorts them to build
    the query text; the pattern they denote is the set. *)
Definition node_labels (node : node_payload) : gset string :=
  list_to_set (List.filter Py.truthy (ensure_list (np_labels node) ++ ["Imported"])).

(** [props] as passed to the query. *)
Definition node_props (guid : string) (node : node_payload)
  : gmap string pval :=
  with_legacy (np_neo4jId node)
    (<["GUID" := str guid]> (default ∅ (np_properties node))).

(** An [Imported] node already holds this [GUID]. *)
Definition guid_taken (guid : string) (s : db) : bool :=
  existsb (node_matches {["Imported"]} (by_guid guid)) (nodes s).

(** [merge_node(tx, node)]:
    [MERGE (n:labels {GUID: $guid}) SET n += $props]. *)
Definition merge_node (s : db) (node : node_payload) : result :=
  match np_GUID node with
  | None => Raise (KeyError "GUID")
  | Some guid =>
      let labels := node_labels node in
      let props := node_props guid node in
      if existsb (node_matches labels (by_guid guid)) (nodes s)
      then Ok (set_nodes labels (by_guid guid) props s)
      else if unique_guid s && guid_taken guid s
      then Raise (ConstraintViolation guid)
      else Ok (set_nodes labels (by_guid guid) props
                 (create_node labels (by_guid guid) s))
  end.

Definition edge_props (guid from_guid to_guid : string) (edge : edge_payload)
  : gmap string pval :=
  with_legacy (ep_neo4jId edge)
    (setdefault "toGUID" (str to_guid)
       (setdefault "fromGUID" (str from_guid)
          (<["GUID" := str guid]> (default ∅ (ep_properties edge))))).

Definition rel_type_of (edge : edge_payload) : string :=
  match ep_type edge with
  | Some t => if Py.truthy t then t else "RELATED_TO"
  | None => "RELATED_TO"
  end.

(** [MERGE (start)-[rel:T {GUID: $guid}]->(end) SET rel += $props] for one
    pair of matched end points. *)
Definition merge_rel_set (ty guid : string) (props : gmap string pval)
    (s : db) (ab : nat * nat) : db :=
  set_rels ty (fst ab) (snd ab) (by_guid guid) props
    (fst (merge_rel ty (fst ab) (snd ab) (by_guid guid) s)).

(** [merge_relationship(tx, edge)] *)
Definition merge_relationship (s : db) (edge : edge_payload) : result :=
  match ep_GUID edge with
  | None => Raise (KeyError "GUID")
  | Some guid =>
      let rel_type := rel_type_of edge in
      if negb (Py.truthy_opt (ep_fromGUID edge))
         || negb (Py.truthy_opt (ep_toGUID edge))
      then Raise (EdgeMissingEndpoints guid)
      else
        let from_guid := default "" (ep_fromGUID edge) in
        let to_guid := default "" (ep_toGUID edge) in
        let props := edge_props guid from_guid to_guid edge in
        let starts := match_nodes ∅ (by_guid from_guid) s in
        let ends := match_nodes ∅ (by_guid to_guid) s in
        Ok (foldl (merge_rel_set rel_type guid props) s (pairs starts ends))
  end.

(** The values of [GUID] on [Imported] nodes. *)
Definition imported_guids (s : db) : list pval :=
  omap (fun n => if has_label "Imported" n then n_props n !! "GUID" else None)
       (nodes s).

(** [CREATE CONSTRAINT IF NOT EXISTS ...] inside [try ... except: pass]:
    the constraint comes into force when the store accepts the statement
    and the data does not already break it. *)
Definition ensure_constraint (accepted : bool) (s : db) : db :=
  if unique_guid s then s
  else if accepted && bool_decide (NoDup (imported_guids s))
  then {| nodes := nodes s; rels := rels s; unique_guid := true |}
  else s.

(** The loop over [nodes]; the store is returned as the exception
    leaves it. *)
Fixpoint import_nodes (nodes : list node_payload) (s : db)
  : db * option error :=
  match nodes with
  | [] => (s, None)
  | node :: rest =>
      if negb (Py.truthy_opt (np_GUID node))
      then (s, Some (NodeMissingGUID node))
      else match merge_node s node with
           | Ok s' => import_nodes rest s'
           | Raise e => (s, Some e)
           end
  end.

(** The loop over [edges]. *)
Fixpoint import_edges (edges : list edge_payload) (s : db)
  : db * option error :=
  match edges with
  | [] => (s, None)
  | edge :: rest =>
      if negb (Py.truthy_opt (ep_GUID edge))
      then (s, Some (EdgeMissingGUID edge))
      else match merge_relationship s edge with
           | Ok s' => import_edges rest s'
           | Raise e => (s, Some e)
           end
  end.

(** [main]: the store after the run and the exception that ended it, if
    any.  [accepted] says whether the store takes the constraint
    statement. *)
Definition main (dry_run accepted : bool) (nodes : list node_payload)
    (edges : list edge_payload) (s : db) : db * option error :=
  if dry_run then (s, None)
  else
    match import_nodes nodes (ensure_constraint accepted s) with
    | (s1, None) => import_edges edges s1
    | (s1, Some e) => (s1, Some e)
    end.

(** *** The store as the merges see it, and sample payloads *)

(** What a [MERGE] on [GUID] sees of a node, and of a relationship. *)
Definition node_key (n : node) : gset string * option pval :=
  (n_labels n, n_props n !! "GUID").

Definition rel_key (r : rel) : string * nat * nat * option pval :=
  (r_type r, r_start r, r_end r, r_props r !! "GUID").

Definition nkeys (s : db) := node_key <$> nodes s.

Definition rkeys (s : db) := rel_key <$> rels s.

Definition kmatch (L : gset string) (g : string)
    (k : gset string * option pval) : bool :=
  bool_decide (L ⊆ fst k) && bool_decide (snd k = Some (str g)).

Definition rkmatch (ty : string) (a b : nat) (g : string)
    (k : string * nat * nat * option pval) : bool :=
  bool_decide (k = (ty, a, b, Some (str g))).

(** The nodes [merge_node] writes: the ones the pattern matches, or the
    one it creates. *)
Definition merge_targets (s : db) (node : node_payload) (g : string)
  : list nat :=
  match match_nodes (node_labels node) (by_guid g) s with
  | [] => [length (nodes s)]
  | hits => hits
  end.

Definition nkey : Type := gset string * option pval.

Definition rkey : Type := string * nat * nat * option pval.

(** [merge_node] on the list of node keys. *)
Definition kmerge_node (u : bool) (ks : list nkey) (node : node_payload)
  : list nkey + error :=
  match np_GUID node with
  | None => inr (KeyError "GUID")
  | Some g =>
      if existsb (kmatch (node_labels node) g) ks then inl ks
      else if u && existsb (kmatch {["Imported"]} g) ks
      then inr (ConstraintViolation g)
      else inl (ks ++ [(node_labels node, Some (str g))])
  end.

Fixpoint kimport_nodes (u : bool) (ks : list nkey) (nodes : list node_payload)
  : list nkey * option error :=
  match nodes with
  | [] => (ks, None)
  | node :: rest =>
      if negb (Py.truthy_opt (np_GUID node))
      then (ks, Some (NodeMissingGUID node))
      else match kmerge_node u ks node with
           | inl ks' => kimport_nodes u ks' rest
           | inr e => (ks, Some e)
           end
  end.

(** One [MERGE] of a relationship on the list of relationship keys. *)
Definition kmerge_pair (ty g : string) (rks : list rkey) (ab : nat * nat)
  : list rkey :=
  if existsb (rkmatch ty (fst ab) (snd ab) g) rks then rks
  else rks ++ [(ty, fst ab, snd ab, Some (str g))].

Definition kpairs (nks : list nkey) (edge : edge_payload) : list (nat * nat) :=
  pairs (find_from (kmatch ∅ (default "" (ep_fromGUID edge))) O nks)
        (find_from (kmatch ∅ (default "" (ep_toGUID edge))) O nks).

Definition kmerge_rel (nks : list nkey) (rks : list rkey) (edge : edge_payload)
  : list rkey + error :=
  match ep_GUID edge with
  | None => inr (KeyError "GUID")
  | Some g =>
      if negb (Py.truthy_opt (ep_fromGUID edge))
         || negb (Py.truthy_opt (ep_toGUID edge))
      then inr (EdgeMissingEndpoints g)
      else inl (foldl (kmerge_pair (rel_type_of edge) g) rks (kpairs nks edge))
  end.

Fixpoint kimport_edges (nks : list nkey) (rks : list rkey)
    (edges : list edge_payload) : list rkey * option error :=
  match edges with
  | [] => (rks, None)
  | edge :: rest =>
      if negb (Py.truthy_opt (ep_GUID edge))
      then (rks, Some (EdgeMissingGUID edge))
      else match kmerge_rel nks rks edge with
           | inl rks' => kimport_edges nks rks' rest
           | inr e => (rks, Some e)
           end
  end.

Definition kimported (nks : list nkey) : list pval :=
  omap (fun k : nkey => if bool_decide ("Imported" ∈ fst k) then snd k else None)
       nks.

Definition kensure (accepted u : bool) (nks : list nkey) : bool :=
  u || (accepted && bool_decide (NoDup (kimported nks))).

(** The store as the merges see it. *)
Definition abs (s : db) : bool * list nkey * list rkey :=
  (unique_guid s, nkeys s, rkeys s).

Definition kmain (dry_run accepted : bool) (nodes : list node_payload)
    (edges : list edge_payload) (a : bool * list nkey * list rkey)
  : (bool * list nkey * list rkey) * option error :=
  if dry_run then (a, None)
  else
    let u := kensure accepted (fst (fst a)) (snd (fst a)) in
    match kimport_nodes u (snd (fst a)) nodes with
    | (nks, None) =>
        (u, nks, fst (kimport_edges nks (snd a) edges),
         snd (kimport_edges nks (snd a) edges))
    | (nks, Some e) => (u, nks, snd a, Some e)
    end.

(** Two payload nodes with one identifier, the labels of the first among
    those of the second. *)
Definition nested_labels : list node_payload :=
  [{| np_GUID := Some "g"; np_labels := LabelsList ["A"];
      np_properties := Some {["x" := PScalar (SInt 1)]};
      np_neo4jId := None |};
   {| np_GUID := Some "g"; np_labels := LabelsList ["A"; "B"];
      np_properties := None; np_neo4jId := None |}].

Definition prop_of (s : db) (i : nat) (k : string) : option pval :=
  Graph.nodes s !! i ≫= fun n => n_props n !! k.

(** Every key an import adds is the label set and identifier of a node of
    the payload. *)
Definition from_payload (nodes : list node_payload) (k : nkey) : Prop :=
  ∃ node g, node ∈ nodes ∧ np_GUID node = Some g
            ∧ k = (node_labels node, Some (str g)).

(** A payload whose property map disagrees with its identifier. *)
Definition conflicting : node_payload :=
  {| np_GUID := Some "g1"; np_labels := LabelsOne "Service";
     np_properties := Some {["GUID" := str "other"]};
     np_neo4jId := Some (PScalar (SInt 7)) |}.

Definition conflicting_merged : db :=
  set_nodes (node_labels conflicting) (by_guid "g1")
    (node_props "g1" conflicting)
    (create_node (node_labels conflicting) (by_guid "g1") Graph.empty).

(** An end point identifier is absent or empty. *)
Definition endpoint_missing (edge : edge_payload) : bool :=
  negb (Py.truthy_opt (ep_fromGUID edge))
  || negb (Py.truthy_opt (ep_toGUID edge)).

(** The edge has what the loop and the merge ask for. *)
Definition edge_ok (edge : edge_payload) : bool :=
  Py.truthy_opt (ep_GUID edge) && negb (endpoint_missing edge).

Definition edge_without_target : edge_payload :=
  {| ep_GUID := Some "e1"; ep_type := Some "CALLS";
     ep_fromGUID := Some "a"; ep_toGUID := Some "";
     ep_properties := None; ep_neo4jId := None |}.

(** An edge with neither an identifier nor a source. *)
Definition anonymous_edge : edge_payload :=
  {| ep_GUID := None; ep_type := Some "CALLS";
     ep_fromGUID := None; ep_toGUID := Some "b";
     ep_properties := None; ep_neo4jId := None |}.

(** Every node the pattern matches already holds [props], and there is
    such a node. *)
Definition node_settled (L : gset string) (g : string)
    (props : gmap string pval) (s : db) : Prop :=
  existsb (node_matches L (by_guid g)) (nodes s) = true
  ∧ Forall (fun n => node_matches L (by_guid g) n = true →
                     set_props (n_props n) props = n_props n) (nodes s).

(** The same for the relationships of one pair of end points. *)
Definition rel_settled (ty g : string) (props : gmap string pval)
    (ab : nat * nat) (s : db) : Prop :=
  existsb (rel_matches ty (fst ab) (snd ab) (by_guid g)) (rels s) = true
  ∧ Forall (fun r => rel_matches ty (fst ab) (snd ab) (by_guid g) r = true →
                     set_props (r_props r) props = r_props r) (rels s).

(** The key of an edge of the payload. *)
Definition edge_key (edge : edge_payload) : string * option string :=
  (rel_type_of edge, ep_GUID edge).

Definition with_rels (rs : list rel) (s : db) : db :=
  {| nodes := nodes s; rels := rs; unique_guid := unique_guid s |}.

(** The pairs of end points the two [MATCH] clauses of an edge yield. *)
Definition epairs (s : db) (edge : edge_payload) : list (nat * nat) :=
  pairs (match_nodes ∅ (by_guid (default "" (ep_fromGUID edge))) s)
        (match_nodes ∅ (by_guid (default "" (ep_toGUID edge))) s).

(** Every relationship the edge's merge matches already holds the edge's
    properties, and every pair of end points has such a relationship. *)
Definition edge_settled (edge : edge_payload) (g : string) (s : db) : Prop :=
  ∀ ab, ab ∈ epairs s edge →
    rel_settled (rel_type_of edge) g
      (edge_props g (default "" (ep_fromGUID edge))
         (default "" (ep_toGUID edge)) edge) ab s.

(** A payload without repeated identifiers. *)
Definition distinct_nodes : list node_payload :=
  [{| np_GUID := Some "a"; np_labels := LabelsList ["Service"];
      np_properties := Some {["name" := str "api"]};
      np_neo4jId := Some (PScalar (SInt 1)) |};
   {| np_GUID := Some "b"; np_labels := LabelsNone;
      np_properties := None; np_neo4jId := None |}].

Definition distinct_edges : list edge_payload :=
  [{| ep_GUID := Some "e1"; ep_type := Some "CALLS";
      ep_fromGUID := Some "a"; ep_toGUID := Some "b";
      ep_properties := None; ep_neo4jId := None |}].

End Importer.

(** ** Notions for further properties of the loader *)

Module LoaderNotions.
Import Graph Flatten Loader.

(** The node [load_nodes_batch] creates for a record. *)
Definition codebase_node (n : flat_node) : node :=
  {| n_labels := CodebaseNode; n_props := create_props (node_props n) |}.

(** The pattern of the [MERGE] for one pair. *)
Definition contains_pattern (r : contains_rel) : gmap string pval :=
  <["fromGUID" := str (parent_GUID r)]> {["toGUID" := str (child_GUID r)]}.

(** The end point pairs the two [MATCH] clauses yield for one pair. *)
Definition contains_pairs (r : contains_rel) (s : db) : list (nat * nat) :=
  pairs (match_nodes CodebaseNode (by_guid (parent_GUID r)) s)
        (match_nodes CodebaseNode (by_guid (child_GUID r)) s).

(** Every pair of matched end points already has its relationship. *)
Definition contains_covered (r : contains_rel) (s : db) : Prop :=
  ∀ ab, ab ∈ contains_pairs r s →
    existsb (rel_matches "CONTAINS" (fst ab) (snd ab) (contains_pattern r))
            (rels s) = true.

(** A relationship [load_relationships_batch] may create for the pair [r]
    over the nodes [ns]: a [CONTAINS] from a node with the parent's
    identifier to a node with the child's. *)
Definition contains_of (ns : list node) (r : contains_rel) (r' : rel) : Prop :=
  r_type r' = "CONTAINS"
  ∧ r_props r' = create_props (contains_pattern r)
  ∧ (∃ n, ns !! r_start r' = Some n
          ∧ node_matches CodebaseNode (by_guid (parent_GUID r)) n = true)
  ∧ (∃ n, ns !! r_end r' = Some n
          ∧ node_matches CodebaseNode (by_guid (child_GUID r)) n = true).

(** A store as [main] expects it after clearing: no [CodebaseNode] is
    left, and every relationship joins two nodes of the store. *)
Definition cleared (s : db) : Prop :=
  Forall (fun n => is_codebase n = false) (nodes s)
  ∧ Forall (fun r => (r_start r < length (nodes s))%nat
                     ∧ (r_end r < length (nodes s))%nat) (rels s).

(** Every node has the three keys the script reads with [node[...]]. *)
Fixpoint keys_ok (t : tree_node) : bool :=
  match t with
  | TreeNode g ty nm _ _ ch =>
      bool_decide (is_Some g) && bool_decide (is_Some ty)
      && bool_decide (is_Some nm)
      && (fix all cs := match cs with
                        | [] => true
                        | c :: cs' => keys_ok c && all cs'
                        end) ch
  end.

(** The pairs whose parent identifier is not empty. *)
Definition with_parent (rs : list contains_rel) : list contains_rel :=
  List.filter (fun r => Py.truthy (parent_GUID r)) rs.

(** A tree whose root has an empty identifier. *)
Definition empty_root : tree_node :=
  TreeNode (Some "") (Some "root") (Some "r") None None
    [TreeNode (Some "A") (Some "dir") (Some "a") None None
       [TreeNode (Some "B") (Some "file") (Some "b") None None []]].

End LoaderNotions.

(** ** The loader's [main] *)

Module Pipeline.
Import Graph Flatten Loader.

(** What a run leaves: the lines of the three loading steps, the
    verification report and the store. *)
Record report := Report {
  rp_nodes : list node_line;
  rp_rels : list rel_line;
  rp_edges : list type_report;
  rp_verify : list (stats * verdict);
  rp_db : db }.

(** The body of [main] of the loader from the flattening on, on the store
    as the clearing query left it: flatten, load the nodes, the
    containment pairs and the edges with the default batch size, verify.
    [None] is an exception ([KeyError] from the flattening). *)
Definition load_all (clock : nat -> string) (tree : tree_node)
    (edges : list edge) (s : db) : option report :=
  match flatten clock tree with
  | None => None
  | Some (nodes, relationships) =>
      match load_nodes_batch nodes 1000 s with
      | None => None
      | Some o1 =>
          match load_relationships_batch relationships 1000 (db_after o1) with
          | None => None
          | Some o2 =>
              let o3 := load_edges_batch edges (db_after o2) in
              let o4 := verify_load (db_after o3) in
              Some {| rp_nodes := printed o1; rp_rels := printed o2;
                      rp_edges := printed o3; rp_verify := printed o4;
                      rp_db := db_after o4 |}
          end
      end
  end.

(** Where a kept node stands once the nodes selected by [p] are gone. *)
Definition new_index (p : node -> bool) (ns : list node) (i : nat) : nat :=
  length (List.filter (fun n => negb (p n)) (take i ns)).

(** A relationship after the deletion: gone when one of its end points
    is, otherwise moved with them.  An entry that names no node of the
    store stands for no relationship. *)
Definition moved (p : node -> bool) (ns : list node) (r : rel) : option rel :=
  match ns !! r_start r, ns !! r_end r with
  | Some a, Some b =>
      if p a || p b then None
      else Some {| r_type := r_type r;
                   r_start := new_index p ns (r_start r);
                   r_end := new_index p ns (r_end r);
                   r_props := r_props r |}
  | _, _ => None
  end.

(** [MATCH (n:L) DETACH DELETE n] *)
Definition detach_delete (L : gset string) (s : db) : db :=
  {| nodes := List.filter (fun n => negb (node_matches L ∅ n)) (nodes s);
     rels := omap (moved (node_matches L ∅) (nodes s)) (rels s);
     unique_guid := unique_guid s |}.

(** [main()] of the loader on the parsed file: [data_nodes] is
    [data['nodes']], [data_edges] is [data.get('edges')].  [None] is an
    exception: a [KeyError] for ['nodes'] or from the flattening, which
    comes before the store is touched. *)
Definition main (clock : nat -> string) (data_nodes : option tree_node)
    (data_edges : option (list edge)) (s : db) : option report :=
  match data_nodes with
  | None => None
  | Some tree =>
      load_all clock tree (default [] data_edges)
               (detach_delete CodebaseNode s)
  end.

End Pipeline.

Module EdgeNotions.
Import Graph Flatten Loader.

(** The store with further relationships at the end. *)
Definition add_rels (new : list rel) (s : db) : db :=
  {| nodes := nodes s; rels := rels s ++ new; unique_guid := unique_guid s |}.

(** The relationships the [CREATE] of [load_edges_batch] makes for one
    edge: one for every node matched as source and every node matched as
    target. *)
Definition edge_rels (ty : string) (s : db) (e : edge) : list rel :=
  (fun ab => {| r_type := ty; r_start := fst ab; r_end := snd ab;
                r_props := create_props (edge_props e) |})
  <$> pairs (match_nodes CodebaseNode (by_guid (e_source e)) s)
            (match_nodes CodebaseNode (by_guid (e_target e)) s).

(** [valid_edges] of one group. *)
Definition valid_edges (es : list edge) (s : db) : list edge :=
  List.filter (valid_edge (existing_guids es s)) es.

Definition group_rels (s : db) (g : string * list edge) : list rel :=
  valid_edges (snd g) s ≫= edge_rels (fst g) s.

(** All relationships of a call, group after group. *)
Definition new_edges (edges : list edge) (s : db) : list rel :=
  group_by_type edges ≫= group_rels s.

(** The counts the store returns for the sub-batches of one group. *)
Definition created_counts (ty : string) (valid : list edge) (s : db)
    (starts : list Z) : list Z :=
  (fun i => Z.of_nat (length (Py.slice valid i (i + batch_size_edges)
                              ≫= edge_rels ty s))) <$> starts.

(** What [load_edges_batch] reports for one group. *)
Definition type_report_of (s : db) (g : string * list edge) : type_report :=
  let valid := valid_edges (snd g) s in
  {| tr_type := fst g;
     tr_total := Z.of_nat (length (snd g));
     tr_skipped := Z.of_nat (length (snd g)) - Z.of_nat (length valid);
     tr_valid := valid;
     tr_created :=
       created_counts (fst g) valid s
         (default [] (Py.range 0 (Z.of_nat (length valid))
                               batch_size_edges)) |}.

(** No two [CodebaseNode]s of the store share a [GUID]. *)
Definition guids_distinct (s : db) : Prop :=
  ∀ g, (length (match_nodes CodebaseNode (by_guid g) s) ≤ 1)%nat.

(** An edge between the two nodes of [two_nodes]. *)
Definition sample_edge : edge :=
  {| e_source := "R"; e_target := "A"; e_type := "imports";
     e_name := Some "uses"; e_guid := None |}.

End EdgeNotions.

(** ** Notions for the verdict of a run *)

Module VerdictNotions.
Import Graph Flatten Loader.

(** Identifier and name of every node, in depth-first order. *)
Fixpoint labelled (t : tree_node) : list (string * string) :=
  match t with
  | TreeNode g _ nm _ _ ch =>
      (default "" g, default "" nm) ::
      (fix all cs := match cs with
                     | [] => []
                     | c :: cs' => labelled c ++ all cs'
                     end) ch
  end.

Definition labelled_all (cs : list tree_node) : list (string * string) :=
  foldr (fun c l => labelled c ++ l) [] cs.

(** The number of children of the nodes named [nm], added up. *)
Fixpoint named_children (nm : string) (t : tree_node) : nat :=
  match t with
  | TreeNode _ _ n _ _ ch =>
      ((if bool_decide (default "" n = nm) then length ch else O)
       + (fix sum cs := match cs with
                        | [] => O
                        | c :: cs' => (named_children nm c + sum cs')%nat
                        end) ch)%nat
  end.

Definition named_children_all (nm : string) (cs : list tree_node) : nat :=
  foldr (fun c n => (named_children nm c + n)%nat) O cs.

Definition record_label (r : flat_node) : string * string :=
  (GUID r, name r).

(** The pattern [{name: nm}]. *)
Definition by_name (nm : string) : gmap string pval := {["name" := str nm]}.

(** The parent of a pair is named [nm] in the list of labels [N]. *)
Definition parent_named (N : list (string * string)) (nm : string)
    (r : contains_rel) : bool :=
  bool_decide ((parent_GUID r, nm) ∈ N).

(** A tree whose root is named Kalisi. *)
Definition kalisi_tree : tree_node :=
  TreeNode (Some "R") (Some "root") (Some "Kalisi") None None
    [TreeNode (Some "A") (Some "dir") (Some "a") None None
       [TreeNode (Some "C") (Some "file") (Some "Kalisi") None None []];
     TreeNode (Some "B") (Some "file") (Some "b") None None []].

End VerdictNotions.

(** ** Notions for the edge counts of a run *)

Module CountNotions.
Import Graph Flatten Loader.

(** The valid edges [load_edges_batch] reported for the type [ty]. *)
Definition reported_valid (ty : string) (reps : list type_report)
  : list edge :=
  List.filter (fun rep => bool_decide (tr_type rep = ty)) reps ≫= tr_valid.

(** What the two edge counts of [verify_load] count, for the type
    [ty]. *)
Definition counted (ty : string) (s : db) (r : rel) : bool :=
  bool_decide (r_type r = ty) && node_is is_codebase s (r_start r)
  && node_is (fun _ => true) s (r_end r).

(** Edges of two types between the nodes of [sample_tree]. *)
Definition sample_edges : list edge :=
  [{| e_source := "A"; e_target := "B"; e_type := "imports";
      e_name := None; e_guid := None |};
   {| e_source := "C"; e_target := "R"; e_type := "Depends On";
      e_name := None; e_guid := None |};
   {| e_source := "B"; e_target := "Z"; e_type := "IMPORTS";
      e_name := None; e_guid := None |};
   {| e_source := "B"; e_target := "C"; e_type := "IMPORTS";
      e_name := None; e_guid := None |}].

End CountNotions.

(** ** Notions for further properties of the importer *)

Module ImporterNotions.
Import Graph Importer.

(** The strings found under ["labels"], before [ensure_list] filters
    them. *)
Definition raw_labels (value : labels_field) : list string :=
  match value with
  | LabelsNone => []
  | LabelsList l => l
  | LabelsOne v => [v]
  end.

(** No node of the store has this [GUID]. *)
Definition guid_absent (g : string) (s : db) : Prop :=
  Forall (fun n => n_props n !! "GUID" ≠ Some (str g)) (nodes s).

(** The ways a run of [main] ends with an exception. *)
Definition node_without_guid (nodes : list node_payload) (e : error) : Prop :=
  ∃ n, n ∈ nodes ∧ Py.truthy_opt (np_GUID n) = false ∧ e = NodeMissingGUID n.

Definition node_breaks_constraint (nodes : list node_payload) (s : db)
    (e : error) : Prop :=
  ∃ n g, n ∈ nodes ∧ np_GUID n = Some g ∧ unique_guid s = true
         ∧ e = ConstraintViolation g.

Definition edge_without_guid (edges : list edge_payload) (e : error) : Prop :=
  ∃ ed, ed ∈ edges ∧ Py.truthy_opt (ep_GUID ed) = false
        ∧ e = EdgeMissingGUID ed.

Definition edge_without_endpoint (edges : list edge_payload) (e : error)
  : Prop :=
  ∃ ed g, ed ∈ edges ∧ ep_GUID ed = Some g ∧ endpoint_missing ed = true
          ∧ e = EdgeMissingEndpoints g.

(** A node of the payload without an identifier. *)
Definition anonymous_node : node_payload :=
  {| np_GUID := None; np_labels := LabelsOne "Service";
     np_properties := None; np_neo4jId := None |}.

End ImporterNotions.

(** ** The exporter: [load_env_file] and [export_neo4j_to_json] *)

Module PyStr.

(** [str.isspace] on one character of ASCII text: tab to carriage
    return, the four separators, and the space. *)
Definition isspace (c : ascii) : bool :=
  let n := nat_of_ascii c in
  (((9 <=? n) && (n <=? 13)) || ((28 <=? n) && (n <=? 32)))%nat.

Fixpoint lstrip (s : string) : string :=
  match s with
  | EmptyString => EmptyString
  | String c s' => if isspace c then lstrip s' else s
  end.

Fixpoint rstrip (s : string) : string :=
  match s with
  | EmptyString => EmptyString
  | String c s' =>
      match rstrip s' with
      | EmptyString => if isspace c then EmptyString else String c EmptyString
      | r => String c r
      end
  end.

(** [s.strip()] *)
Definition strip (s : string) : string := rstrip (lstrip s).

(** [s.startswith(c)] for a one-character prefix. *)
Definition startswith (c : ascii) (s : string) : bool :=
  match s with
  | String d _ => Ascii.eqb d c
  | EmptyString => false
  end.

(** [s.split(sep, 1)] for a one-character separator that occurs in [s]:
    the text before its first occurrence and the text after it.  [None]
    when [sep] does not occur, that is when [sep in s] is false. *)
Fixpoint split_once (sep : ascii) (s : string) : option (string * string) :=
  match s with
  | EmptyString => None
  | String c s' =>
      if Ascii.eqb c sep then Some (EmptyString, s')
      else match split_once sep s' with
           | Some (k, v) => Some (String c k, v)
           | None => None
           end
  end.

(** [c in s] *)
Fixpoint contains (c : ascii) (s : string) : bool :=
  match s with
  | EmptyString => false
  | String d s' => Ascii.eqb d c || contains c s'
  end.

End PyStr.

Module ExportRun.
Import Exporter.

(** One iteration of the loop over the lines of the file. *)
Definition read_line (env_vars : gmap string string) (line : string)
  : gmap string string :=
  let line := PyStr.strip line in
  if Py.truthy line && negb (PyStr.startswith "#" line)
  then match PyStr.split_once "=" line with
       | Some (key, value) => <[key := value]> env_vars
       | None => env_vars
       end
  else env_vars.

(** [load_env_file(env_path)]: [file] is [None] when the path does not
    exist, and otherwise the lines the iteration over the file yields. *)
Definition load_env_file (file : option (list string)) : gmap string string :=
  match file with
  | None => ∅
  | Some lines => foldl read_line ∅ lines
  end.

Section WithDateTime.

Variable DateTime : Type.
Variable iso_format : DateTime -> string.

(** The store as the exporter reads it: property values are the values
    of the driver, a node is identified by its position in [xnodes], a
    relationship by its position in [xrels]. *)
Record xnode := XNode {
  xn_labels : list string;
  xn_props : list (string * value DateTime) }.

Record xrel := XRel {
  xr_type : string;
  xr_start : nat;
  xr_end : nat;
  xr_props : list (string * value DateTime) }.

Record xdb := XDb {
  xnodes : list xnode;
  xrels : list xrel }.

Record node_dict := NodeDict {
  nd_id : nat;
  nd_labels : list string;
  nd_properties : value DateTime }.

Record edge_dict := EdgeDict {
  ed_id : nat;
  ed_type : string;
  ed_source_id : nat;
  ed_target_id : nat;
  ed_properties : value DateTime }.

Record metadata := Metadata {
  md_timestamp : string;
  md_neo4j_uri : string;
  md_excluded_labels : list string;
  md_node_count : nat;
  md_edge_count : nat }.

Record output_data := OutputData {
  export_metadata : metadata;
  out_nodes : list node_dict;
  out_edges : list edge_dict }.

(** [n:CodeElement] *)
Definition code_element (n : xnode) : bool :=
  bool_decide ("CodeElement" ∈ xn_labels n).

(** [MATCH (n) WHERE NOT n:CodeElement RETURN n, labels(n), id(n)] and
    the loop over its records, in the order of the store; [i] is the
    identifier of the first node of [ns]. *)
Fixpoint export_nodes_from (i : nat) (ns : list xnode) : list node_dict :=
  match ns with
  | [] => []
  | n :: ns' =>
      if code_element n then export_nodes_from (S i) ns'
      else {| nd_id := i; nd_labels := xn_labels n;
              nd_properties :=
                serialize_neo4j_value DateTime iso_format
                  (VDict (xn_props n)) |}
           :: export_nodes_from (S i) ns'
  end.

(** [MATCH (source)-[r]->(target)
     WHERE NOT source:CodeElement AND NOT target:CodeElement ...] and the
    loop over its records.  An entry of [xrels] whose end points are not
    nodes of the store stands for no relationship. *)
Fixpoint export_edges_from (ns : list xnode) (j : nat) (rs : list xrel)
  : list edge_dict :=
  match rs with
  | [] => []
  | r :: rs' =>
      match ns !! xr_start r, ns !! xr_end r with
      | Some source, Some target =>
          if code_element source || code_element target
          then export_edges_from ns (S j) rs'
          else {| ed_id := j; ed_type := xr_type r;
                  ed_source_id := xr_start r; ed_target_id := xr_end r;
                  ed_properties :=
                    serialize_neo4j_value DateTime iso_format
                      (VDict (xr_props r)) |}
               :: export_edges_from ns (S j) rs'
      | _, _ => export_edges_from ns (S j) rs'
      end
  end.

(** What a call leaves: [ValueError], or the data written to the file
    and the triple returned. *)
Inductive export_result :=
  | ValueError (message : string)
  | Exported (written : output_data) (returned : string * nat * nat).

(** [export_neo4j_to_json()]: [file] is the [.env] file, [now] the
    reading of the clock, [s] the store behind the connection, to which
    alone the user name and the password go. *)
Definition export_neo4j_to_json (file : option (list string)) (now : string)
    (s : xdb) : export_result :=
  let env_vars := load_env_file file in
  let neo4j_uri := default "bolt://localhost:7687" (env_vars !! "NEO4J_URI") in
  let neo4j_username := default "neo4j" (env_vars !! "NEO4J_USERNAME") in
  let neo4j_password := env_vars !! "NEO4J_PASSWORD" in
  if negb (Py.truthy_opt neo4j_password)
  then ValueError "NEO4J_PASSWORD not found in environment variables"
  else
    let nodes := export_nodes_from O (xnodes s) in
    let edges := export_edges_from (xnodes s) O (xrels s) in
    Exported
      {| export_metadata :=
           {| md_timestamp := now; md_neo4j_uri := neo4j_uri;
              md_excluded_labels := ["CodeElement"];
              md_node_count := length nodes;
              md_edge_count := length edges |};
         out_nodes := nodes; out_edges := edges |}
      ("/workspace/source/data/neo4j/neo4j_export.json",
       length nodes, length edges).

(** *** Notions used to state the exporter's properties *)

(** A value [json.dump] accepts: no timestamp and no tuple inside. *)
Fixpoint plain (v : value DateTime) : bool :=
  match v with
  | VAtom _ => true
  | VDateTime _ => false
  | VList items => forallb plain items
  | VTuple _ => false
  | VDict entries => forallb (fun kv => plain (snd kv)) entries
  end.

End WithDateTime.

Arguments xn_labels {DateTime} _.
Arguments xn_props {DateTime} _.
Arguments xr_type {DateTime} _.
Arguments xr_start {DateTime} _.
Arguments xr_end {DateTime} _.
Arguments xr_props {DateTime} _.
Arguments xnodes {DateTime} _.
Arguments xrels {DateTime} _.
Arguments nd_id {DateTime} _.
Arguments nd_labels {DateTime} _.
Arguments nd_properties {DateTime} _.
Arguments ed_id {DateTime} _.
Arguments ed_type {DateTime} _.
Arguments ed_source_id {DateTime} _.
Arguments ed_target_id {DateTime} _.
Arguments ed_properties {DateTime} _.
Arguments export_metadata {DateTime} _.
Arguments out_nodes {DateTime} _.
Arguments out_edges {DateTime} _.
Arguments code_element {DateTime} _.
Arguments plain {DateTime} _.
Arguments ValueError {DateTime} _.
Arguments Exported {DateTime} _ _.

(** The line of an assignment as it stands in the file. *)
Definition assignment (key value : string) : string :=
  key +:+ "=" +:+ value.

(** [key] is set by no line of the file. *)
Definition unset (key : string) (lines : list string) : Prop :=
  ∀ line value, line ∈ lines → PyStr.strip line ≠ assignment key value.

Definition newline : string := String (ascii_of_nat 10) EmptyString.

Definition sample_env : list string :=
  ["# connection" +:+ newline; "NEO4J_URI=bolt://db:7687" +:+ newline;
   "  NEO4J_PASSWORD=a=b" +:+ newline; "COMMENTED #=no" +:+ newline].

(** Three nodes, the second a [CodeElement], and two relationships, one
    of them at the [CodeElement]; timestamps are strings here. *)
Definition sample_store : xdb string :=
  {| xnodes :=
       [{| xn_labels := ["Service"];
           xn_props := [("created", VDateTime "2025-01-01");
                        ("tags", VTuple [VAtom (AStr "a")])] |};
        {| xn_labels := ["CodeElement"]; xn_props := [] |};
        {| xn_labels := []; xn_props := [("n", VAtom (AInt 1))] |}];
     xrels :=
       [{| xr_type := "CALLS"; xr_start := 0; xr_end := 2;
           xr_props := [("at", VDateTime "2025-01-02")] |};
        {| xr_type := "DEFINES"; xr_start := 0; xr_end := 1;
           xr_props := [] |}] |}.

End ExportRun.

(** * Properties *)

(** ** VerificationReporter *)

Section VerifyFacts.
Import Loader.

Lemma perfect_iff (st : stats) : perfect st = true ↔ expected_counts st.
Proof.
  unfold perfect, expected_counts.
  rewrite !andb_true_iff, !Z.eqb_eq. tauto.
Qed.

Lemma complete_classify (st : stats) : complete (classify st) = perfect st.
Proof. unfold classify. by destruct (perfect st). Qed.

(** C4: the verdict is "complete" exactly when the node count, the
    CONTAINS count and the child count of the Kalisi node are 6943, 6942
    and 22; from such statistics, replacing any one of the three by
    another value gives "incomplete", and the IMPORTS and DEPENDS_ON
    counts never change the verdict. *)
Theorem verify_load_complete_iff (s : Graph.db) (st : stats) :
  printed (verify_load s) = [(collect_stats s, classify (collect_stats s))]
  ∧ (complete (classify (collect_stats s)) = true
     ↔ expected_counts (collect_stats s))
  ∧ (complete (classify st) = true ↔ expected_counts st)
  ∧ (∀ i d, complete (classify (with_edge_counts i d st))
            = complete (classify st))
  ∧ (expected_counts st →
     ∀ v,
       (v ≠ 6943 → classify (with_node_count v st) = ImperfectLoad)
       ∧ (v ≠ 6942 → classify (with_contains_count v st) = ImperfectLoad)
       ∧ (v ≠ 22 → classify (with_kalisi_children v st) = ImperfectLoad)).
Proof.
  split; [done|]. split; [rewrite complete_classify; apply perfect_iff|].
  split; [rewrite complete_classify; apply perfect_iff|].
  split; [intros i d; by rewrite !complete_classify|].
  intros (Hn & Hc & Hk) v.
  assert (Hflip : ∀ st', ¬ expected_counts st' → classify st' = ImperfectLoad).
  { intros st' Hne. unfold classify.
    destruct (perfect st') eqn:Hp; [|done].
    apply perfect_iff in Hp. contradiction. }
  repeat split; intros Hv; apply Hflip; unfold expected_counts; simpl; tauto.
Qed.

Lemma verify_load_complete_iff_witness :
  classify sample_stats = PerfectLoad true
  ∧ classify (with_node_count 6944 sample_stats) = ImperfectLoad
  ∧ classify (with_contains_count 0 sample_stats) = ImperfectLoad
  ∧ classify (with_kalisi_children 21 sample_stats) = ImperfectLoad.
Proof.
  split; [reflexivity|].
  destruct (verify_load_complete_iff Graph.empty sample_stats)
    as (_ & _ & _ & _ & Hflip).
  assert (He : expected_counts sample_stats) by (repeat split; reflexivity).
  split; [apply (Hflip He 6944); lia|].
  split; [apply (Hflip He 0); lia | apply (Hflip He 21); lia].
Defined.

End VerifyFacts.

(** ** GraphExporter: value conversion *)

Section ExportFacts.
Import Exporter.

Variable DateTime : Type.
Variable iso_format : DateTime -> string.

Abbreviation value := (value DateTime).
Abbreviation serialize := (serialize_neo4j_value DateTime iso_format).

(** Induction on values, with the hypothesis available for every item of
    a sequence and every entry of a map. *)
Lemma value_nested_ind (P : value → Prop) :
  (∀ x, P (VAtom x)) →
  (∀ d, P (VDateTime d)) →
  (∀ items, Forall P items → P (VList items)) →
  (∀ items, Forall P items → P (VTuple items)) →
  (∀ entries, Forall (fun kv => P (snd kv)) entries → P (VDict entries)) →
  ∀ v, P v.
Proof.
  intros Hatom Htime Hlist Htuple Hdict.
  fix IH 1. intros [x|d|items|items|entries].
  - apply Hatom.
  - apply Htime.
  - apply Hlist. induction items as [|v items IHitems]; constructor; auto.
  - apply Htuple. induction items as [|v items IHitems]; constructor; auto.
  - apply Hdict.
    induction entries as [|[k v] entries IHentries]; constructor; auto.
Qed.

Lemma map_ext_Forall {A B} (f g : A → B) (l : list A) :
  Forall (fun x => f x = g x) l → List.map f l = List.map g l.
Proof. induction 1; simpl; congruence. Qed.

Lemma serialize_shape (v : value) : shape_of (serialize v) = shape_of v.
Proof.
  induction v as [x|d|items IH|items IH|entries IH] using value_nested_ind;
    simpl; try done.
  - f_equal. rewrite List.map_map. by apply map_ext_Forall.
  - f_equal. rewrite List.map_map. by apply map_ext_Forall.
  - f_equal. rewrite List.map_map. apply map_ext_Forall.
    eapply Forall_impl; [exact IH|]. simpl. intros [k w] Hw. simpl in *.
    by rewrite Hw.
Qed.

Lemma concat_map_normal (ls : list (list (leaf DateTime))) :
  List.map (normal_leaf DateTime iso_format) (List.concat ls)
  = List.concat (List.map (List.map (normal_leaf DateTime iso_format)) ls).
Proof. apply List.concat_map. Qed.

Lemma serialize_leaves (v : value) :
  leaves (serialize v)
  = List.map (normal_leaf DateTime iso_format) (leaves v).
Proof.
  induction v as [x|d|items IH|items IH|entries IH] using value_nested_ind;
    simpl; try done.
  - rewrite concat_map_normal, !List.map_map. f_equal.
    by apply map_ext_Forall.
  - rewrite concat_map_normal, !List.map_map. f_equal.
    by apply map_ext_Forall.
  - rewrite concat_map_normal, !List.map_map. f_equal.
    by apply map_ext_Forall.
Qed.

(** C9: on every value, however deeply sequences and maps are nested, the
    conversion returns a value with the same nesting, lengths and keys,
    whose leaves are those of the input from left to right, each timestamp
    replaced by its ISO string and every other leaf as it was; converting
    a value of any given depth is possible, since such values exist. *)
Theorem serialize_neo4j_value_nested (v : value) (n : nat) :
  shape_of (serialize v) = shape_of v
  ∧ leaves (serialize v)
    = List.map (normal_leaf DateTime iso_format) (leaves v)
  ∧ Forall (fun l => ∀ d, l ≠ LTime d) (leaves (serialize v))
  ∧ depth (serialize v) = depth v
  ∧ ∃ w : value, depth w = n.
Proof.
  split; [apply serialize_shape|]. split; [apply serialize_leaves|].
  split.
  { rewrite serialize_leaves. apply List.Forall_map, Forall_true.
    intros [x|d] d'; simpl; discriminate. }
  split.
  { induction v as [x|d|items IH|items IH|entries IH] using value_nested_ind;
      simpl; try done; f_equal.
    - induction IH as [|w items Hw _ IHitems]; simpl; [done|].
      by rewrite Hw, IHitems.
    - induction IH as [|w items Hw _ IHitems]; simpl; [done|].
      by rewrite Hw, IHitems.
    - induction IH as [|[k w] entries Hw _ IHentries]; simpl; [done|].
      simpl in Hw. by rewrite Hw, IHentries. }
  induction n as [|n [w Hw]].
  - by exists (VAtom ANone).
  - exists (VList [w]). simpl. rewrite Hw. lia.
Qed.

End ExportFacts.

(** ** Chunking of a list into batches *)

Section ChunkFacts.

Context {A : Type}.
Implicit Types (l : list A) (B i : Z).

Lemma range_from_starts (fuel : nat) (i len B : Z) :
  0 < B → (Z.to_nat (len - i) ≤ fuel)%nat →
  Py.range_from fuel i len B
  = (fun j : nat => i + Z.of_nat j * B)
      <$> seq 0 (Z.to_nat (Py.batch_count (len - i) B)).
Proof.
  intros HB. revert i. induction fuel as [|fuel IH]; intros i Hfuel.
  - simpl. assert (len - i ≤ 0) by lia.
    assert (Py.batch_count (len - i) B ≤ 0) as Hc.
    { unfold Py.batch_count.
      assert ((len - i + B - 1) / B < 1); [|lia].
      apply Z.div_lt_upper_bound; lia. }
    by replace (Z.to_nat (Py.batch_count (len - i) B)) with O by lia.
  - simpl. destruct (0 <? B) eqn:Hpos; [|apply Z.ltb_ge in Hpos; lia].
    destruct (i <? len) eqn:Hlt.
    + apply Z.ltb_lt in Hlt.
      assert (Py.batch_count (len - i) B = 1 + Py.batch_count (len - (i + B)) B)
        as Hc.
      { unfold Py.batch_count.
        replace (len - i + B - 1) with (len - (i + B) + B - 1 + 1 * B) by lia.
        rewrite Z.div_add by lia. lia. }
      assert (0 ≤ Py.batch_count (len - (i + B)) B).
      { unfold Py.batch_count. apply Z.div_pos; lia. }
      rewrite Hc, Z2Nat.inj_add, IH by lia.
      change (Z.to_nat 1) with 1%nat. simpl. f_equal; [lia|].
      rewrite <- fmap_S_seq, <- list_fmap_compose.
      apply list_fmap_ext; intros _ j _. simpl. lia.
    + apply Z.ltb_ge in Hlt.
      assert (Py.batch_count (len - i) B ≤ 0) as Hc.
      { unfold Py.batch_count.
        assert ((len - i + B - 1) / B < 1); [|lia].
        apply Z.div_lt_upper_bound; lia. }
      by replace (Z.to_nat (Py.batch_count (len - i) B)) with O by lia.
Qed.

Lemma range_batches (len B : Z) :
  0 < B → 0 ≤ len →
  Py.range 0 len B
  = Some ((fun j : nat => Z.of_nat j * B)
            <$> seq 0 (Z.to_nat (Py.batch_count len B))).
Proof.
  intros HB Hlen. unfold Py.range.
  destruct (B =? 0) eqn:HB0; [apply Z.eqb_eq in HB0; lia|].
  rewrite range_from_starts by lia. rewrite Z.sub_0_r. f_equal.
Qed.

Lemma slice_take_drop l i B :
  0 ≤ i → 0 < B →
  Py.slice l i (i + B) = take (Z.to_nat B) (drop (Z.to_nat i) l).
Proof.
  intros Hi HB. unfold Py.slice, Py.clip.
  destruct (i <? 0) eqn:Hi0; [apply Z.ltb_lt in Hi0; lia|].
  destruct (i + B <? 0) eqn:HiB; [apply Z.ltb_lt in HiB; lia|].
  pose proof (length_drop l (Z.to_nat i)) as Hd.
  destruct (Z.le_gt_cases (Z.of_nat (length l)) i) as [Hge|Hlt].
  - rewrite !Z.min_r by lia. rewrite Z.sub_diag. simpl.
    rewrite (drop_ge l (Z.to_nat i)) by lia. by rewrite take_nil.
  - rewrite (Z.min_l i) by lia.
    destruct (Z.le_gt_cases (i + B) (Z.of_nat (length l))) as [Hfit|Hover].
    + rewrite Z.min_l by lia. f_equal. lia.
    + rewrite Z.min_r by lia. rewrite !take_ge; [done | lia | lia].
Qed.

Lemma concat_take_drop l (n c : nat) :
  concat ((fun j : nat => take n (drop (j * n) l)) <$> seq 0 c)
  = take (c * n) l.
Proof.
  induction c as [|c IH]; [done|].
  rewrite seq_S, fmap_app, concat_app, IH. simpl.
  rewrite app_nil_r.
  replace (n + c * n)%nat with (c * n + n)%nat by lia.
  by rewrite take_take_drop.
Qed.

End ChunkFacts.

(** ** BatchNodeLoader *)

Section NodeLoaderFacts.
Import Graph Flatten Loader.

Lemma batch_count_ceil (L B : Z) :
  0 < B → (Py.batch_count L B - 1) * B < L ≤ Py.batch_count L B * B.
Proof.
  intros HB. unfold Py.batch_count.
  pose proof (Z.div_mod (L + B - 1) B ltac:(lia)) as Hdm.
  pose proof (Z.mod_pos_bound (L + B - 1) B HB) as Hm. nia.
Qed.

Lemma load_nodes_fold (nodes : list flat_node) (B : Z) (starts : list Z)
    (st : db * list node_line) :
  nl_batch <$> snd (foldl (load_nodes_step nodes B) st starts)
  = (nl_batch <$> snd st)
    ++ ((fun i => Py.slice nodes i (i + B)) <$> starts).
Proof.
  revert st. induction starts as [|i starts IH]; intros st; simpl.
  - by rewrite app_nil_r.
  - rewrite IH. simpl. rewrite fmap_app. simpl. by rewrite <- app_assoc.
Qed.

(** C5: with a positive batch size, the batches submitted by
    [load_nodes_batch] are [ceil(L/B)] in number, none is empty or longer
    than [B], the [j]-th is the slice of the input from position [j*B],
    and their concatenation in submission order is the input. *)
Theorem load_nodes_batch_chunks (nodes : list flat_node) (batch_size : Z)
    (s : db) :
  0 < batch_size →
  ∃ out,
    load_nodes_batch nodes batch_size s = Some out
    ∧ let chunks := nl_batch <$> printed out in
      let L := Z.of_nat (length nodes) in
      Z.of_nat (length chunks) = Py.batch_count L batch_size
      ∧ (Py.batch_count L batch_size - 1) * batch_size < L
          ≤ Py.batch_count L batch_size * batch_size
      ∧ Forall (fun c => 0 < Z.of_nat (length c) ≤ batch_size) chunks
      ∧ (∀ (j : nat) c, chunks !! j = Some c →
           c = take (Z.to_nat batch_size)
                 (drop (j * Z.to_nat batch_size) nodes))
      ∧ concat chunks = nodes.
Proof.
  intros HB. unfold load_nodes_batch.
  set (L := Z.of_nat (length nodes)).
  rewrite range_batches by lia. eexists. split; [reflexivity|].
  simpl. rewrite load_nodes_fold. simpl.
  pose proof (batch_count_ceil L batch_size HB) as Hceil.
  assert (0 ≤ Py.batch_count L batch_size) as Hc0.
  { unfold Py.batch_count. apply Z.div_pos; lia. }
  set (c := Z.to_nat (Py.batch_count L batch_size)) in *.
  set (n := Z.to_nat batch_size).
  assert ((fun i => Py.slice nodes i (i + batch_size))
            <$> ((fun j : nat => Z.of_nat j * batch_size) <$> seq 0 c)
          = (fun j : nat => take n (drop (j * n) nodes)) <$> seq 0 c) as ->.
  { rewrite <- list_fmap_compose. apply list_fmap_ext. intros _ j _. simpl.
    rewrite slice_take_drop by lia. unfold n. do 2 f_equal. lia. }
  split; [rewrite length_fmap, length_seq; lia|].
  split; [exact Hceil|].
  split.
  { apply Forall_fmap, Forall_forall. intros j Hj.
    apply elem_of_seq in Hj. simpl.
    rewrite length_take, length_drop. unfold n. nia. }
  split.
  { intros j ch Hj. rewrite list_lookup_fmap in Hj.
    destruct (seq 0 c !! j) as [j'|] eqn:Hseq; [|done].
    apply lookup_seq in Hseq as [-> _]. simpl in Hj. by inversion Hj. }
  rewrite concat_take_drop. apply take_ge. unfold c, n. nia.
Qed.

Lemma load_nodes_batch_chunks_witness :
  ∃ out,
    load_nodes_batch (sample_flat_node <$> ["a"; "b"; "c"]) 2 Graph.empty
    = Some out
    ∧ length (nl_batch <$> printed out) = 2%nat
    ∧ concat (nl_batch <$> printed out) = sample_flat_node <$> ["a"; "b"; "c"].
Proof.
  destruct (load_nodes_batch_chunks (sample_flat_node <$> ["a"; "b"; "c"])
              2 Graph.empty ltac:(lia)) as (out & Hout & Hlen & _ & _ & _ & Hcat).
  exists out. split; [exact Hout|]. split; [|exact Hcat].
  apply Nat2Z.inj. rewrite Hlen. reflexivity.
Defined.

End NodeLoaderFacts.

(** ** HierarchyFlattener *)

Section FlattenFacts.
Import Flatten.

Variable clock : nat -> string.

(** Induction on trees, with the hypothesis available for every child. *)
Lemma tree_nested_ind (P : tree_node → Prop) :
  (∀ g ty nm d p ch, Forall P ch → P (TreeNode g ty nm d p ch)) →
  ∀ t, P t.
Proof.
  intros Hnode. fix IH 1. intros [g ty nm d p ch].
  apply Hnode. induction ch as [|c ch IHch]; constructor; auto.
Qed.

Lemma size_unfold g ty nm d p ch :
  size (TreeNode g ty nm d p ch) = S (size_all ch).
Proof. simpl. f_equal; induction ch; simpl; congruence. Qed.

Lemma preorder_unfold g ty nm d p ch :
  preorder (TreeNode g ty nm d p ch) = default "" g :: preorder_all ch.
Proof. simpl. f_equal; induction ch; simpl; congruence. Qed.

Lemma tree_edges_unfold g ty nm d p ch :
  tree_edges (TreeNode g ty nm d p ch) = edges_all (default "" g) ch.
Proof. simpl; induction ch; simpl; congruence. Qed.

Lemma fields_ok_unfold g ty nm d p ch :
  fields_ok (TreeNode g ty nm d p ch)
  = Py.truthy_opt g && bool_decide (is_Some ty) && bool_decide (is_Some nm)
    && fields_all ch.
Proof. simpl. f_equal; induction ch; simpl; congruence. Qed.

Lemma flatten_nodes_appends (t : tree_node) :
  fields_ok t = true →
  ∀ parent_guid st,
    ∃ st', flatten_nodes clock t parent_guid st = Some st'
           ∧ appended t parent_guid st st'.
Proof.
  induction t as [g ty nm d p ch IH] using tree_nested_ind.
  rewrite fields_ok_unfold, !andb_true_iff, !bool_decide_eq_true.
  intros [[[Hg [ty' ->]] [nm' ->]] Hch] parent_guid st.
  destruct g as [g|]; [|done]. simpl in Hg.
  unfold appended.
  rewrite size_unfold, preorder_unfold, tree_edges_unfold. simpl.
  change (fix each (cs : list tree_node) (st0 : acc) {struct cs} : option acc :=
            match cs with
            | [] => Some st0
            | c :: cs' =>
                match flatten_nodes clock c (Some g) st0 with
                | Some st' => each cs' st'
                | None => None
                end
            end) with (flatten_children clock g).
  match goal with |- ∃ st', flatten_children clock g ch ?st0 = _ ∧ _ =>
    set (st1 := st0) end.
  assert (∀ st0, ∃ st', flatten_children clock g ch st0 = Some st'
            ∧ GUID <$> nodes_list st'
              = (GUID <$> nodes_list st0) ++ preorder_all ch
            ∧ relationships st' = relationships st0 ++ edges_all g ch
            ∧ tick st' = (tick st0 + size_all ch)%nat) as Hloop.
  { clear st1. induction ch as [|c ch IHch]; intros st0.
    - exists st0. simpl. rewrite !app_nil_r. repeat split; lia.
    - simpl in Hch. apply andb_true_iff in Hch as [Hc Hch].
      inversion IH as [|? ? IHc IHrest]; subst.
      destruct (IHc Hc (Some g) st0) as (st' & Hrun & Hn & Hr & Ht).
      destruct (IHch IHrest Hch st') as (st'' & Hrun' & Hn' & Hr' & Ht').
      exists st''. simpl. rewrite Hrun. split; [exact Hrun'|].
      rewrite Hn', Hn, Hr', Hr, Ht', Ht. simpl. rewrite Hg. simpl.
      rewrite <- !app_assoc. repeat split; lia. }
  destruct (Hloop st1) as (st' & Hrun & Hn & Hr & Ht).
  exists st'. split; [exact Hrun|].
  rewrite Hn, Hr, Ht. unfold st1. simpl.
  rewrite fmap_app. simpl. rewrite <- !app_assoc. simpl.
  split; [done|]. split; [|lia].
  unfold guid_of. simpl.
  destruct parent_guid as [pg|]; simpl; [|done].
  destruct (Py.truthy pg); simpl; [|done]. by rewrite <- app_assoc.
Qed.

Lemma preorder_head (t : tree_node) :
  preorder t = guid_of t :: tail (preorder t).
Proof. destruct t. by rewrite preorder_unfold. Qed.

Lemma preorder_length (t : tree_node) : length (preorder t) = size t.
Proof.
  induction t as [g ty nm d p ch IH] using tree_nested_ind.
  rewrite preorder_unfold, size_unfold. simpl. f_equal.
  induction IH as [|c ch Hc _ IHch]; simpl; [done|].
  by rewrite length_app, Hc, IHch.
Qed.

Lemma tree_edges_children (t : tree_node) :
  child_GUID <$> tree_edges t = tail (preorder t).
Proof.
  induction t as [g ty nm d p ch IH] using tree_nested_ind.
  rewrite preorder_unfold, tree_edges_unfold. simpl.
  induction IH as [|c ch Hc _ IHch]; simpl; [done|].
  rewrite fmap_app, Hc, IHch. by rewrite (preorder_head c) at 2.
Qed.

Lemma tree_edges_length (t : tree_node) :
  S (length (tree_edges t)) = size t.
Proof.
  rewrite <- preorder_length, (preorder_head t). simpl.
  by rewrite <- tree_edges_children, length_fmap.
Qed.

Lemma before_app_l p c l k : before p c l → before p c (l ++ k).
Proof.
  intros (l1 & l2 & l3 & ->). exists l1, l2, (l3 ++ k).
  by repeat (rewrite <- app_assoc; simpl).
Qed.

Lemma before_app_r p c l k : before p c l → before p c (k ++ l).
Proof.
  intros (l1 & l2 & l3 & ->). exists (k ++ l1), l2, l3.
  by repeat (rewrite <- app_assoc; simpl).
Qed.

Lemma before_cons p c x l : before p c l → before p c (x :: l).
Proof. apply (before_app_r p c l [x]). Qed.

Lemma tree_edges_before (t : tree_node) (r : contains_rel) :
  r ∈ tree_edges t → before (parent_GUID r) (child_GUID r) (preorder t).
Proof.
  revert r. induction t as [g ty nm d p ch IH] using tree_nested_ind.
  intros r. rewrite preorder_unfold, tree_edges_unfold.
  generalize (default "" g). clear g. intros g.
  assert (∀ pre, r ∈ edges_all g ch →
            before (parent_GUID r) (child_GUID r)
                   (g :: pre ++ preorder_all ch)) as Hgen;
    [|intros Hr; apply (Hgen [] Hr)].
  induction IH as [|c ch Hc _ IHch]; intros pre; simpl.
  - by intros ?%elem_of_nil.
  - rewrite elem_of_cons, elem_of_app. intros [->|[Hr|Hr]].
    + simpl. exists [], pre, (tail (preorder c) ++ preorder_all ch).
      simpl. by rewrite (preorder_head c) at 1.
    + apply before_cons, before_app_r, before_app_l. by apply Hc.
    + specialize (IHch (pre ++ preorder c) Hr).
      by rewrite <- app_assoc in IHch.
Qed.

(** C2: on a well-formed tree, [flatten_nodes] returns one record per
    node and one pair per node but the root; the records are in depth-first
    order, the pairs are the parent-child pairs of the tree, no pair has
    the root as its child, and in every pair the parent is listed before
    the child. *)
Theorem flatten_nodes_counts (root : tree_node) :
  well_formed root →
  ∃ ns rs,
    flatten clock root = Some (ns, rs)
    ∧ length ns = size root
    ∧ S (length rs) = size root
    ∧ GUID <$> ns = preorder root
    ∧ rs = tree_edges root
    ∧ (∀ r, r ∈ rs → child_GUID r ≠ guid_of root)
    ∧ (∀ r, r ∈ rs →
         before (parent_GUID r) (child_GUID r) (GUID <$> ns)).
Proof.
  intros [Hok Hnodup]. unfold flatten.
  destruct (flatten_nodes_appends root Hok None
              {| nodes_list := []; relationships := []; tick := O |})
    as (st & -> & Hn & Hr & _).
  simpl in Hn, Hr. exists (nodes_list st), (relationships st).
  split; [done|].
  split; [by rewrite <- preorder_length, <- Hn, length_fmap|].
  split; [rewrite Hr; apply tree_edges_length|].
  split; [done|]. split; [done|]. split.
  - intros r Hr' Heq. rewrite Hr in Hr'.
    rewrite (preorder_head root) in Hnodup.
    apply NoDup_cons in Hnodup as [Hroot _]. apply Hroot.
    rewrite <- tree_edges_children, <- Heq.
    by apply list_elem_of_fmap_2.
  - intros r Hr'. rewrite Hn. rewrite Hr in Hr'.
    by apply tree_edges_before.
Qed.

Lemma sample_tree_well_formed : well_formed sample_tree.
Proof.
  split; [reflexivity|]. simpl.
  repeat (apply NoDup_cons; split;
          [rewrite ?elem_of_cons, elem_of_nil; intros H;
           repeat destruct H as [H|H]; done|]).
  apply NoDup_nil_2.
Defined.

(** An empty identifier is not a parent: its children get no pair. *)
Remark flatten_empty_parent :
  flatten clock
    (TreeNode (Some "") (Some "root") (Some "r") None None
       [TreeNode (Some "A") (Some "file") (Some "a") None None []])
  = Some ([{| GUID := ""; type := "root"; name := "r"; description := "";
              path := ""; source := "codebase-analyzer";
              import_date := clock 0 |};
           {| GUID := "A"; type := "file"; name := "a"; description := "";
              path := ""; source := "codebase-analyzer";
              import_date := clock 1 |}], []).
Proof. reflexivity. Qed.

End FlattenFacts.

Lemma flatten_nodes_counts_witness :
  ∃ ns rs,
    Flatten.flatten Flatten.fixed_clock Flatten.sample_tree = Some (ns, rs)
    ∧ length ns = 4%nat ∧ length rs = 3%nat
    ∧ Flatten.GUID <$> ns = ["R"; "A"; "C"; "B"].
Proof.
  destruct (flatten_nodes_counts Flatten.fixed_clock Flatten.sample_tree
              sample_tree_well_formed)
    as (ns & rs & Hrun & Hns & Hrs & Hpre & _).
  exists ns, rs. split; [exact Hrun|]. split; [exact Hns|].
  split; [simpl in Hrs; lia | exact Hpre].
Defined.

(** ** Relationships are appended, nodes stay *)

Section GrowFacts.
Import Graph.

Lemma grows_refl P s : grows P s s.
Proof.
  split; [done|]. split; [done|]. exists []. by rewrite app_nil_r.
Qed.

Lemma grows_trans P s1 s2 s3 : grows P s1 s2 → grows P s2 s3 → grows P s1 s3.
Proof.
  intros (Hn & Hu & new & Hr & HP) (Hn' & Hu' & new' & Hr' & HP').
  split; [congruence|]. split; [congruence|].
  exists (new ++ new'). rewrite Hr', Hr, <- app_assoc.
  split; [done|]. by apply Forall_app.
Qed.

Lemma grows_weaken (P Q : rel → Prop) s s' :
  (∀ r, P r → Q r) → grows P s s' → grows Q s s'.
Proof.
  intros HPQ (Hn & Hu & new & Hr & HP). split; [done|]. split; [done|].
  exists new. split; [done|]. eapply Forall_impl; eauto.
Qed.

Lemma grows_create_rel (P : rel → Prop) ty a b m s :
  P {| r_type := ty; r_start := a; r_end := b; r_props := create_props m |} →
  grows P s (create_rel ty a b m s).
Proof.
  intros HP. split; [done|]. split; [done|]. eexists. split; [done|].
  by apply Forall_singleton.
Qed.

Lemma grows_foldl {X A} (P : rel → Prop) (f : db * X → A → db * X) :
  (∀ st x, grows P (fst st) (fst (f st x))) →
  ∀ xs st, grows P (fst st) (fst (foldl f st xs)).
Proof.
  intros Hf xs. induction xs as [|x xs IH]; intros st; simpl.
  - apply grows_refl.
  - eapply grows_trans; [apply Hf | apply IH].
Qed.

Lemma match_nodes_same L pat s s' :
  nodes s' = nodes s → match_nodes L pat s' = match_nodes L pat s.
Proof. unfold match_nodes. by intros ->. Qed.

End GrowFacts.

(** ** EdgeValidatorLoader *)

Section EdgeFacts.
Import Graph Loader.

Implicit Types (e : edge) (groups : list (string * list edge)).

Lemma group_add_keys k e groups :
  fst <$> group_add k e groups
  = if bool_decide (k ∈ fst <$> groups) then fst <$> groups
    else (fst <$> groups) ++ [k].
Proof.
  induction groups as [|[k' es] groups IH]; [done|].
  cbn [group_add]. rewrite (fmap_cons fst (k', es) groups). cbn [fst].
  destruct (String.eqb_spec k k') as [->|Hne]; rewrite fmap_cons; cbn [fst].
  - rewrite bool_decide_eq_true_2; [done|]. apply elem_of_cons; by left.
  - rewrite IH. destruct (bool_decide (k ∈ fst <$> groups)) eqn:Hin.
    + apply bool_decide_eq_true in Hin.
      rewrite bool_decide_eq_true_2; [done|]. apply elem_of_cons; by right.
    + apply bool_decide_eq_false in Hin.
      rewrite bool_decide_eq_false_2; [done|].
      rewrite elem_of_cons. intros [?|?]; done.
Qed.

Lemma group_add_get k e groups k' :
  group_get k' (group_add k e groups)
  = if bool_decide (k' = k) then group_get k groups ++ [e]
    else group_get k' groups.
Proof.
  induction groups as [|[k0 es] groups IH]; simpl.
  - destruct (String.eqb_spec k' k) as [->|Hne].
    + by rewrite bool_decide_eq_true_2.
    + by rewrite bool_decide_eq_false_2.
  - destruct (String.eqb_spec k k0) as [->|Hne]; simpl.
    + destruct (String.eqb_spec k' k0) as [->|Hne'].
      * by rewrite bool_decide_eq_true_2.
      * by rewrite bool_decide_eq_false_2.
    + destruct (String.eqb_spec k' k0) as [->|Hne'].
      * rewrite bool_decide_eq_false_2; [done|congruence].
      * apply IH.
Qed.

Lemma group_get_elem k es groups :
  NoDup (fst <$> groups) → (k, es) ∈ groups → group_get k groups = es.
Proof.
  induction groups as [|[k' es'] groups IH]; simpl.
  - by intros _ ?%elem_of_nil.
  - rewrite NoDup_cons, elem_of_cons. intros [Hk' Hnd] [Heq|Hin].
    + inversion Heq; subst. by rewrite String.eqb_refl.
    + destruct (String.eqb_spec k k') as [->|Hne]; [|by apply IH].
      exfalso. apply Hk'. by apply (list_elem_of_fmap_2 fst _ (k', es)).
Qed.

Lemma group_fold_keys edges groups :
  NoDup (fst <$> groups) →
  NoDup (fst <$> foldl add_edge groups edges)
  ∧ ∀ k, k ∈ fst <$> foldl add_edge groups edges
         ↔ k ∈ fst <$> groups
           ∨ ∃ e, e ∈ edges ∧ normalize_type (e_type e) = k.
Proof.
  revert groups. induction edges as [|e edges IH]; intros groups Hnd; simpl.
  - split; [done|]. intros k. split; [by left|].
    intros [?|(e & ?%elem_of_nil & _)]; done.
  - assert (NoDup (fst <$> add_edge groups e)) as Hnd'.
    { unfold add_edge. rewrite group_add_keys. case_bool_decide; [done|].
      apply NoDup_app. split; [done|]. split; [|apply NoDup_singleton].
      intros x Hx Hx'. apply list_elem_of_singleton in Hx' as ->. done. }
    destruct (IH _ Hnd') as [Hnd'' Hkeys]. split; [done|].
    intros k. rewrite Hkeys. unfold add_edge at 1. rewrite group_add_keys.
    split.
    + intros [Hk|(e' & He' & <-)].
      * case_bool_decide; [by left|].
        apply elem_of_app in Hk as [?|Hk]; [by left|].
        apply list_elem_of_singleton in Hk as ->.
        right. exists e. split; [apply elem_of_cons; by left|done].
      * right. exists e'. split; [apply elem_of_cons; by right|done].
    + intros [Hk|(e' & He' & <-)].
      * left. case_bool_decide; [done|]. apply elem_of_app. by left.
      * apply elem_of_cons in He' as [->|He'].
        -- left. case_bool_decide; [done|].
           apply elem_of_app. right. by apply list_elem_of_singleton.
        -- right. by exists e'.
Qed.

Lemma group_fold_get edges groups k :
  group_get k (foldl add_edge groups edges)
  = group_get k groups ++ List.filter (has_type k) edges.
Proof.
  revert groups. induction edges as [|e edges IH]; intros groups; simpl.
  - by rewrite app_nil_r.
  - rewrite IH. unfold add_edge at 1. rewrite group_add_get.
    unfold has_type at 2. case_bool_decide as Hk.
    + subst k. rewrite bool_decide_eq_true_2 by done.
      by rewrite <- app_assoc.
    + rewrite bool_decide_eq_false_2; [done|congruence].
Qed.

(** The groups: each key once, in order of first appearance, with the
    edges of that normalized type in input order. *)
Lemma group_by_type_spec edges :
  NoDup (fst <$> group_by_type edges)
  ∧ (∀ k, k ∈ fst <$> group_by_type edges
          ↔ ∃ e, e ∈ edges ∧ normalize_type (e_type e) = k)
  ∧ (∀ k es, (k, es) ∈ group_by_type edges →
             es = List.filter (has_type k) edges).
Proof.
  unfold group_by_type. change (foldl _ [] edges) with (foldl add_edge [] edges).
  destruct (group_fold_keys edges [] (NoDup_nil_2)) as [Hnd Hkeys].
  split; [done|]. split.
  - intros k. rewrite Hkeys. simpl. split; [|by right].
    intros [?%elem_of_nil|?]; done.
  - intros k es Hin. rewrite <- (group_get_elem k es _ Hnd Hin).
    by rewrite group_fold_get.
Qed.

Lemma guid_exists_same s s' g :
  nodes s' = nodes s → guid_exists s' g ↔ guid_exists s g.
Proof. intros Hn. unfold guid_exists. by rewrite (match_nodes_same _ _ s s'). Qed.

Lemma existing_guids_same es s s' :
  nodes s' = nodes s → existing_guids es s' = existing_guids es s.
Proof.
  intros Hn. unfold existing_guids. apply set_eq. intros g.
  rewrite !elem_of_filter. by rewrite (guid_exists_same s s').
Qed.

Lemma create_edge_grows ty (st : db * nat) e :
  grows (fun r => r_type r = ty) (fst st) (fst (create_edge ty st e)).
Proof.
  unfold create_edge.
  apply (grows_foldl (fun r => r_type r = ty)
           (fun (st : db * nat) (ab : nat * nat) =>
              (create_rel ty (fst ab) (snd ab) (edge_props e) (fst st),
               S (snd st)))).
  intros st' ab. simpl. by apply grows_create_rel.
Qed.

Lemma run_create_edges_grows ty batch s :
  grows (fun r => r_type r = ty) s (fst (run_create_edges ty batch s)).
Proof.
  unfold run_create_edges. simpl.
  apply (grows_foldl _ (create_edge ty) (create_edge_grows ty) batch (s, O)).
Qed.

Lemma load_type_spec (st : db * list type_report) (group : string * list edge) :
  grows (fun r => r_type r = fst group) (fst st) (fst (load_type st group))
  ∧ ∃ rep, snd (load_type st group) = snd st ++ [rep]
           ∧ reports (fst st) group rep.
Proof.
  destruct st as [s log], group as [ty es]. unfold load_type.
  set (valid := List.filter (valid_edge (existing_guids es s)) es).
  set (f := fun (st : db * list Z) (i : Z) =>
              let batch := Py.slice valid i (i + batch_size_edges) in
              let r := run_create_edges ty batch (fst st) in
              (fst r, snd st ++ [snd r])).
  pose proof (grows_foldl (fun r => r_type r = ty) f) as Hg.
  specialize (Hg (fun st i => run_create_edges_grows ty _ (fst st))).
  specialize (Hg (default [] (Py.range 0 (Z.of_nat (length valid))
                                batch_size_edges)) (s, [])).
  destruct (foldl f _ _) as [s' created]. simpl in *.
  split; [exact Hg|]. eexists. split; [reflexivity|]. by repeat split.
Qed.

Lemma load_types_spec (groups : list (string * list edge))
    (st : db * list type_report) :
  grows (fun r => r_type r ∈ fst <$> groups)
        (fst st) (fst (foldl load_type st groups))
  ∧ ∃ reps, snd (foldl load_type st groups) = snd st ++ reps
            ∧ Forall2 (reports (fst st)) groups reps.
Proof.
  revert st. induction groups as [|g groups IH]; intros st; simpl.
  - split; [apply grows_refl|]. exists []. by rewrite app_nil_r.
  - destruct (load_type_spec st g) as (Hg & rep & Hlog & Hrep).
    destruct (IH (load_type st g)) as (Hg' & reps & Hlog' & Hreps).
    split.
    + eapply grows_trans.
      * eapply grows_weaken; [|exact Hg]. intros r ->.
        apply elem_of_cons. by left.
      * eapply grows_weaken; [|exact Hg']. intros r Hr.
        apply elem_of_cons. by right.
    + exists (rep :: reps). rewrite Hlog', Hlog, <- app_assoc.
      split; [done|]. constructor; [done|].
      destruct Hg as (Hn & _).
      eapply Forall2_impl; [exact Hreps|].
      intros g' rep' (Ht & Htot & Hv & Hs). repeat split; try done.
      by rewrite Hv, (existing_guids_same _ (fst st) _ Hn).
Qed.

Lemma load_edges_batch_unfold edges s :
  load_edges_batch edges s
  = let st := foldl load_type (s, []) (group_by_type edges) in
    Outcome (fst st) (snd st) PyNone.
Proof.
  unfold load_edges_batch. destruct edges as [|e edges]; [done|].
  by destruct (foldl load_type _ _).
Qed.

End EdgeFacts.

Section EdgeLoaderFacts.
Import Graph Loader.

Lemma elem_of_filter_list {A} (p : A → bool) (l : list A) (x : A) :
  x ∈ List.filter p l ↔ x ∈ l ∧ p x = true.
Proof. rewrite !list_elem_of_In. rewrite List.filter_In. tauto. Qed.

Lemma filter_filter_list {A} (p q : A → bool) (l : list A) :
  List.filter p (List.filter q l) = List.filter (fun x => q x && p x) l.
Proof.
  induction l as [|x l IH]; simpl; [done|].
  destruct (q x); simpl; [destruct (p x)|]; by rewrite ?IH.
Qed.

Lemma filter_split_length {A} (p : A → bool) (l : list A) :
  (length (List.filter p l) + length (List.filter (fun x => negb (p x)) l)
   = length l)%nat.
Proof.
  induction l as [|x l IH]; simpl; [done|]. destruct (p x); simpl; lia.
Qed.

Lemma valid_edge_existing es s e :
  e ∈ es →
  valid_edge (existing_guids es s) e = endpoints_exist s e.
Proof.
  intros He. unfold valid_edge, endpoints_exist, existing_guids.
  f_equal; apply bool_decide_ext; rewrite elem_of_filter, elem_of_union,
    !elem_of_list_to_set.
  - split; [tauto|]. intros Hg. split; [done|]. left.
    by apply list_elem_of_fmap_2.
  - split; [tauto|]. intros Hg. split; [done|]. right.
    by apply list_elem_of_fmap_2.
Qed.

Lemma filter_ext_elem {A} (p q : A → bool) (l : list A) :
  (∀ x, x ∈ l → p x = q x) → List.filter p l = List.filter q l.
Proof.
  induction l as [|x l IH]; intros Hpq; simpl; [done|].
  rewrite (Hpq x) by (apply elem_of_cons; by left).
  rewrite IH; [done|]. intros y Hy. apply Hpq, elem_of_cons. by right.
Qed.

(** C3: [load_edges_batch] reports every normalized type of the input
    once; for each, the total is the number of input edges of that type,
    skipped plus selected equals the total, the skipped edges are those of
    the type with an end point missing, and every selected edge has its
    source and its target among the identifiers of the store, whose nodes
    are the same before, during and after the call. *)
Theorem load_edges_batch_counts (edges : list edge) (s : db) :
  let out := load_edges_batch edges s in
  nodes (db_after out) = nodes s
  ∧ (∀ j, nodes (store_at edges s j) = nodes s)
  ∧ NoDup (tr_type <$> printed out)
  ∧ (∀ e, e ∈ edges → normalize_type (e_type e) ∈ tr_type <$> printed out)
  ∧ ∀ rep, rep ∈ printed out →
      tr_total rep = count (has_type (tr_type rep)) edges
      ∧ tr_skipped rep + Z.of_nat (length (tr_valid rep)) = tr_total rep
      ∧ tr_skipped rep
        = count (fun e => has_type (tr_type rep) e
                          && negb (endpoints_exist s e)) edges
      ∧ tr_valid rep
        = List.filter (fun e => has_type (tr_type rep) e
                                && endpoints_exist s e) edges
      ∧ ∀ e, e ∈ tr_valid rep →
          e ∈ edges
          ∧ guid_exists s (e_source e) ∧ guid_exists s (e_target e)
          ∧ ∀ j, guid_exists (store_at edges s j) (e_source e)
                 ∧ guid_exists (store_at edges s j) (e_target e).
Proof.
  intros out. unfold out. rewrite load_edges_batch_unfold. simpl.
  destruct (load_types_spec (group_by_type edges) (s, []))
    as ((Hn & _) & reps & Hlog & Hreps).
  destruct (group_by_type_spec edges) as (Hnd & Hkeys & Hgroups).
  simpl in Hlog, Hreps, Hn. rewrite Hlog.
  assert (tr_type <$> reps = fst <$> group_by_type edges) as Htypes.
  { clear -Hreps. induction Hreps as [|g rep gs reps Hrep _ IH]; [done|].
    rewrite !fmap_cons, IH. f_equal. by destruct Hrep as [-> _]. }
  assert (∀ j, nodes (store_at edges s j) = nodes s) as Hat.
  { intros j. unfold store_at.
    by destruct (load_types_spec (take j (group_by_type edges)) (s, []))
      as ((Hn' & _) & _). }
  split; [done|]. split; [done|]. split; [by rewrite Htypes|].
  split.
  { intros e He. rewrite Htypes. apply Hkeys. by exists e. }
  intros rep Hrep.
  apply list_elem_of_lookup in Hrep as [i Hi].
  destruct (Forall2_lookup_r _ _ _ _ _ Hreps Hi)
    as ([k es] & Hg & Ht & Htot & Hv & Hs).
  simpl in *. apply list_elem_of_lookup_2 in Hg.
  pose proof (Hgroups k es Hg) as Hes.
  assert (tr_valid rep
          = List.filter (fun e => has_type k e && endpoints_exist s e) edges)
    as Hvalid.
  { rewrite Hv, <- filter_filter_list, <- Hes.
    apply filter_ext_elem. intros e He. by apply valid_edge_existing. }
  rewrite Ht. split; [unfold count; by rewrite Htot, Hes|].
  split; [lia|]. split.
  { rewrite Hs, Htot, Hvalid, Hes. unfold count.
    rewrite <- !filter_filter_list.
    pose proof (filter_split_length (endpoints_exist s)
                  (List.filter (has_type k) edges)). lia. }
  split; [done|].
  intros e He. rewrite Hvalid in He.
  apply elem_of_filter_list in He as [He Hp].
  apply andb_true_iff in Hp as [_ Hp]. unfold endpoints_exist in Hp.
  apply andb_true_iff in Hp as [Hsrc Htgt].
  apply bool_decide_eq_true in Hsrc, Htgt.
  split; [done|]. split; [done|]. split; [done|].
  intros j. by rewrite !(guid_exists_same s _ _ (Hat j)).
Qed.

End EdgeLoaderFacts.

(** ** The relationship type token *)

Section TypeTokenFacts.
Import Graph Loader.

Lemma upper_char_space (c : ascii) :
  Ascii.eqb (Py.upper_char c) " " = Ascii.eqb c " ".
Proof. destruct c as [[] [] [] [] [] [] [] []]; reflexivity. Qed.

Lemma normalize_type_chars (t : string) :
  String.list_ascii_of_string (normalize_type t)
  = List.map type_char (String.list_ascii_of_string t).
Proof.
  unfold normalize_type. induction t as [|c t IH]; simpl; [done|].
  rewrite upper_char_space. unfold type_char at 1.
  destruct (Ascii.eqb c " "); simpl; [|by rewrite IH].
  change ("" +:+ Py.replace " " "_" (Py.upper t))
    with (Py.replace " " "_" (Py.upper t)).
  by rewrite IH.
Qed.

Lemma type_char_space (c : ascii) :
  is_space c = true → type_char c = if Ascii.eqb c " " then "_"%char else c.
Proof. destruct c as [[] [] [] [] [] [] [] []]; vm_compute; congruence. Qed.

Lemma type_char_letter (c : ascii) :
  (97 ≤ nat_of_ascii c ≤ 122)%nat →
  nat_of_ascii (type_char c) = (nat_of_ascii c - 32)%nat.
Proof.
  destruct c as [[] [] [] [] [] [] [] []]; vm_compute; intros [H1 H2];
    first [reflexivity | exfalso; lia].
Qed.

(** C7, as the script has it: the key under which an edge is grouped, the
    type in its report and the type of the relationships created for it
    are [normalize_type] of its type; that token has every space replaced
    by an underscore and every letter a-z uppercased, and keeps any other
    whitespace character as it is. *)
Theorem load_edges_batch_type_token (edges : list edge) (s : db) :
  let out := load_edges_batch edges s in
  (∀ t, String.list_ascii_of_string (normalize_type t)
        = List.map type_char (String.list_ascii_of_string t))
  ∧ (∀ c, is_space c = true →
          type_char c = if Ascii.eqb c " " then "_"%char else c)
  ∧ (∀ c, (97 ≤ nat_of_ascii c ≤ 122)%nat →
          nat_of_ascii (type_char c) = (nat_of_ascii c - 32)%nat)
  ∧ (∀ k es e, (k, es) ∈ group_by_type edges → e ∈ es →
               e ∈ edges ∧ k = normalize_type (e_type e))
  ∧ (∀ e, e ∈ edges →
          ∃ es, (normalize_type (e_type e), es) ∈ group_by_type edges
                ∧ e ∈ es)
  ∧ tr_type <$> printed out = fst <$> group_by_type edges
  ∧ (∀ rep e, rep ∈ printed out → e ∈ tr_valid rep →
              tr_type rep = normalize_type (e_type e))
  ∧ ∃ new, rels (db_after out) = rels s ++ new
           ∧ Forall (fun r => ∃ e, e ∈ edges
                                   ∧ r_type r = normalize_type (e_type e))
                    new.
Proof.
  intros out.
  split; [apply normalize_type_chars|]. split; [apply type_char_space|].
  split; [apply type_char_letter|].
  destruct (group_by_type_spec edges) as (Hnd & Hkeys & Hgroups).
  split.
  { intros k es e Hg He. rewrite (Hgroups k es Hg) in He.
    apply elem_of_filter_list in He as [He Hk].
    apply bool_decide_eq_true in Hk. by split. }
  split.
  { intros e He.
    assert (normalize_type (e_type e) ∈ fst <$> group_by_type edges) as Hk
      by (apply Hkeys; by exists e).
    apply list_elem_of_fmap in Hk as ([k es] & Hk & Hg). simpl in Hk.
    exists es. rewrite Hk. split; [done|].
    rewrite (Hgroups k es Hg). apply elem_of_filter_list. split; [done|].
    by apply bool_decide_eq_true. }
  unfold out. rewrite load_edges_batch_unfold. simpl.
  destruct (load_types_spec (group_by_type edges) (s, []))
    as ((_ & _ & new & Hnew & Hty) & reps & Hlog & Hreps).
  simpl in Hlog, Hreps, Hnew. rewrite Hlog.
  split.
  { clear -Hreps. induction Hreps as [|g rep gs reps Hrep _ IH]; [done|].
    rewrite !fmap_cons, IH. f_equal. by destruct Hrep as [-> _]. }
  split.
  { intros rep e Hrep He.
    apply list_elem_of_lookup in Hrep as [i Hi].
    destruct (Forall2_lookup_r _ _ _ _ _ Hreps Hi)
      as ([k es] & Hg & Ht & _ & Hv & _).
    simpl in *. apply list_elem_of_lookup_2 in Hg.
    rewrite Hv in He. apply elem_of_filter_list in He as [He _].
    rewrite (Hgroups k es Hg) in He.
    apply elem_of_filter_list in He as [_ Hk].
    apply bool_decide_eq_true in Hk. congruence. }
  exists new. split; [done|].
  eapply Forall_impl; [exact Hty|]. intros r Hr. simpl in Hr.
  apply Hkeys in Hr as (e & He & Hk). by exists e.
Qed.

(** A tab in a type stays a tab: the token is not the one with every
    whitespace character replaced. *)
Lemma normalize_type_keeps_tab :
  fst <$> group_by_type [tab_edge] = [String "A" (String tab "B")]
  ∧ whitespace_normalized (e_type tab_edge) = "A_B"
  ∧ normalize_type (e_type tab_edge) ≠ whitespace_normalized (e_type tab_edge).
Proof. split; [reflexivity|]. split; [reflexivity|]. discriminate. Qed.

End TypeTokenFacts.

(** ** BatchRelationshipLoader *)

Section RelLoaderFacts.
Import Graph Flatten Loader.

Lemma running_lookup (cs : list Z) (t : Z) (k : nat) (x : Z) :
  running t cs !! k = Some x → x = t + sum_counts (take (S k) cs).
Proof.
  revert t k. induction cs as [|c cs IH]; intros t k; simpl; [done|].
  destruct k as [|k]; simpl.
  - intros [= <-]. rewrite ?take_0. simpl. lia.
  - intros Hk. rewrite (IH _ _ Hk). simpl. lia.
Qed.

Lemma load_relationships_fold (relationships : list contains_rel) (B : Z)
    (starts : list Z) (s : db) (total : Z) (log : list rel_line) :
  let cs := store_counts ((fun i => Py.slice relationships i (i + B)) <$> starts) s in
  ∃ s' lines,
    foldl (load_relationships_step relationships B) (s, total, log) starts
    = (s', total + sum_counts cs, log ++ lines)
    ∧ rl_created <$> lines = cs
    ∧ rl_total <$> lines = running total cs.
Proof.
  revert s total log. induction starts as [|i starts IH]; intros s total log.
  - exists s, []. simpl. by rewrite app_nil_r, Z.add_0_r.
  - cbn [foldl]. unfold load_relationships_step at 2.
    rewrite fmap_cons. cbn [store_counts].
    destruct (run_contains (Py.slice relationships i (i + B)) s)
      as [s1 created] eqn:Hrun.
    cbn [fst snd]. simpl.
    destruct (IH s1 (total + created)
                (log ++ [{| rl_number := i / B + 1; rl_created := created;
                            rl_total := total + created |}]))
      as (s' & lines & Hfold & Hc & Ht).
    exists s', ({| rl_number := i / B + 1; rl_created := created;
                   rl_total := total + created |} :: lines).
    rewrite Hfold, !fmap_cons, Hc, Ht. simpl.
    rewrite <- app_assoc. simpl. repeat split. f_equal. f_equal. lia.
Qed.

(** C8, as the script has it: with a positive batch size the call
    completes and evaluates to [None]; it prints one line per batch, with
    the count the store returned for that batch and the running total,
    which after each batch is the sum of the counts so far, and after the
    last one the sum over all batches. *)
Theorem load_relationships_batch_total (relationships : list contains_rel)
    (batch_size : Z) (s : db) :
  0 < batch_size →
  ∃ out batches,
    load_relationships_batch relationships batch_size s = Some out
    ∧ returned out = PyNone
    ∧ concat batches = relationships
    ∧ rl_created <$> printed out = store_counts batches s
    ∧ (∀ (k : nat) line, printed out !! k = Some line →
         rl_total line = sum_counts (take (S k) (rl_created <$> printed out)))
    ∧ (∀ line, last (printed out) = Some line →
         rl_total line = sum_counts (rl_created <$> printed out)).
Proof.
  intros HB. unfold load_relationships_batch.
  rewrite range_batches by lia.
  set (starts := (fun j : nat => Z.of_nat j * batch_size) <$> _).
  destruct (load_relationships_fold relationships batch_size starts s 0 [])
    as (s' & lines & Hfold & Hc & Ht).
  rewrite Hfold. simpl.
  exists (Outcome s' lines PyNone),
         ((fun i => Py.slice relationships i (i + batch_size)) <$> starts).
  split; [done|]. split; [done|]. simpl.
  assert (concat ((fun i => Py.slice relationships i (i + batch_size))
                    <$> starts) = relationships) as Hcat.
  { unfold starts. rewrite <- list_fmap_compose.
    set (c := Z.to_nat _). set (n := Z.to_nat batch_size).
    pose proof (batch_count_ceil (Z.of_nat (length relationships))
                  batch_size HB) as Hceil.
    assert (0 ≤ Py.batch_count (Z.of_nat (length relationships)) batch_size).
    { unfold Py.batch_count. apply Z.div_pos; lia. }
    assert ((fun j : nat => Py.slice relationships (Z.of_nat j * batch_size)
                              (Z.of_nat j * batch_size + batch_size))
              <$> seq 0 c
            = (fun j : nat => take n (drop (j * n) relationships))
              <$> seq 0 c) as Heq.
    { apply list_fmap_ext. intros _ j _. simpl.
      rewrite slice_take_drop by lia. unfold n. do 2 f_equal. lia. }
    etransitivity; [|apply (take_ge relationships (c * n)); unfold c, n; nia].
    rewrite <- concat_take_drop. f_equal. exact Heq. }
  assert (∀ (k : nat) line, lines !! k = Some line →
            rl_total line = sum_counts (take (S k) (rl_created <$> lines)))
    as Hrun.
  { intros k line Hk.
    assert (running 0 (rl_created <$> lines) !! k = Some (rl_total line)) as Hr.
    { rewrite Hc, <- Ht, list_lookup_fmap, Hk. done. }
    apply running_lookup in Hr. lia. }
  split; [exact Hcat|]. split; [exact Hc|]. split; [exact Hrun|].
  intros line Hlast. rewrite last_lookup in Hlast.
  rewrite (Hrun _ _ Hlast). f_equal. apply take_ge.
  rewrite length_fmap. lia.
Qed.

Lemma load_relationships_batch_total_witness :
  ∃ out,
    load_relationships_batch one_rel 1000 two_nodes = Some out
    ∧ ∀ line, last (printed out) = Some line →
        rl_total line = sum_counts (rl_created <$> printed out).
Proof.
  destruct (load_relationships_batch_total one_rel 1000 two_nodes ltac:(lia))
    as (out & batches & Hrun & _ & _ & _ & _ & Hlast).
  exists out. split; [exact Hrun | exact Hlast].
Defined.

(** The store reports one relationship for the batch, the running total
    is printed as 1, and the call evaluates to [None], not to the total. *)
Lemma load_relationships_batch_returns_none :
  (fun out => (returned out, rl_created <$> printed out,
               rl_total <$> printed out, length (rels (db_after out))))
    <$> load_relationships_batch one_rel 1000 two_nodes
  = Some (PyNone, [1], [1], 1%nat)
  ∧ ¬ ∃ out, load_relationships_batch one_rel 1000 two_nodes = Some out
             ∧ returned out = PyInt (sum_counts (rl_created <$> printed out)).
Proof.
  assert ((fun out => (returned out, rl_created <$> printed out,
               rl_total <$> printed out, length (rels (db_after out))))
            <$> load_relationships_batch one_rel 1000 two_nodes
          = Some (PyNone, [1], [1], 1%nat)) as Hrun by (vm_compute; reflexivity).
  split; [exact Hrun|].
  intros (out & Hout & Hret). rewrite Hout in Hrun. simpl in Hrun.
  inversion Hrun as [[Hnone Hc Ht Hl]]. rewrite Hret in Hnone. discriminate.
Qed.

End RelLoaderFacts.

(** ** IdempotentImporter: what a merge can see and what it changes *)

Section ImporterKeys.
Import Graph Importer.

Implicit Types (s : db) (n : node) (r : rel) (g : string)
  (L : gset string) (m : gmap string pval).

Lemma props_match_guid g m :
  props_match (by_guid g) m = bool_decide (m !! "GUID" = Some (str g)).
Proof.
  unfold props_match, by_guid. apply bool_decide_ext.
  rewrite map_Forall_singleton. split; [tauto|]. by intros ->.
Qed.

Lemma node_matches_key L g n :
  node_matches L (by_guid g) n = kmatch L g (node_key n).
Proof. unfold node_matches, kmatch. by rewrite props_match_guid. Qed.

Lemma rel_matches_key ty a b g r :
  rel_matches ty a b (by_guid g) r = rkmatch ty a b g (rel_key r).
Proof.
  unfold rel_matches, rkmatch, rel_key. rewrite props_match_guid.
  destruct r as [ty' a' b' m]; simpl.
  apply Bool.eq_true_iff_eq.
  rewrite !andb_true_iff, !bool_decide_eq_true. split.
  - intros [[[-> ->] ->] ->]. done.
  - intros [= -> -> -> ->]. done.
Qed.

Lemma find_from_fmap {A B} (f : A → B) (p : B → bool) (i : nat) (l : list A) :
  find_from p i (f <$> l) = find_from (fun x => p (f x)) i l.
Proof.
  revert i. induction l as [|x l IH]; intros i; [done|].
  rewrite fmap_cons. simpl. by rewrite IH.
Qed.

Lemma find_from_ext {A} (p q : A → bool) (i : nat) (l : list A) :
  (∀ x, p x = q x) → find_from p i l = find_from q i l.
Proof.
  intros Hpq. revert i. induction l as [|x l IH]; intros i; simpl; [done|].
  by rewrite Hpq, IH.
Qed.

Lemma existsb_fmap {A B} (f : A → B) (p : B → bool) (l : list A) :
  existsb p (f <$> l) = existsb (fun x => p (f x)) l.
Proof. induction l as [|x l IH]; [done|]. rewrite fmap_cons. simpl. by rewrite IH. Qed.

Lemma existsb_ext' {A} (p q : A → bool) (l : list A) :
  (∀ x, p x = q x) → existsb p l = existsb q l.
Proof. intros Hpq. induction l as [|x l IH]; simpl; [done|]. by rewrite Hpq, IH. Qed.

Lemma match_nodes_keys L g s :
  match_nodes L (by_guid g) s = find_from (kmatch L g) O (nkeys s).
Proof.
  unfold match_nodes, nkeys. rewrite find_from_fmap.
  apply find_from_ext. intros n. apply node_matches_key.
Qed.

Lemma exists_node_keys L g s :
  existsb (node_matches L (by_guid g)) (nodes s)
  = existsb (kmatch L g) (nkeys s).
Proof.
  unfold nkeys. rewrite existsb_fmap. apply existsb_ext'.
  intros n. apply node_matches_key.
Qed.

Lemma exists_rel_keys ty a b g (rs : list rel) :
  existsb (rel_matches ty a b (by_guid g)) rs
  = existsb (rkmatch ty a b g) (rel_key <$> rs).
Proof.
  rewrite existsb_fmap. apply existsb_ext'. intros r. apply rel_matches_key.
Qed.

(** *** Property maps *)

Lemma lookup_set_props (old new : gmap string pval) (k : string) :
  set_props old new !! k
  = match new !! k with
    | Some PNull => None
    | Some v => Some v
    | None => old !! k
    end.
Proof.
  unfold set_props. rewrite lookup_merge.
  destruct (old !! k), (new !! k) as [[]|]; done.
Qed.

Lemma setdefault_lookup_ne k k' v m :
  k ≠ k' → setdefault k v m !! k' = m !! k'.
Proof.
  intros Hne. unfold setdefault. destruct (m !! k); [done|].
  by rewrite lookup_insert_ne.
Qed.

Lemma with_legacy_guid id m : with_legacy id m !! "GUID" = m !! "GUID".
Proof.
  destruct id as [v|]; simpl; [|done]. by apply setdefault_lookup_ne.
Qed.

Lemma node_props_guid g (node : node_payload) :
  node_props g node !! "GUID" = Some (str g).
Proof. unfold node_props. by rewrite with_legacy_guid, lookup_insert_eq. Qed.

Lemma edge_props_guid g f t (edge : edge_payload) :
  edge_props g f t edge !! "GUID" = Some (str g).
Proof.
  unfold edge_props.
  rewrite with_legacy_guid, !setdefault_lookup_ne by done.
  by rewrite lookup_insert_eq.
Qed.

Lemma set_props_guid m new g :
  new !! "GUID" = Some (str g) → set_props m new !! "GUID" = Some (str g).
Proof. intros Hnew. by rewrite lookup_set_props, Hnew. Qed.

Lemma create_props_guid g : create_props (by_guid g) !! "GUID" = Some (str g).
Proof.
  unfold create_props. apply set_props_guid. unfold by_guid.
  by rewrite lookup_singleton_eq.
Qed.

(** *** [SET] keeps the keys *)

Lemma set_nodes_keys L g props s :
  props !! "GUID" = Some (str g) →
  nkeys (set_nodes L (by_guid g) props s) = nkeys s.
Proof.
  intros Hp. unfold nkeys, set_nodes. simpl. rewrite <- list_fmap_compose.
  apply list_fmap_ext. intros _ n _. simpl.
  rewrite node_matches_key. unfold kmatch.
  destruct (bool_decide (L ⊆ _)); simpl; [|done].
  case_bool_decide as Hg; [|done].
  unfold node_key in *. simpl in *. by rewrite (set_props_guid _ _ g Hp), Hg.
Qed.

Lemma set_rels_keys ty a b g props s :
  props !! "GUID" = Some (str g) →
  rkeys (set_rels ty a b (by_guid g) props s) = rkeys s.
Proof.
  intros Hp. unfold rkeys, set_rels. simpl. rewrite <- list_fmap_compose.
  apply list_fmap_ext. intros _ r _. simpl.
  rewrite rel_matches_key. unfold rkmatch.
  case_bool_decide as Hk; [|done].
  unfold rel_key in *. simpl. rewrite (set_props_guid _ _ g Hp).
  congruence.
Qed.

End ImporterKeys.

Section MergeNodeFacts.
Import Graph Importer.

Lemma elem_of_find_from {A} (p : A → bool) (i : nat) (l : list A) (j : nat) :
  j ∈ find_from p i l
  ↔ (i ≤ j)%nat ∧ ∃ x, l !! (j - i)%nat = Some x ∧ p x = true.
Proof.
  revert i. induction l as [|x l IH]; intros i; simpl.
  - rewrite elem_of_nil. split; [done|]. by intros (_ & y & Hy & _).
  - assert (j ∈ find_from p (S i) l
            ↔ (i < j)%nat ∧ ∃ y, (x :: l) !! (j - i)%nat = Some y ∧ p y = true)
      as Hrest.
    { rewrite IH. split.
      - intros (Hij & y & Hy & Hp). split; [lia|]. exists y. split; [|done].
        by replace (j - i)%nat with (S (j - S i)) by lia.
      - intros (Hij & y & Hy & Hp). split; [lia|]. exists y. split; [|done].
        by replace (j - i)%nat with (S (j - S i)) in Hy by lia. }
    destruct (p x) eqn:Hpx.
    + rewrite elem_of_cons, Hrest. split.
      * intros [->|(Hij & Hy)]; [|split; [lia|done]].
        split; [lia|]. exists x. by rewrite Nat.sub_diag.
      * intros (Hij & y & Hy & Hp).
        destruct (decide (j = i)) as [->|Hne]; [by left|].
        right. split; [lia|]. by exists y.
    + rewrite Hrest. split.
      * intros (Hij & Hy). split; [lia|done].
      * intros (Hij & y & Hy & Hp).
        destruct (decide (j = i)) as [->|Hne].
        -- rewrite Nat.sub_diag in Hy. simpl in Hy. congruence.
        -- split; [lia|]. by exists y.
Qed.

Lemma elem_of_match_nodes L pat s (j : nat) :
  j ∈ match_nodes L pat s
  ↔ ∃ n, nodes s !! j = Some n ∧ node_matches L pat n = true.
Proof.
  unfold match_nodes. rewrite elem_of_find_from, Nat.sub_0_r.
  split; [by intros [_ ?]|]. intros ?. split; [lia|done].
Qed.

Lemma existsb_false_Forall {A} (p : A → bool) (l : list A) :
  existsb p l = false ↔ Forall (fun x => p x = false) l.
Proof.
  induction l as [|x l IH]; simpl; [by split; [constructor|]|].
  rewrite orb_false_iff, IH, Forall_cons. done.
Qed.

Lemma existsb_true_elem {A} (p : A → bool) (l : list A) :
  existsb p l = true ↔ ∃ x, x ∈ l ∧ p x = true.
Proof.
  rewrite existsb_exists. by setoid_rewrite list_elem_of_In.
Qed.

Lemma create_node_matches L g :
  node_matches L (by_guid g)
    {| n_labels := L; n_props := create_props (by_guid g) |} = true.
Proof.
  rewrite node_matches_key. unfold kmatch, node_key. simpl.
  rewrite create_props_guid. by rewrite !bool_decide_eq_true_2.
Qed.

Lemma match_nodes_nil L pat s :
  match_nodes L pat s = [] ↔ existsb (node_matches L pat) (nodes s) = false.
Proof.
  rewrite existsb_false_Forall, Forall_forall. split.
  - intros Hnil n Hn. apply list_elem_of_lookup in Hn as [j Hj].
    destruct (node_matches L pat n) eqn:Hm; [|done].
    assert (j ∈ match_nodes L pat s) as Hin
      by (apply elem_of_match_nodes; eauto).
    rewrite Hnil in Hin. by apply elem_of_nil in Hin.
  - intros Hall. destruct (match_nodes L pat s) as [|j js] eqn:Hm; [done|].
    assert (j ∈ match_nodes L pat s) as Hin
      by (rewrite Hm; apply elem_of_cons; by left).
    apply elem_of_match_nodes in Hin as (n & Hn & Hp).
    apply list_elem_of_lookup_2 in Hn. rewrite (Hall n Hn) in Hp. done.
Qed.

(** What [merge_node] does to the store. *)
Lemma merge_node_written (s s' : db) (node : node_payload) (g : string) :
  np_GUID node = Some g → merge_node s node = Ok s' →
  rels s' = rels s ∧ unique_guid s' = unique_guid s
  ∧ merge_targets s node g ≠ []
  ∧ (∀ i, i ∈ merge_targets s node g →
       ∃ n', nodes s' !! i = Some n'
             ∧ node_labels node ⊆ n_labels n'
             ∧ n_props n'
               = set_props (from_option n_props (create_props (by_guid g))
                              (nodes s !! i))
                           (node_props g node))
  ∧ (∀ i, i ∉ merge_targets s node g → nodes s' !! i = nodes s !! i).
Proof.
  intros Hg. unfold merge_node, merge_targets. rewrite Hg.
  set (L := node_labels node). set (props := node_props g node).
  destruct (existsb (node_matches L (by_guid g)) (nodes s)) eqn:Hex.
  - intros [= <-]. split; [done|]. split; [done|].
    destruct (match_nodes L (by_guid g) s) as [|j js] eqn:Hm.
    { apply match_nodes_nil in Hm. congruence. }
    rewrite <- Hm. split; [by rewrite Hm|]. split.
    + intros i Hi. apply elem_of_match_nodes in Hi as (n & Hn & Hp).
      simpl. rewrite list_lookup_fmap, Hn. simpl. rewrite Hp.
      eexists. split; [done|]. simpl. split; [|done].
      unfold node_matches in Hp. apply andb_true_iff in Hp as [Hp _].
      by apply bool_decide_eq_true in Hp.
    + intros i Hi. simpl. rewrite list_lookup_fmap.
      destruct (nodes s !! i) as [n|] eqn:Hn; [|done]. simpl.
      destruct (node_matches L (by_guid g) n) eqn:Hp; [|done].
      exfalso. apply Hi, elem_of_match_nodes. eauto.
  - destruct (unique_guid s && guid_taken g s); [done|].
    intros [= <-]. split; [done|]. split; [done|].
    rewrite (proj2 (match_nodes_nil _ _ _) Hex). split; [done|].
    apply existsb_false_Forall in Hex. split.
    + intros i Hi. apply list_elem_of_singleton in Hi as ->.
      simpl. rewrite list_lookup_fmap, lookup_app_r, Nat.sub_diag by lia.
      simpl. rewrite create_node_matches.
      eexists. split; [done|]. simpl. split; [done|].
      by rewrite (lookup_ge_None_2 (nodes s)) by lia.
    + intros i Hi. simpl. rewrite list_lookup_fmap.
      destruct (decide (i < length (nodes s))%nat) as [Hlt|Hge].
      * rewrite lookup_app_l by done.
        destruct (nodes s !! i) as [n|] eqn:Hn; [|done]. simpl.
        rewrite Forall_forall in Hex.
        by rewrite (Hex n (list_elem_of_lookup_2 _ _ _ Hn)).
      * assert (i ≠ length (nodes s)) as Hne.
        { intros ->. apply Hi, list_elem_of_singleton. done. }
        rewrite lookup_ge_None_2 by (rewrite length_app; simpl; lia).
        by rewrite lookup_ge_None_2 by lia.
Qed.

End MergeNodeFacts.

(** ** The import seen through the keys *)

Section ImportAbstraction.
Import Graph Importer.

Lemma guid_taken_keys g s :
  guid_taken g s = existsb (kmatch {["Imported"]} g) (nkeys s).
Proof. apply exists_node_keys. Qed.

Lemma merge_node_abs (s : db) (node : node_payload) :
  match merge_node s node with
  | Ok s' =>
      kmerge_node (unique_guid s) (nkeys s) node = inl (nkeys s')
      ∧ rels s' = rels s ∧ unique_guid s' = unique_guid s
  | Raise e => kmerge_node (unique_guid s) (nkeys s) node = inr e
  end.
Proof.
  unfold merge_node, kmerge_node. destruct (np_GUID node) as [g|]; [|done].
  rewrite exists_node_keys, guid_taken_keys.
  destruct (existsb (kmatch (node_labels node) g) (nkeys s)).
  - rewrite set_nodes_keys by apply node_props_guid. done.
  - destruct (unique_guid s && _); [done|].
    rewrite set_nodes_keys by apply node_props_guid.
    split; [|done]. unfold nkeys, create_node. cbn [nodes].
    rewrite fmap_app. reflexivity.
Qed.

Lemma import_nodes_abs (nodes : list node_payload) (s : db) :
  kimport_nodes (unique_guid s) (nkeys s) nodes
  = (nkeys (fst (import_nodes nodes s)), snd (import_nodes nodes s))
  ∧ rels (fst (import_nodes nodes s)) = rels s
  ∧ unique_guid (fst (import_nodes nodes s)) = unique_guid s.
Proof.
  revert s. induction nodes as [|node rest IH]; intros s; simpl; [done|].
  destruct (negb (Py.truthy_opt (np_GUID node))); [done|].
  pose proof (merge_node_abs s node) as Habs.
  destruct (merge_node s node) as [s'|e].
  - destruct Habs as (-> & Hr & Hu). destruct (IH s') as (Hk & Hr' & Hu').
    rewrite <- Hu, Hk. split; [done|]. split; congruence.
  - by rewrite Habs.
Qed.

Lemma filter_nil_existsb {A} (p : A → bool) (l : list A) :
  List.filter p l = [] ↔ existsb p l = false.
Proof.
  induction l as [|x l IH]; simpl; [done|].
  destruct (p x); simpl; [split; done|]. exact IH.
Qed.

Lemma merge_rel_set_abs ty g props s (ab : nat * nat) :
  props !! "GUID" = Some (str g) →
  rkeys (merge_rel_set ty g props s ab) = kmerge_pair ty g (rkeys s) ab
  ∧ nodes (merge_rel_set ty g props s ab) = nodes s
  ∧ unique_guid (merge_rel_set ty g props s ab) = unique_guid s.
Proof.
  intros Hp. unfold merge_rel_set, kmerge_pair, merge_rel.
  rewrite set_rels_keys by done. unfold rkeys at 2.
  rewrite <- exists_rel_keys.
  destruct (List.filter _ (rels s)) as [|r hits] eqn:Hf.
  - apply filter_nil_existsb in Hf. rewrite Hf. simpl.
    split; [|done]. unfold rkeys, create_rel. cbn [rels].
    rewrite fmap_app. reflexivity.
  - destruct (existsb _ (rels s)) eqn:Hex; [done|].
    apply filter_nil_existsb in Hex. congruence.
Qed.

Lemma merge_rels_abs ty g props (ps : list (nat * nat)) s :
  props !! "GUID" = Some (str g) →
  rkeys (foldl (merge_rel_set ty g props) s ps)
  = foldl (kmerge_pair ty g) (rkeys s) ps
  ∧ nodes (foldl (merge_rel_set ty g props) s ps) = nodes s
  ∧ unique_guid (foldl (merge_rel_set ty g props) s ps) = unique_guid s.
Proof.
  intros Hp. revert s. induction ps as [|ab ps IH]; intros s; simpl; [done|].
  destruct (merge_rel_set_abs ty g props s ab Hp) as (Hk & Hn & Hu).
  destruct (IH (merge_rel_set ty g props s ab)) as (Hk' & Hn' & Hu').
  rewrite Hk', Hk. split; [done|]. split; congruence.
Qed.

Lemma merge_relationship_abs (s : db) (edge : edge_payload) :
  match merge_relationship s edge with
  | Ok s' =>
      kmerge_rel (nkeys s) (rkeys s) edge = inl (rkeys s')
      ∧ nodes s' = nodes s ∧ unique_guid s' = unique_guid s
  | Raise e => kmerge_rel (nkeys s) (rkeys s) edge = inr e
  end.
Proof.
  unfold merge_relationship, kmerge_rel.
  destruct (ep_GUID edge) as [g|]; [|done].
  destruct (negb _ || negb _); [done|].
  unfold kpairs. rewrite <- !match_nodes_keys.
  destruct (merge_rels_abs (rel_type_of edge) g
              (edge_props g (default "" (ep_fromGUID edge))
                 (default "" (ep_toGUID edge)) edge)
              (pairs (match_nodes ∅ (by_guid (default "" (ep_fromGUID edge))) s)
                 (match_nodes ∅ (by_guid (default "" (ep_toGUID edge))) s))
              s (edge_props_guid _ _ _ _)) as (-> & Hn & Hu).
  done.
Qed.

Lemma import_edges_abs (edges : list edge_payload) (s : db) :
  kimport_edges (nkeys s) (rkeys s) edges
  = (rkeys (fst (import_edges edges s)), snd (import_edges edges s))
  ∧ nodes (fst (import_edges edges s)) = nodes s
  ∧ unique_guid (fst (import_edges edges s)) = unique_guid s.
Proof.
  revert s. induction edges as [|edge rest IH]; intros s; simpl; [done|].
  destruct (negb (Py.truthy_opt (ep_GUID edge))); [done|].
  pose proof (merge_relationship_abs s edge) as Habs.
  destruct (merge_relationship s edge) as [s'|e].
  - destruct Habs as (-> & Hn & Hu). destruct (IH s') as (Hk & Hn' & Hu').
    unfold nkeys in *. rewrite <- Hn, Hk. split; [done|]. split; congruence.
  - by rewrite Habs.
Qed.

End ImportAbstraction.

(** ** Running the import a second time *)

Section ImportTwice.
Import Graph Importer.

Lemma existsb_prefix {A} (p : A → bool) (l k : list A) :
  l `prefix_of` k → existsb p l = true → existsb p k = true.
Proof.
  intros [ext ->] Hl. rewrite existsb_app, Hl. done.
Qed.

Lemma kmerge_node_covers u ks node ks' g :
  np_GUID node = Some g → kmerge_node u ks node = inl ks' →
  ks `prefix_of` ks' ∧ existsb (kmatch (node_labels node) g) ks' = true.
Proof.
  intros Hg. unfold kmerge_node. rewrite Hg.
  destruct (existsb (kmatch (node_labels node) g) ks) eqn:Hex.
  - intros [= <-]. done.
  - destruct (u && _); [done|]. intros [= <-].
    split; [by apply prefix_app_r|].
    rewrite existsb_app. simpl. unfold kmatch at 2. simpl.
    rewrite !bool_decide_eq_true_2 by done. by rewrite orb_true_r.
Qed.

Lemma kmerge_node_covered u ks node g :
  np_GUID node = Some g →
  existsb (kmatch (node_labels node) g) ks = true →
  kmerge_node u ks node = inl ks.
Proof. intros Hg Hex. unfold kmerge_node. by rewrite Hg, Hex. Qed.

Lemma truthy_opt_some (o : option string) :
  negb (Py.truthy_opt o) = false → ∃ g, o = Some g.
Proof. destruct o as [g|]; [by exists g|done]. Qed.

Lemma kimport_nodes_prefix u nodes ks :
  ks `prefix_of` fst (kimport_nodes u ks nodes).
Proof.
  revert ks. induction nodes as [|node rest IH]; intros ks; simpl; [done|].
  destruct (negb (Py.truthy_opt (np_GUID node))) eqn:Hg; [done|].
  apply truthy_opt_some in Hg as [g Hg].
  destruct (kmerge_node u ks node) as [ks'|e] eqn:Hm; [|done].
  destruct (kmerge_node_covers _ _ _ _ _ Hg Hm) as [Hpre _].
  by etransitivity; [|apply IH].
Qed.

Lemma kimport_nodes_again u nodes ks :
  kimport_nodes u (fst (kimport_nodes u ks nodes)) nodes
  = kimport_nodes u ks nodes.
Proof.
  revert ks. induction nodes as [|node rest IH]; intros ks; [done|].
  cbn [kimport_nodes].
  destruct (negb (Py.truthy_opt (np_GUID node))) eqn:Hg.
  - cbn [fst kimport_nodes]. by rewrite ?Hg.
  - destruct (kmerge_node u ks node) as [ks'|e] eqn:Hm.
    + cbn [kimport_nodes]. rewrite ?Hg.
      apply truthy_opt_some in Hg as [g Hg].
      destruct (kmerge_node_covers _ _ _ _ _ Hg Hm) as [_ Hc].
      rewrite (kmerge_node_covered u _ node g Hg);
        [|by eapply existsb_prefix; [apply kimport_nodes_prefix|]].
      apply IH.
    + cbn [fst kimport_nodes]. by rewrite ?Hg, ?Hm.
Qed.

Lemma kmerge_pair_covers ty g rks ab :
  rks `prefix_of` kmerge_pair ty g rks ab
  ∧ existsb (rkmatch ty (fst ab) (snd ab) g) (kmerge_pair ty g rks ab) = true.
Proof.
  unfold kmerge_pair.
  destruct (existsb (rkmatch ty (fst ab) (snd ab) g) rks) eqn:Hex; [done|].
  split; [by apply prefix_app_r|].
  rewrite existsb_app. simpl. unfold rkmatch at 2.
  rewrite bool_decide_eq_true_2 by done. by rewrite orb_true_r.
Qed.

Lemma kmerge_pairs_prefix ty g ps rks :
  rks `prefix_of` foldl (kmerge_pair ty g) rks ps.
Proof.
  revert rks. induction ps as [|ab ps IH]; intros rks; simpl; [done|].
  etransitivity; [apply (kmerge_pair_covers ty g rks ab)|apply IH].
Qed.

Lemma kmerge_pairs_covers ty g ps rks ab :
  ab ∈ ps →
  existsb (rkmatch ty (fst ab) (snd ab) g) (foldl (kmerge_pair ty g) rks ps)
  = true.
Proof.
  revert rks. induction ps as [|ab' ps IH]; intros rks; simpl.
  - by intros ?%elem_of_nil.
  - rewrite elem_of_cons. intros [->|Hin]; [|by apply IH].
    eapply existsb_prefix; [apply kmerge_pairs_prefix|].
    apply kmerge_pair_covers.
Qed.

Lemma kmerge_pairs_covered ty g ps rks :
  (∀ ab, ab ∈ ps → existsb (rkmatch ty (fst ab) (snd ab) g) rks = true) →
  foldl (kmerge_pair ty g) rks ps = rks.
Proof.
  revert rks. induction ps as [|ab ps IH]; intros rks Hall; simpl; [done|].
  assert (kmerge_pair ty g rks ab = rks) as ->.
  { unfold kmerge_pair. rewrite Hall; [done|]. apply elem_of_cons. by left. }
  apply IH. intros ab' Hin. apply Hall, elem_of_cons. by right.
Qed.

Lemma kmerge_rel_prefix nks rks edge rks' :
  kmerge_rel nks rks edge = inl rks' → rks `prefix_of` rks'.
Proof.
  unfold kmerge_rel. destruct (ep_GUID edge) as [g|]; [|done].
  destruct (negb _ || negb _); [done|]. intros [= <-].
  apply kmerge_pairs_prefix.
Qed.

Lemma kimport_edges_prefix nks edges rks :
  rks `prefix_of` fst (kimport_edges nks rks edges).
Proof.
  revert rks. induction edges as [|edge rest IH]; intros rks; simpl; [done|].
  destruct (negb (Py.truthy_opt (ep_GUID edge))); [done|].
  destruct (kmerge_rel nks rks edge) as [rks'|e] eqn:Hm; [|done].
  etransitivity; [by eapply kmerge_rel_prefix|apply IH].
Qed.

Lemma kmerge_rel_again nks rks edge rks' rks'' :
  kmerge_rel nks rks edge = inl rks' → rks' `prefix_of` rks'' →
  kmerge_rel nks rks'' edge = inl rks''.
Proof.
  unfold kmerge_rel. destruct (ep_GUID edge) as [g|]; [|done].
  destruct (negb _ || negb _); [done|]. intros [= <-] Hpre. f_equal.
  apply kmerge_pairs_covered. intros ab Hab.
  eapply existsb_prefix; [exact Hpre|]. by apply kmerge_pairs_covers.
Qed.

Lemma kimport_edges_again nks edges rks :
  kimport_edges nks (fst (kimport_edges nks rks edges)) edges
  = kimport_edges nks rks edges.
Proof.
  revert rks. induction edges as [|edge rest IH]; intros rks; [done|].
  cbn [kimport_edges].
  destruct (negb (Py.truthy_opt (ep_GUID edge))) eqn:Hg.
  - cbn [fst kimport_edges]. by rewrite ?Hg.
  - destruct (kmerge_rel nks rks edge) as [rks'|e] eqn:Hm.
    + cbn [kimport_edges]. rewrite ?Hg.
      rewrite (kmerge_rel_again nks rks edge rks' _ Hm
                 (kimport_edges_prefix nks rest rks')).
      apply IH.
    + cbn [fst kimport_edges]. by rewrite ?Hg, ?Hm.
Qed.

Lemma kimported_prefix nks nks' :
  nks `prefix_of` nks' → NoDup (kimported nks') → NoDup (kimported nks).
Proof.
  intros [ext ->]. unfold kimported. rewrite omap_app.
  by intros [? _]%NoDup_app.
Qed.

Lemma kensure_again accepted u nks nks' :
  nks `prefix_of` nks' →
  kensure accepted (kensure accepted u nks) nks' = kensure accepted u nks.
Proof.
  intros Hpre. unfold kensure. destruct u; [done|]. simpl.
  destruct accepted; simpl; [|done].
  case_bool_decide as Hnd; [done|]. simpl.
  apply bool_decide_eq_false_2. intros Hnd'. apply Hnd.
  by eapply kimported_prefix.
Qed.

(** On the keys, a second run changes nothing and ends like the first. *)
Lemma kmain_again dry_run accepted nodes edges a :
  kmain dry_run accepted nodes edges
    (fst (kmain dry_run accepted nodes edges a))
  = kmain dry_run accepted nodes edges a.
Proof.
  unfold kmain. destruct dry_run; [done|].
  destruct a as [[u nks] rks]. cbn [fst snd].
  set (u' := kensure accepted u nks).
  pose proof (kimport_nodes_prefix u' nodes nks) as Hpre.
  pose proof (kimport_nodes_again u' nodes nks) as Hn.
  destruct (kimport_nodes u' nks nodes) as [nks1 [e|]] eqn:Hrun;
    cbn [fst snd] in *.
  - unfold u'. rewrite (kensure_again _ _ _ _ Hpre). fold u'. by rewrite Hn.
  - unfold u'. rewrite (kensure_again _ _ _ _ Hpre). fold u'. rewrite Hn.
    by rewrite kimport_edges_again.
Qed.

Lemma omap_cons_eq {A B} (f : A → option B) (x : A) (l : list A) :
  omap f (x :: l)
  = match f x with Some y => y :: omap f l | None => omap f l end.
Proof. done. Qed.

Lemma imported_guids_keys s : imported_guids s = kimported (nkeys s).
Proof.
  unfold imported_guids, kimported, nkeys.
  induction (nodes s) as [|n ns IH]; [done|].
  rewrite fmap_cons, !omap_cons_eq, IH. done.
Qed.

Lemma ensure_constraint_abs accepted s :
  unique_guid (ensure_constraint accepted s)
  = kensure accepted (unique_guid s) (nkeys s)
  ∧ nodes (ensure_constraint accepted s) = nodes s
  ∧ rels (ensure_constraint accepted s) = rels s.
Proof.
  unfold ensure_constraint, kensure. rewrite imported_guids_keys.
  destruct (unique_guid s) eqn:Hu; [done|]. simpl.
  by destruct (accepted && _).
Qed.

Lemma main_abs dry_run accepted nodes edges s :
  kmain dry_run accepted nodes edges (abs s)
  = (abs (fst (main dry_run accepted nodes edges s)),
     snd (main dry_run accepted nodes edges s)).
Proof.
  unfold kmain, main, abs. destruct dry_run; [done|]. cbn [fst snd].
  destruct (ensure_constraint_abs accepted s) as (Hu & Hn & Hr).
  set (s0 := ensure_constraint accepted s) in *.
  destruct (import_nodes_abs nodes s0) as (Hk & Hr' & Hu').
  assert (nkeys s0 = nkeys s) as Hks by (unfold nkeys; by rewrite Hn).
  rewrite <- Hu, <- Hks, Hk.
  destruct (import_nodes nodes s0) as [s1 [e|]]; cbn [fst snd] in *.
  - unfold rkeys. by rewrite Hu', Hr', Hr.
  - destruct (import_edges_abs edges s1) as (Hk2 & Hn2 & Hu2).
    assert (rkeys s = rkeys s1) as -> by (unfold rkeys; by rewrite Hr', Hr).
    rewrite Hk2. destruct (import_edges edges s1) as [s2 r]; cbn [fst snd] in *.
    unfold nkeys. by rewrite Hu2, Hn2, Hu'.
Qed.

End ImportTwice.

(** ** A second run with distinct identifiers *)

Section ImportFixpoint.
Import Graph Importer.

Lemma set_props_idem (m p : gmap string pval) :
  set_props (set_props m p) p = set_props m p.
Proof.
  apply map_eq. intros k. rewrite !lookup_set_props.
  destruct (p !! k) as [[]|]; done.
Qed.

Lemma node_eta (n : node) :
  {| n_labels := n_labels n; n_props := n_props n |} = n.
Proof. by destruct n. Qed.

Lemma rel_eta (r : rel) :
  {| r_type := r_type r; r_start := r_start r; r_end := r_end r;
     r_props := r_props r |} = r.
Proof. by destruct r. Qed.

Lemma db_eta (s : db) :
  {| nodes := nodes s; rels := rels s; unique_guid := unique_guid s |} = s.
Proof. by destruct s. Qed.

Lemma set_node_matches L g props n :
  props !! "GUID" = Some (str g) →
  node_matches L (by_guid g)
    {| n_labels := n_labels n; n_props := set_props (n_props n) props |}
  = bool_decide (L ⊆ n_labels n).
Proof.
  intros Hp. rewrite node_matches_key. unfold kmatch, node_key. simpl.
  rewrite (set_props_guid _ _ g Hp).
  by rewrite (bool_decide_eq_true_2 (Some (str g) = Some (str g))),
    andb_true_r.
Qed.

Lemma set_nodes_settles L g props s :
  props !! "GUID" = Some (str g) →
  existsb (node_matches L (by_guid g)) (nodes s) = true →
  node_settled L g props (set_nodes L (by_guid g) props s).
Proof.
  intros Hp Hex. split.
  - pose proof (set_nodes_keys L g props s Hp) as Hk.
    rewrite exists_node_keys, Hk, <- exists_node_keys. done.
  - simpl. apply Forall_fmap, Forall_forall. intros n _. simpl.
    destruct (node_matches L (by_guid g) n) eqn:Hm.
    + simpl. intros _. apply set_props_idem.
    + rewrite Hm. done.
Qed.

Lemma merge_node_settles s s' node g :
  np_GUID node = Some g → merge_node s node = Ok s' →
  node_settled (node_labels node) g (node_props g node) s'.
Proof.
  intros Hg. unfold merge_node. rewrite Hg.
  destruct (existsb _ (nodes s)) eqn:Hex.
  - intros [= <-]. apply set_nodes_settles; [apply node_props_guid|done].
  - destruct (_ && _); [done|]. intros [= <-].
    apply set_nodes_settles; [apply node_props_guid|].
    simpl. rewrite existsb_app. simpl.
    by rewrite create_node_matches, orb_true_r.
Qed.

Lemma str_inj g g' : str g = str g' → g = g'.
Proof. by intros [= ->]. Qed.

Lemma node_matches_guid L g n :
  node_matches L (by_guid g) n = true → n_props n !! "GUID" = Some (str g).
Proof.
  rewrite node_matches_key. unfold kmatch, node_key. simpl.
  rewrite andb_true_iff, !bool_decide_eq_true. by intros [_ ?].
Qed.

Lemma set_nodes_other L g props L' g' props' s :
  g' ≠ g → props' !! "GUID" = Some (str g') →
  node_settled L g props s →
  node_settled L g props (set_nodes L' (by_guid g') props' s).
Proof.
  intros Hne Hp' [Hex Hall]. split.
  - pose proof (set_nodes_keys L' g' props' s Hp') as Hk.
    rewrite exists_node_keys, Hk, <- exists_node_keys. done.
  - simpl. apply Forall_fmap. eapply Forall_impl; [exact Hall|].
    intros n Hn. simpl.
    destruct (node_matches L' (by_guid g') n) eqn:Hm'; [|done].
    intros Hm. apply node_matches_guid in Hm. simpl in Hm.
    rewrite (set_props_guid _ _ g' Hp') in Hm.
    exfalso. apply Hne. apply str_inj. congruence.
Qed.

Lemma merge_node_other L g props s s' node g' :
  g' ≠ g → np_GUID node = Some g' → merge_node s node = Ok s' →
  node_settled L g props s → node_settled L g props s'.
Proof.
  intros Hne Hg'. unfold merge_node. rewrite Hg'.
  destruct (existsb _ (nodes s)) eqn:Hex.
  - intros [= <-]. apply set_nodes_other; [done|apply node_props_guid].
  - destruct (_ && _); [done|]. intros [= <-] [Hex' Hall].
    apply set_nodes_other; [done|apply node_props_guid|]. split.
    + simpl. by rewrite existsb_app, Hex'.
    + simpl. apply Forall_app. split; [done|]. apply Forall_singleton.
      intros Hm. apply node_matches_guid in Hm. simpl in Hm.
      rewrite create_props_guid in Hm. exfalso. apply Hne, str_inj.
      congruence.
Qed.

Lemma merge_node_fixed s node g :
  np_GUID node = Some g →
  node_settled (node_labels node) g (node_props g node) s →
  merge_node s node = Ok s.
Proof.
  intros Hg [Hex Hall]. unfold merge_node. rewrite Hg, Hex. f_equal.
  unfold set_nodes. rewrite <- (db_eta s) at 4. f_equal.
  rewrite <- (list_fmap_id (nodes s)) at 2.
  apply Forall_fmap_ext_1. eapply Forall_impl; [exact Hall|].
  intros n Hn. simpl. destruct (node_matches _ _ n) eqn:Hm; [|done].
  rewrite (Hn Hm). apply node_eta.
Qed.

Lemma import_nodes_keeps L g props rest s :
  (∀ q, q ∈ rest → np_GUID q ≠ Some g) →
  node_settled L g props s →
  node_settled L g props (fst (import_nodes rest s)).
Proof.
  revert s. induction rest as [|q rest IH]; intros s Hother Hs; [done|].
  cbn [import_nodes].
  destruct (negb (Py.truthy_opt (np_GUID q))) eqn:Hq; [done|].
  apply truthy_opt_some in Hq as [g' Hg'].
  destruct (merge_node s q) as [s'|e] eqn:Hm; [|done].
  apply IH.
  - intros q' Hq'. apply Hother, elem_of_cons. by right.
  - eapply merge_node_other; eauto.
    intros ->. apply (Hother q); [apply elem_of_cons; by left|done].
Qed.

Lemma import_nodes_fix nodes s :
  NoDup (np_GUID <$> nodes) →
  import_nodes nodes (fst (import_nodes nodes s)) = import_nodes nodes s.
Proof.
  revert s. induction nodes as [|p rest IH]; intros s Hnd; [done|].
  rewrite fmap_cons in Hnd. apply NoDup_cons in Hnd as [Hp Hnd].
  cbn [import_nodes].
  destruct (negb (Py.truthy_opt (np_GUID p))) eqn:Hg.
  { cbn [fst import_nodes]. by rewrite ?Hg. }
  destruct (merge_node s p) as [s'|e] eqn:Hm.
  - cbn [import_nodes]. rewrite ?Hg.
    apply truthy_opt_some in Hg as [g Hg].
    rewrite (merge_node_fixed _ p g Hg).
    + by apply IH.
    + apply import_nodes_keeps; [|by eapply merge_node_settles].
      intros q Hq Hgq. apply Hp. rewrite Hg, <- Hgq.
      by apply list_elem_of_fmap_2.
  - cbn [fst import_nodes]. by rewrite ?Hg, ?Hm.
Qed.

End ImportFixpoint.

Section ImportFixpointEdges.
Import Graph Importer.

Lemma rel_matches_inv ty a b g r :
  rel_matches ty a b (by_guid g) r = true →
  rel_key r = (ty, a, b, Some (str g)).
Proof.
  rewrite rel_matches_key. unfold rkmatch. by rewrite bool_decide_eq_true.
Qed.

(** The relationship list after one merge. *)
Lemma merge_rel_set_rels ty g props s (ab : nat * nat) :
  rels (merge_rel_set ty g props s ab)
  = (fun r => if rel_matches ty (fst ab) (snd ab) (by_guid g) r
              then {| r_type := r_type r; r_start := r_start r;
                      r_end := r_end r;
                      r_props := set_props (r_props r) props |}
              else r)
    <$> (rels s
         ++ (if existsb (rel_matches ty (fst ab) (snd ab) (by_guid g)) (rels s)
             then []
             else [{| r_type := ty; r_start := fst ab; r_end := snd ab;
                      r_props := create_props (by_guid g) |}])).
Proof.
  unfold merge_rel_set, merge_rel.
  destruct (List.filter _ (rels s)) as [|r hits] eqn:Hf.
  - apply filter_nil_existsb in Hf. by rewrite Hf.
  - destruct (existsb _ (rels s)) eqn:Hex.
    + by rewrite app_nil_r.
    + apply filter_nil_existsb in Hex. congruence.
Qed.

Lemma merge_rel_set_settles ty g props s ab :
  props !! "GUID" = Some (str g) →
  rel_settled ty g props ab (merge_rel_set ty g props s ab).
Proof.
  intros Hp. split.
  - rewrite exists_rel_keys.
    destruct (merge_rel_set_abs ty g props s ab Hp) as (Hk & _).
    unfold rkeys in Hk. rewrite Hk. apply kmerge_pair_covers.
  - rewrite merge_rel_set_rels. apply Forall_fmap, Forall_forall.
    intros r _. simpl.
    destruct (rel_matches ty (fst ab) (snd ab) (by_guid g) r) eqn:Hm.
    + intros _. simpl. apply set_props_idem.
    + by rewrite Hm.
Qed.

Lemma merge_rel_set_other ty g props ab ty' g' props' ab' s :
  (ty', ab', g') ≠ (ty, ab, g) →
  props' !! "GUID" = Some (str g') →
  rel_settled ty g props ab s →
  rel_settled ty g props ab (merge_rel_set ty' g' props' s ab').
Proof.
  intros Hne Hp' [Hex Hall].
  assert (∀ r, rel_key r = (ty', fst ab', snd ab', Some (str g')) →
               rel_matches ty (fst ab) (snd ab) (by_guid g) r = false)
    as Hno.
  { intros r Hk. destruct (rel_matches ty _ _ _ r) eqn:Hm; [|done].
    apply rel_matches_inv in Hm. rewrite Hk in Hm.
    inversion Hm as [[Ht Ha Hb Hg]]. exfalso. apply Hne.
    destruct ab, ab'. simpl in *. by subst. }
  split.
  - rewrite exists_rel_keys.
    destruct (merge_rel_set_abs ty' g' props' s ab' Hp') as (Hk & _).
    unfold rkeys in Hk. rewrite Hk.
    eapply existsb_prefix; [apply kmerge_pair_covers|].
    by rewrite <- exists_rel_keys.
  - rewrite merge_rel_set_rels. apply Forall_fmap, Forall_app. split.
    + eapply Forall_impl; [exact Hall|]. intros r Hr. simpl.
      destruct (rel_matches ty' _ _ _ r) eqn:Hm'; [|done].
      rewrite Hno; [done|]. apply rel_matches_inv in Hm'.
      unfold rel_key in *. simpl.
      rewrite (set_props_guid _ _ g' Hp'). congruence.
    + destruct (existsb (rel_matches ty' (fst ab') (snd ab') (by_guid g'))
                  (rels s)); [constructor|].
      apply Forall_singleton. simpl.
      destruct (rel_matches ty' _ _ _ _); rewrite Hno; try done;
        unfold rel_key; simpl;
        by rewrite ?(set_props_guid _ _ g' Hp'), ?create_props_guid.
Qed.

Lemma merge_rel_set_fixed ty g props ab s :
  rel_settled ty g props ab s → merge_rel_set ty g props s ab = s.
Proof.
  intros [Hex Hall]. unfold merge_rel_set, merge_rel.
  destruct (List.filter _ (rels s)) as [|r hits] eqn:Hf.
  { apply filter_nil_existsb in Hf. congruence. }
  cbn [fst]. unfold set_rels. rewrite <- (db_eta s) at 4. f_equal.
  rewrite <- (list_fmap_id (rels s)) at 2.
  apply Forall_fmap_ext_1. eapply Forall_impl; [exact Hall|].
  intros r' Hr'. simpl. destruct (rel_matches _ _ _ _ r') eqn:Hm; [|done].
  rewrite (Hr' Hm). apply rel_eta.
Qed.

Lemma merge_rels_settle ty g props ab ps s :
  props !! "GUID" = Some (str g) →
  ab ∈ ps ∨ rel_settled ty g props ab s →
  rel_settled ty g props ab (foldl (merge_rel_set ty g props) s ps).
Proof.
  intros Hp. revert s. induction ps as [|ab' ps IH]; intros s; simpl.
  - intros [?%elem_of_nil|?]; done.
  - intros Hor. apply IH.
    destruct (decide (ab' = ab)) as [->|Hne].
    { right. by apply merge_rel_set_settles. }
    destruct Hor as [Hin|Hs].
    + apply elem_of_cons in Hin as [->|Hin]; [done|by left].
    + right. apply merge_rel_set_other; [|done|done]. congruence.
Qed.

Lemma merge_rels_other ty g props ab ty' g' props' ps s :
  (ty', g') ≠ (ty, g) → props' !! "GUID" = Some (str g') →
  rel_settled ty g props ab s →
  rel_settled ty g props ab (foldl (merge_rel_set ty' g' props') s ps).
Proof.
  intros Hne Hp'. revert s. induction ps as [|ab' ps IH]; intros s Hs;
    simpl; [done|].
  apply IH, merge_rel_set_other; [|done|done]. congruence.
Qed.

Lemma merge_rels_fixed ty g props ps s :
  (∀ ab, ab ∈ ps → rel_settled ty g props ab s) →
  foldl (merge_rel_set ty g props) s ps = s.
Proof.
  induction ps as [|ab ps IH]; intros Hall; simpl; [done|].
  rewrite merge_rel_set_fixed.
  - apply IH. intros ab' Hin. apply Hall, elem_of_cons. by right.
  - apply Hall, elem_of_cons. by left.
Qed.

Lemma epairs_same s s' edge :
  nodes s' = nodes s → epairs s' edge = epairs s edge.
Proof.
  intros Hn. unfold epairs. by rewrite !(match_nodes_same _ _ s s' Hn).
Qed.

Lemma merge_relationship_ok s s' edge g :
  ep_GUID edge = Some g → merge_relationship s edge = Ok s' →
  s' = foldl (merge_rel_set (rel_type_of edge) g
                (edge_props g (default "" (ep_fromGUID edge))
                   (default "" (ep_toGUID edge)) edge))
             s (epairs s edge)
  ∧ nodes s' = nodes s.
Proof.
  intros Hg. unfold merge_relationship. rewrite Hg.
  destruct (negb _ || negb _) eqn:Hmiss; [done|]. intros [= <-].
  split; [done|].
  by destruct (merge_rels_abs (rel_type_of edge) g _ (epairs s edge) s
                 (edge_props_guid g (default "" (ep_fromGUID edge))
                    (default "" (ep_toGUID edge)) edge)) as (_ & ? & _).
Qed.

Lemma merge_relationship_settles s s' edge g :
  ep_GUID edge = Some g → merge_relationship s edge = Ok s' →
  edge_settled edge g s'.
Proof.
  intros Hg Hm. destruct (merge_relationship_ok s s' edge g Hg Hm) as [-> Hn].
  intros ab Hab. rewrite (epairs_same _ _ _ Hn) in Hab.
  apply merge_rels_settle; [apply edge_props_guid|by left].
Qed.

Lemma merge_relationship_other s s' edge g other g' :
  edge_key other ≠ edge_key edge →
  ep_GUID edge = Some g → ep_GUID other = Some g' →
  merge_relationship s other = Ok s' →
  edge_settled edge g s → edge_settled edge g s'.
Proof.
  intros Hne Hg Hg' Hm Hs.
  destruct (merge_relationship_ok s s' other g' Hg' Hm) as [-> Hn].
  intros ab Hab. rewrite (epairs_same _ _ _ Hn) in Hab.
  apply merge_rels_other; [|apply edge_props_guid|by apply Hs].
  intros [= Ht ->]. apply Hne. unfold edge_key. by rewrite Ht, Hg, Hg'.
Qed.

Lemma merge_relationship_fixed s s0 s1 edge g :
  ep_GUID edge = Some g → merge_relationship s0 edge = Ok s1 →
  edge_settled edge g s → merge_relationship s edge = Ok s.
Proof.
  intros Hg Hm Hs. unfold merge_relationship in *. rewrite Hg in *.
  destruct (negb _ || negb _); [done|]. f_equal.
  by apply merge_rels_fixed.
Qed.

Lemma import_edges_keeps edge g rest s :
  ep_GUID edge = Some g →
  (∀ q, q ∈ rest → edge_key q ≠ edge_key edge) →
  edge_settled edge g s →
  edge_settled edge g (fst (import_edges rest s)).
Proof.
  intros Hg. revert s. induction rest as [|q rest IH]; intros s Hother Hs;
    [done|].
  cbn [import_edges].
  destruct (negb (Py.truthy_opt (ep_GUID q))) eqn:Hq; [done|].
  apply truthy_opt_some in Hq as [g' Hg'].
  destruct (merge_relationship s q) as [s'|e] eqn:Hm; [|done].
  apply IH.
  - intros q' Hq'. apply Hother, elem_of_cons. by right.
  - eapply merge_relationship_other; eauto.
    apply Hother, elem_of_cons. by left.
Qed.

Lemma import_edges_fix edges s :
  NoDup (edge_key <$> edges) →
  import_edges edges (fst (import_edges edges s)) = import_edges edges s.
Proof.
  revert s. induction edges as [|p rest IH]; intros s Hnd; [done|].
  rewrite fmap_cons in Hnd. apply NoDup_cons in Hnd as [Hp Hnd].
  cbn [import_edges].
  destruct (negb (Py.truthy_opt (ep_GUID p))) eqn:Hg.
  { cbn [fst import_edges]. by rewrite ?Hg. }
  destruct (merge_relationship s p) as [s'|e] eqn:Hm.
  - cbn [import_edges]. rewrite ?Hg.
    apply truthy_opt_some in Hg as [g Hg].
    rewrite (merge_relationship_fixed _ s s' p g Hg Hm).
    + by apply IH.
    + apply import_edges_keeps; [done| |by eapply merge_relationship_settles].
      intros q Hq Hkq. apply Hp. rewrite <- Hkq.
      by apply list_elem_of_fmap_2.
  - cbn [fst import_edges]. by rewrite ?Hg, ?Hm.
Qed.

End ImportFixpointEdges.

Section ImportFixpointMain.
Import Graph Importer.

Lemma merge_node_with_rels rs s node :
  merge_node (with_rels rs s) node
  = match merge_node s node with
    | Ok s' => Ok (with_rels rs s')
    | Raise e => Raise e
    end.
Proof.
  unfold merge_node. destruct (np_GUID node) as [g|]; [|done].
  unfold guid_taken. cbn [with_rels nodes unique_guid].
  destruct (existsb _ (nodes s)); [done|].
  by destruct (unique_guid s && _).
Qed.

Lemma import_nodes_with_rels rs nodes s :
  import_nodes nodes (with_rels rs s)
  = (with_rels rs (fst (import_nodes nodes s)), snd (import_nodes nodes s)).
Proof.
  revert s. induction nodes as [|p rest IH]; intros s; [done|].
  cbn [import_nodes].
  destruct (negb (Py.truthy_opt (np_GUID p))); [done|].
  rewrite merge_node_with_rels.
  destruct (merge_node s p) as [s'|e]; [apply IH|done].
Qed.

Lemma ensure_constraint_same accepted s :
  unique_guid (ensure_constraint accepted s) = unique_guid s →
  ensure_constraint accepted s = s.
Proof.
  unfold ensure_constraint. destruct (unique_guid s) eqn:Hu; [done|].
  destruct (accepted && _); [|done]. simpl. congruence.
Qed.

(** The constraint statement at the start of a second run finds the
    store as the first run left it. *)
Lemma ensure_constraint_again accepted nodes edges s :
  let sf := fst (main false accepted nodes edges s) in
  ensure_constraint accepted sf = sf.
Proof.
  intros sf. apply ensure_constraint_same.
  destruct (ensure_constraint_abs accepted sf) as (-> & _ & _).
  pose proof (main_abs false accepted nodes edges s) as Habs.
  fold sf in Habs. unfold kmain, abs in Habs. cbn [fst snd] in Habs.
  pose proof (kimport_nodes_prefix
                (kensure accepted (unique_guid s) (nkeys s)) nodes (nkeys s))
    as Hpre.
  destruct (kimport_nodes _ (nkeys s) nodes) as [nks [e|]];
    cbn [fst] in Hpre.
  - assert (unique_guid sf = kensure accepted (unique_guid s) (nkeys s))
      as -> by congruence.
    assert (nkeys sf = nks) as -> by congruence.
    by apply kensure_again.
  - assert (unique_guid sf = kensure accepted (unique_guid s) (nkeys s))
      as -> by congruence.
    assert (nkeys sf = nks) as -> by congruence.
    by apply kensure_again.
Qed.

Lemma with_rels_same s s' :
  nodes s' = nodes s → unique_guid s' = unique_guid s →
  with_rels (rels s') s = s'.
Proof. destruct s, s'. simpl. by intros -> ->. Qed.

(** With distinct identifiers, the second run reproduces the store of
    the first. *)
Lemma main_fix dry_run accepted nodes edges s :
  NoDup (np_GUID <$> nodes) → NoDup (edge_key <$> edges) →
  main dry_run accepted nodes edges
    (fst (main dry_run accepted nodes edges s))
  = main dry_run accepted nodes edges s.
Proof.
  intros Hn He. destruct dry_run; [done|].
  pose proof (ensure_constraint_again accepted nodes edges s) as Hens.
  cbn zeta in Hens. unfold main in *.
  set (s0 := ensure_constraint accepted s) in *.
  pose proof (import_nodes_fix nodes s0 Hn) as Hfix.
  destruct (import_nodes nodes s0) as [s1 [e|]] eqn:Hrun; cbn [fst] in *.
  - by rewrite Hens, Hfix.
  - pose proof (import_edges_fix edges s1 He) as Hfix'.
    destruct (import_edges_abs edges s1) as (_ & Hnodes & Hu).
    destruct (import_edges edges s1) as [s2 r] eqn:Hrun'; cbn [fst] in *.
    rewrite Hens.
    rewrite <- (with_rels_same s1 s2 Hnodes Hu) at 1.
    rewrite import_nodes_with_rels, Hfix. cbn [fst snd].
    by rewrite (with_rels_same s1 s2 Hnodes Hu).
Qed.

End ImportFixpointMain.

(** ** IdempotentImporter: the three properties *)

Section ImporterFacts.
Import Graph Importer.

(** C1, as the script has it: after an import, a second import of the
    same payload ends the same way, creates no node and no relationship,
    and leaves every node with its labels and [GUID] and every
    relationship with its type, end points and [GUID], so the node and
    edge counts are those after the first import; when no node identifier
    and no edge key (type, identifier) occurs twice in the payload, the
    store after the second import is the store after the first. *)
Theorem import_twice_same_counts (dry_run accepted : bool)
    (nodes : list node_payload) (edges : list edge_payload) (s : db) :
  let once := main dry_run accepted nodes edges s in
  let twice := main dry_run accepted nodes edges (fst once) in
  length (Graph.nodes (fst twice)) = length (Graph.nodes (fst once))
  ∧ length (rels (fst twice)) = length (rels (fst once))
  ∧ snd twice = snd once
  ∧ nkeys (fst twice) = nkeys (fst once)
  ∧ rkeys (fst twice) = rkeys (fst once)
  ∧ unique_guid (fst twice) = unique_guid (fst once)
  ∧ (NoDup (np_GUID <$> nodes) → NoDup (edge_key <$> edges) →
     twice = once).
Proof.
  intros once twice.
  pose proof (main_abs dry_run accepted nodes edges s) as H1.
  pose proof (main_abs dry_run accepted nodes edges (fst once)) as H2.
  pose proof (kmain_again dry_run accepted nodes edges (abs s)) as Hagain.
  fold once in H1. fold twice in H2. rewrite H1 in Hagain.
  cbn [fst] in Hagain. rewrite H2 in Hagain.
  unfold abs in Hagain.
  assert (nkeys (fst twice) = nkeys (fst once)) as Hn by congruence.
  assert (rkeys (fst twice) = rkeys (fst once)) as Hr by congruence.
  assert (unique_guid (fst twice) = unique_guid (fst once)) as Hu
    by congruence.
  assert (snd twice = snd once) as He by congruence.
  pose proof (f_equal length Hn) as Hln.
  pose proof (f_equal length Hr) as Hlr.
  unfold nkeys in Hln. unfold rkeys in Hlr.
  rewrite !length_fmap in Hln. rewrite !length_fmap in Hlr.
  repeat (split; [done|]).
  intros Hnodes Hedges. by apply main_fix.
Qed.

Lemma import_twice_same_counts_witness :
  let once := main false false distinct_nodes distinct_edges Graph.empty in
  main false false distinct_nodes distinct_edges (fst once) = once
  ∧ length (Graph.nodes (fst once)) = 2%nat
  ∧ length (rels (fst once)) = 1%nat.
Proof.
  intros once.
  destruct (import_twice_same_counts false false distinct_nodes
              distinct_edges Graph.empty)
    as (_ & _ & _ & _ & _ & _ & Hsame).
  split; [|split; vm_compute; reflexivity].
  apply Hsame; apply (bool_decide_unpack _); vm_compute; exact I.
Defined.

(** Without the constraint, the first import creates two nodes; the
    second import matches both with the first pattern and writes [x] on
    the second node.  A node is created although the identifier is
    already in the store. *)
Lemma import_twice_changes_properties :
  let once := main false false nested_labels [] Graph.empty in
  let twice := main false false nested_labels [] (fst once) in
  snd once = None ∧ snd twice = None
  ∧ length (Graph.nodes (fst once)) = 2%nat
  ∧ prop_of (fst once) 0 "GUID" = Some (str "g")
  ∧ prop_of (fst once) 1 "GUID" = Some (str "g")
  ∧ prop_of (fst once) 1 "x" = None
  ∧ prop_of (fst twice) 1 "x" = Some (PScalar (SInt 1))
  ∧ fst twice ≠ fst once.
Proof.
  intros once twice.
  assert (prop_of (fst once) 1 "x" = None) as Hx1 by (vm_compute; reflexivity).
  assert (prop_of (fst twice) 1 "x" = Some (PScalar (SInt 1))) as Hx2
    by (vm_compute; reflexivity).
  split; [vm_compute; reflexivity|]. split; [vm_compute; reflexivity|].
  split; [vm_compute; reflexivity|]. split; [vm_compute; reflexivity|].
  split; [vm_compute; reflexivity|]. split; [exact Hx1|].
  split; [exact Hx2|].
  intros Heq. rewrite Heq, Hx1 in Hx2. discriminate Hx2.
Qed.

End ImporterFacts.

Section ImporterNodeFacts.
Import Graph Importer.

Lemma kimport_nodes_new u nodes ks :
  ∃ new, fst (kimport_nodes u ks nodes) = ks ++ new
         ∧ Forall (from_payload nodes) new.
Proof.
  revert ks. induction nodes as [|node rest IH]; intros ks.
  - exists []. by rewrite app_nil_r.
  - cbn [kimport_nodes].
    destruct (negb (Py.truthy_opt (np_GUID node))) eqn:Hg.
    { exists []. by rewrite app_nil_r. }
    apply truthy_opt_some in Hg as [g Hg].
    assert (∀ k, from_payload rest k → from_payload (node :: rest) k) as Hmono.
    { intros k (p & g' & Hp & Hg' & ->). exists p, g'.
      split; [apply elem_of_cons; by right|done]. }
    unfold kmerge_node. rewrite Hg.
    destruct (existsb (kmatch (node_labels node) g) ks).
    + destruct (IH ks) as (new & -> & Hnew). exists new. split; [done|].
      eapply Forall_impl; eauto.
    + destruct (u && _).
      { exists []. by rewrite app_nil_r. }
      destruct (IH (ks ++ [(node_labels node, Some (str g))]))
        as (new & -> & Hnew).
      exists ((node_labels node, Some (str g)) :: new).
      rewrite <- app_assoc. split; [done|]. constructor.
      * exists node, g. split; [apply elem_of_cons; by left|done].
      * eapply Forall_impl; eauto.
Qed.

(** C10: the property map sent with the merge holds the payload's
    top-level identifier under [GUID], whatever the payload's own
    property map says; every node the merge writes ends with that
    [GUID] and with the labels of the pattern, every other node is as it
    was, and no node of the store changes its [GUID] or its labels.  Over
    a whole run, the nodes the store had keep labels and [GUID], and
    every node added carries the identifier of a payload node. *)
Theorem merge_node_guid_is_key (s s' : db) (node : node_payload) (g : string) :
  np_GUID node = Some g → merge_node s node = Ok s' →
  node_props g node !! "GUID" = Some (str g)
  ∧ merge_targets s node g ≠ []
  ∧ (∀ i, i ∈ merge_targets s node g →
       ∃ n', Graph.nodes s' !! i = Some n'
             ∧ node_labels node ⊆ n_labels n'
             ∧ n_props n' !! "GUID" = Some (str g))
  ∧ (∀ i, i ∉ merge_targets s node g →
       Graph.nodes s' !! i = Graph.nodes s !! i)
  ∧ (∀ i n, Graph.nodes s !! i = Some n →
       ∃ n', Graph.nodes s' !! i = Some n' ∧ node_key n' = node_key n)
  ∧ (∀ dry_run accepted nodes edges s0,
       ∃ new,
         nkeys (fst (main dry_run accepted nodes edges s0)) = nkeys s0 ++ new
         ∧ Forall (from_payload nodes) new).
Proof.
  intros Hg Hm.
  destruct (merge_node_written s s' node g Hg Hm)
    as (Hr & Hu & Hne & Hw & Ho).
  split; [apply node_props_guid|]. split; [done|]. split.
  { intros i Hi. destruct (Hw i Hi) as (n' & Hn' & HL & Hp).
    exists n'. split; [done|]. split; [done|].
    rewrite Hp. apply set_props_guid, node_props_guid. }
  split; [done|]. split.
  { intros i n Hn.
    pose proof (merge_node_abs s node) as Habs. rewrite Hm in Habs.
    destruct Habs as (Hk & _). unfold kmerge_node in Hk. rewrite Hg in Hk.
    assert (nkeys s `prefix_of` nkeys s') as [ext Hext].
    { destruct (existsb _ (nkeys s)); [by inversion Hk|].
      destruct (_ && _); [done|]. inversion Hk. by apply prefix_app_r. }
    assert (nkeys s' !! i = Some (node_key n)) as Hi.
    { rewrite Hext. apply lookup_app_l_Some. unfold nkeys.
      by rewrite list_lookup_fmap, Hn. }
    unfold nkeys in Hi. rewrite list_lookup_fmap in Hi.
    destruct (Graph.nodes s' !! i) as [n'|]; [|done].
    exists n'. split; [done|]. simpl in Hi. congruence. }
  intros dry_run accepted nodes edges s0.
  pose proof (main_abs dry_run accepted nodes edges s0) as Habs.
  unfold kmain in Habs. destruct dry_run.
  { inversion Habs as [[Hu' Hn' Hr' He']]. exists [].
    split; [by rewrite app_nil_r|done]. }
  cbn [abs fst snd] in Habs.
  destruct (kimport_nodes_new (kensure accepted (unique_guid s0) (nkeys s0))
              nodes (nkeys s0)) as (new & Hnew & Hall).
  exists new. split; [|done].
  destruct (kimport_nodes _ (nkeys s0) nodes) as [nks [e|]];
    cbn [fst] in Hnew; unfold abs in Habs;
    apply (f_equal (fun x => snd (fst (fst x)))) in Habs;
    cbn [fst snd] in Habs; by rewrite <- Habs.
Qed.

Lemma merge_node_guid_is_key_witness :
  node_props "g1" conflicting !! "GUID" = Some (str "g1")
  ∧ ∃ n', Graph.nodes conflicting_merged !! O = Some n'
          ∧ n_props n' !! "GUID" = Some (str "g1").
Proof.
  assert (np_GUID conflicting = Some "g1") as Hg by reflexivity.
  assert (merge_node Graph.empty conflicting = Ok conflicting_merged) as Hm
    by (vm_compute; reflexivity).
  destruct (merge_node_guid_is_key Graph.empty conflicting_merged
              conflicting "g1" Hg Hm) as (Hp & _ & Hw & _).
  split; [exact Hp|].
  destruct (Hw O) as (n' & Hn' & _ & Hguid).
  { vm_compute. apply list_elem_of_singleton. reflexivity. }
  exists n'. split; [exact Hn' | exact Hguid].
Defined.

End ImporterNodeFacts.

Section ImporterEdgeFacts.
Import Graph Importer.

Lemma merge_relationship_raise (s : db) (edge : edge_payload) (g g' : string) :
  ep_GUID edge = Some g →
  merge_relationship s edge = Raise (EdgeMissingEndpoints g')
  ↔ g' = g ∧ endpoint_missing edge = true.
Proof.
  intros Hg. unfold merge_relationship, endpoint_missing. rewrite Hg.
  destruct (negb _ || negb _).
  - split; [by intros [= ->]|by intros [-> _]].
  - split; [done|by intros [_ ?]].
Qed.

Lemma import_edges_ok (before rest : list edge_payload) (s : db) :
  forallb edge_ok before = true →
  snd (import_edges before s) = None
  ∧ import_edges (before ++ rest) s
    = import_edges rest (fst (import_edges before s)).
Proof.
  revert s. induction before as [|edge before IH]; intros s; [done|].
  cbn [forallb app import_edges]. rewrite andb_true_iff.
  intros [Hok Hall]. unfold edge_ok in Hok.
  apply andb_true_iff in Hok as [Hg Hends].
  rewrite Hg. cbn [negb].
  unfold merge_relationship. destruct (ep_GUID edge) as [g|]; [|done].
  unfold endpoint_missing in Hends.
  destruct (negb _ || negb _); [done|]. by apply IH.
Qed.

Lemma import_edges_endpoint_error (edges : list edge_payload) (s s' : db)
    (g : string) :
  import_edges edges s = (s', Some (EdgeMissingEndpoints g)) →
  ∃ before edge rest,
    edges = before ++ edge :: rest
    ∧ forallb edge_ok before = true
    ∧ ep_GUID edge = Some g ∧ Py.truthy g = true
    ∧ endpoint_missing edge = true
    ∧ s' = fst (import_edges before s).
Proof.
  revert s. induction edges as [|edge edges IH]; intros s; [done|].
  cbn [import_edges].
  destruct (negb (Py.truthy_opt (ep_GUID edge))) eqn:Hg; [done|].
  apply negb_false_iff in Hg.
  destruct (ep_GUID edge) as [g0|] eqn:Hg0; [|done]. simpl in Hg.
  destruct (merge_relationship s edge) as [s1|e] eqn:Hm.
  - intros Hrun. destruct (IH s1 Hrun)
      as (before & edge' & rest & -> & Hok & Hg' & Ht & Hmiss & ->).
    exists (edge :: before), edge', rest. split; [done|].
    assert (endpoint_missing edge = false) as Hends.
    { unfold merge_relationship in Hm. rewrite Hg0 in Hm.
      unfold endpoint_missing. by destruct (negb _ || negb _). }
    split.
    { cbn [forallb]. unfold edge_ok at 1. rewrite Hg0, Hends. simpl.
      by rewrite Hg. }
    repeat (split; [done|]).
    cbn [import_edges]. rewrite Hg0. simpl. by rewrite Hg, Hm.
  - intros [= <- ->].
    apply (merge_relationship_raise s edge g0 g Hg0) in Hm as [-> Hmiss].
    exists [], edge, edges. by repeat split.
Qed.

(** C6, as the script has it: for an edge with a non-empty identifier,
    the merge raises the missing-end-point error naming that identifier
    exactly when [fromGUID] or [toGUID] is absent or empty, whatever the
    store holds, and raises nothing else; the loop then stops with the
    store as the edges before left it, no later edge is read, and the run
    ends with that error; with both end points present the edge is merged
    and the loop goes on.  A loop that ends with this error stopped at
    such an edge. *)
Theorem missing_endpoint_is_fatal (s : db) (edge : edge_payload) (g : string)
    (before rest : list edge_payload) :
  ep_GUID edge = Some g → Py.truthy g = true →
  forallb edge_ok before = true →
  (∀ g', merge_relationship s edge = Raise (EdgeMissingEndpoints g')
         ↔ g' = g ∧ endpoint_missing edge = true)
  ∧ (∀ e, merge_relationship s edge = Raise e → e = EdgeMissingEndpoints g)
  ∧ (endpoint_missing edge = true →
     import_edges (before ++ edge :: rest) s
     = (fst (import_edges before s), Some (EdgeMissingEndpoints g))
     ∧ ∀ accepted nodes,
         snd (import_nodes nodes (ensure_constraint accepted s)) = None →
         snd (main false accepted nodes (before ++ edge :: rest) s)
         = Some (EdgeMissingEndpoints g))
  ∧ (endpoint_missing edge = false →
     ∃ s', merge_relationship (fst (import_edges before s)) edge = Ok s'
           ∧ import_edges (before ++ edge :: rest) s = import_edges rest s')
  ∧ (∀ edges s0 s' g0,
       import_edges edges s0 = (s', Some (EdgeMissingEndpoints g0)) →
       ∃ before0 edge0 rest0,
         edges = before0 ++ edge0 :: rest0
         ∧ forallb edge_ok before0 = true
         ∧ ep_GUID edge0 = Some g0 ∧ Py.truthy g0 = true
         ∧ endpoint_missing edge0 = true
         ∧ s' = fst (import_edges before0 s0)).
Proof.
  intros Hg Ht Hbefore.
  split; [intros g'; by apply merge_relationship_raise|].
  split.
  { intros e. unfold merge_relationship. rewrite Hg.
    destruct (negb _ || negb _); [by intros [= <-]|done]. }
  assert (∀ s1, endpoint_missing edge = true →
            import_edges (before ++ edge :: rest) s1
            = (fst (import_edges before s1), Some (EdgeMissingEndpoints g)))
    as Hstop.
  { intros s1 Hmiss.
    destruct (import_edges_ok before (edge :: rest) s1 Hbefore) as [_ ->].
    cbn [import_edges]. rewrite Hg. simpl. rewrite Ht. simpl.
    unfold merge_relationship. rewrite Hg.
    unfold endpoint_missing in Hmiss. by rewrite Hmiss. }
  split.
  { intros Hmiss. split; [by apply Hstop|].
    intros accepted nodes Hnodes. unfold main.
    destruct (import_nodes nodes (ensure_constraint accepted s))
      as [s1 r] eqn:Hrun. simpl in Hnodes. subst r.
    by rewrite Hstop. }
  split.
  { intros Hmiss.
    destruct (import_edges_ok before (edge :: rest) s Hbefore) as [_ ->].
    cbn [import_edges]. rewrite Hg. simpl. rewrite Ht. simpl.
    unfold merge_relationship. rewrite Hg.
    unfold endpoint_missing in Hmiss. rewrite Hmiss.
    eexists. split; reflexivity. }
  intros edges s0 s' g0. apply import_edges_endpoint_error.
Qed.

Lemma missing_endpoint_is_fatal_witness :
  import_edges [edge_without_target; edge_without_target] Graph.empty
  = (Graph.empty, Some (EdgeMissingEndpoints "e1")).
Proof.
  destruct (missing_endpoint_is_fatal Graph.empty edge_without_target "e1"
              [] [edge_without_target] eq_refl eq_refl eq_refl)
    as (_ & _ & Hstop & _).
  destruct (Hstop eq_refl) as [Hrun _]. exact Hrun.
Defined.

(** Its end point is missing, and the run fails, but with the error of
    the missing identifier. *)
Lemma missing_endpoint_without_identifier :
  endpoint_missing anonymous_edge = true
  ∧ main false false [] [anonymous_edge] Graph.empty
    = (Graph.empty, Some (EdgeMissingGUID anonymous_edge))
  ∧ ∀ g, snd (main false false [] [anonymous_edge] Graph.empty)
         ≠ Some (EdgeMissingEndpoints g).
Proof.
  split; [reflexivity|]. split; [reflexivity|]. intros g. discriminate.
Qed.

End ImporterEdgeFacts.

(** * Further properties *)

(** ** What the batch loaders leave in the store *)

Section BatchStoreFacts.
Import Graph Flatten Loader LoaderNotions.

(** The slices taken at the starts of [range(0, len(l), B)] make up [l]. *)
Lemma range_slices {A} (l : list A) (B : Z) :
  0 < B →
  ∃ starts,
    Py.range 0 (Z.of_nat (length l)) B = Some starts
    ∧ concat ((fun i => Py.slice l i (i + B)) <$> starts) = l.
Proof.
  intros HB. rewrite range_batches by lia. eexists. split; [done|].
  set (c := Z.to_nat (Py.batch_count (Z.of_nat (length l)) B)).
  set (n := Z.to_nat B).
  pose proof (batch_count_ceil (Z.of_nat (length l)) B HB) as Hceil.
  assert (0 ≤ Py.batch_count (Z.of_nat (length l)) B).
  { unfold Py.batch_count. apply Z.div_pos; lia. }
  rewrite <- list_fmap_compose.
  assert ((fun j : nat => Py.slice l (Z.of_nat j * B) (Z.of_nat j * B + B))
            <$> seq 0 c
          = (fun j : nat => take n (drop (j * n) l)) <$> seq 0 c) as Heq.
  { apply list_fmap_ext. intros _ j _. simpl.
    rewrite slice_take_drop by lia. unfold n. do 2 f_equal. lia. }
  etransitivity; [|apply (take_ge l (c * n)); unfold c, n; nia].
  rewrite <- concat_take_drop. f_equal. exact Heq.
Qed.

Lemma range_negative_step (len B : Z) :
  0 ≤ len → B < 0 → Py.range 0 len B = Some [].
Proof.
  intros Hlen HB. unfold Py.range.
  destruct (B =? 0) eqn:H0; [apply Z.eqb_eq in H0; lia|]. f_equal.
  destruct (Z.abs_nat (len - 0)); simpl; [done|].
  destruct (0 <? B) eqn:Hp; [apply Z.ltb_lt in Hp; lia|].
  destruct (len <? 0) eqn:Hl; [apply Z.ltb_lt in Hl; lia|done].
Qed.

Lemma create_nodes_spec (batch : list flat_node) (s : db) :
  nodes (create_nodes batch s) = nodes s ++ (codebase_node <$> batch)
  ∧ rels (create_nodes batch s) = rels s
  ∧ unique_guid (create_nodes batch s) = unique_guid s.
Proof.
  revert s. induction batch as [|n batch IH]; intros s; simpl.
  - by rewrite app_nil_r.
  - destruct (IH (create_node CodebaseNode (node_props n) s))
      as (Hn & Hr & Hu).
    unfold create_nodes in *. rewrite Hn, Hr, Hu. simpl.
    by rewrite <- app_assoc.
Qed.

Lemma load_nodes_fold_store (nodes : list flat_node) (B : Z) (starts : list Z)
    (st : db * list node_line) :
  let st' := foldl (load_nodes_step nodes B) st starts in
  let loaded := concat ((fun i => Py.slice nodes i (i + B)) <$> starts) in
  Graph.nodes (fst st') = Graph.nodes (fst st) ++ (codebase_node <$> loaded)
  ∧ rels (fst st') = rels (fst st)
  ∧ unique_guid (fst st') = unique_guid (fst st)
  ∧ nl_created <$> snd st'
    = (nl_created <$> snd st)
      ++ ((fun i => Z.of_nat (length (Py.slice nodes i (i + B)))) <$> starts).
Proof.
  revert st. induction starts as [|i starts IH]; intros st.
  - simpl. by rewrite !app_nil_r.
  - cbn [foldl]. cbn zeta in *.
    destruct (IH (load_nodes_step nodes B st i)) as (Hn & Hr & Hu & Hc).
    rewrite Hn, Hr, Hu, Hc. unfold load_nodes_step. cbn [fst snd].
    destruct (create_nodes_spec (Py.slice nodes i (i + B)) (fst st))
      as (-> & -> & ->).
    rewrite !fmap_cons, concat_cons, !fmap_app, <- !app_assoc. done.
Qed.

Lemma sum_lengths {A} (ls : list (list A)) :
  foldr Z.add 0 ((fun l => Z.of_nat (length l)) <$> ls)
  = Z.of_nat (length (concat ls)).
Proof.
  induction ls as [|l ls IH]; [done|].
  rewrite fmap_cons, concat_cons, length_app. cbn [foldr]. rewrite IH. lia.
Qed.

Lemma load_nodes_after (nodes : list flat_node) (batch_size : Z)
    (s : db) :
  0 < batch_size →
  ∃ out,
    load_nodes_batch nodes batch_size s = Some out
    ∧ Graph.nodes (db_after out) = Graph.nodes s ++ (codebase_node <$> nodes)
    ∧ rels (db_after out) = rels s
    ∧ unique_guid (db_after out) = unique_guid s
    ∧ sum_counts (nl_created <$> printed out) = Z.of_nat (length nodes).
Proof.
  intros HB. unfold load_nodes_batch.
  destruct (range_slices nodes batch_size HB) as (starts & -> & Hcat).
  eexists. split; [done|]. simpl.
  destruct (load_nodes_fold_store nodes batch_size starts (s, []))
    as (Hn & Hr & Hu & Hc).
  simpl in *. rewrite Hn, Hr, Hu, Hc, Hcat. repeat split; try done.
  unfold sum_counts.
  rewrite (list_fmap_compose (fun i => Py.slice nodes i (i + batch_size))
             (fun l => Z.of_nat (length l))).
  by rewrite sum_lengths, Hcat.
Qed.

(** X1: with a positive batch size,
    [load_nodes_batch] adds to the store one [CodebaseNode] per record, in
    the order of the list and after the nodes already there, whatever the
    batch size; it changes no relationship, and the counts it prints add
    up to the number of records. *)
Theorem load_nodes_batch_appends (nodes : list flat_node) (batch_size : Z)
    (s : db) :
  0 < batch_size →
  ∃ out,
    load_nodes_batch nodes batch_size s = Some out
    ∧ Graph.nodes (db_after out) = Graph.nodes s ++ (codebase_node <$> nodes)
    ∧ rels (db_after out) = rels s
    ∧ unique_guid (db_after out) = unique_guid s
    ∧ sum_counts (nl_created <$> printed out) = Z.of_nat (length nodes).
Proof. apply load_nodes_after. Qed.

End BatchStoreFacts.

Section RelLoaderStoreFacts.
Import Graph Flatten Loader LoaderNotions.

(** X2: a batch size of zero makes both batch
    loaders fail ([range] raises [ValueError]) before anything is sent;
    with a negative one the loop body never runs: no batch is sent, no
    progress line is printed, the store is unchanged. *)
Theorem batch_size_not_positive (nodes : list flat_node)
    (relationships : list contains_rel) (batch_size : Z) (s : db) :
  batch_size ≤ 0 →
  load_nodes_batch nodes batch_size s
  = (if batch_size =? 0 then None else Some (Outcome s [] PyNone))
  ∧ load_relationships_batch relationships batch_size s
    = (if batch_size =? 0 then None else Some (Outcome s [] PyNone)).
Proof.
  intros HB. unfold load_nodes_batch, load_relationships_batch.
  destruct (batch_size =? 0) eqn:H0.
  - apply Z.eqb_eq in H0. subst. done.
  - apply Z.eqb_neq in H0. rewrite !range_negative_step by lia. done.
Qed.

Lemma merge_rel_grows ty a b pat s :
  grows (fun r => r_type r = ty) s (fst (merge_rel ty a b pat s)).
Proof.
  unfold merge_rel. destruct (List.filter _ (rels s)).
  - by apply grows_create_rel.
  - apply grows_refl.
Qed.

Lemma merge_contains_grows (st : db * nat) (r : contains_rel) :
  grows (fun r => r_type r = "CONTAINS") (fst st) (fst (merge_contains st r)).
Proof.
  unfold merge_contains.
  apply (grows_foldl (fun r => r_type r = "CONTAINS")
           (fun (st : db * nat) (ab : nat * nat) =>
              let m := merge_rel "CONTAINS" (fst ab) (snd ab)
                         (<["fromGUID" := str (parent_GUID r)]>
                            {["toGUID" := str (child_GUID r)]}) (fst st) in
              (fst m, (snd st + snd m)%nat))).
  intros st' ab. simpl. apply merge_rel_grows.
Qed.

(** The store part of the loop does not depend on the row count. *)
Lemma merge_contains_store (st : db * nat) (n : nat) (r : contains_rel) :
  fst (merge_contains (fst st, n) r) = fst (merge_contains st r).
Proof.
  unfold merge_contains. cbn [fst].
  generalize (pairs (match_nodes CodebaseNode (by_guid (parent_GUID r)) (fst st))
                (match_nodes CodebaseNode (by_guid (child_GUID r)) (fst st))).
  intros ps. destruct st as [s m]. cbn [fst]. revert s m n.
  induction ps as [|ab ps IH]; intros s m n; [done|]. cbn [foldl fst snd].
  apply IH.
Qed.

Lemma merge_contains_fold_store (rs : list contains_rel) (st : db * nat)
    (n : nat) :
  fst (foldl merge_contains (fst st, n) rs) = fst (foldl merge_contains st rs).
Proof.
  revert st n. induction rs as [|r rs IH]; intros st n; [done|].
  cbn [foldl].
  rewrite <- (IH (merge_contains st r) (snd (merge_contains (fst st, n) r))).
  rewrite <- (merge_contains_store st n r).
  by destruct (merge_contains (fst st, n) r).
Qed.

(** The store after all batches is the store after merging the pairs one
    by one. *)
Lemma load_relationships_store (relationships : list contains_rel) (B : Z)
    (starts : list Z) (st : db * Z * list rel_line) :
  fst (fst (foldl (load_relationships_step relationships B) st starts))
  = fst (foldl merge_contains (fst (fst st), O)
           (concat ((fun i => Py.slice relationships i (i + B)) <$> starts))).
Proof.
  revert st. induction starts as [|i starts IH]; intros st; [done|].
  cbn [foldl]. rewrite IH. rewrite fmap_cons, concat_cons, foldl_app.
  destruct st as [[s total] log]. unfold load_relationships_step at 1.
  unfold run_contains. cbn [fst snd].
  set (st1 := foldl merge_contains (s, O) (Py.slice relationships i (i + B))).
  by rewrite <- (merge_contains_fold_store _ st1 O).
Qed.

End RelLoaderStoreFacts.

(** ** Loading the containment pairs again *)

Section RelLoaderIdempotence.
Import Graph Flatten Loader LoaderNotions.

Lemma elem_of_pairs (xs ys : list nat) (ab : nat * nat) :
  ab ∈ pairs xs ys ↔ fst ab ∈ xs ∧ snd ab ∈ ys.
Proof.
  unfold pairs. rewrite list_elem_of_bind. split.
  - intros (a & Hab & Ha). apply list_elem_of_fmap in Hab as (b & -> & Hb).
    done.
  - intros [Ha Hb]. exists (fst ab). split; [|done].
    apply list_elem_of_fmap. exists (snd ab). by destruct ab.
Qed.

Lemma grows_foldl_in {X A} (P : rel → Prop) (ns : list node)
    (f : db * X → A → db * X) (xs : list A) :
  (∀ st x, x ∈ xs → nodes (fst st) = ns → grows P (fst st) (fst (f st x))) →
  ∀ st, nodes (fst st) = ns → grows P (fst st) (fst (foldl f st xs)).
Proof.
  induction xs as [|x xs IH]; intros Hf st Hst; simpl.
  - apply grows_refl.
  - assert (grows P (fst st) (fst (f st x))) as Hg.
    { apply Hf; [apply elem_of_cons; by left|done]. }
    eapply grows_trans; [exact Hg|]. apply IH.
    + intros st' x' Hx'. apply Hf, elem_of_cons. by right.
    + destruct Hg as [-> _]. done.
Qed.

Lemma merge_contains_new (ns : list node) (r : contains_rel) (st : db * nat) :
  nodes (fst st) = ns →
  grows (contains_of ns r) (fst st) (fst (merge_contains st r)).
Proof.
  intros Hns. unfold merge_contains.
  set (ps := pairs _ _).
  assert (∀ ab, ab ∈ ps →
            (∃ n, ns !! fst ab = Some n
                  ∧ node_matches CodebaseNode (by_guid (parent_GUID r)) n = true)
            ∧ (∃ n, ns !! snd ab = Some n
                    ∧ node_matches CodebaseNode (by_guid (child_GUID r)) n
                      = true)) as Hps.
  { intros ab Hab. apply elem_of_pairs in Hab as [Ha Hb].
    apply elem_of_match_nodes in Ha, Hb. by rewrite Hns in Ha, Hb. }
  clearbody ps. revert Hns.
  apply (grows_foldl_in (contains_of ns r) ns
           (fun (st : db * nat) (ab : nat * nat) =>
              let m := merge_rel "CONTAINS" (fst ab) (snd ab)
                         (<["fromGUID" := str (parent_GUID r)]>
                            {["toGUID" := str (child_GUID r)]}) (fst st) in
              (fst m, (snd st + snd m)%nat)) ps).
  intros st' ab Hab _. cbn [fst]. unfold merge_rel.
  destruct (List.filter _ (rels (fst st'))); [|apply grows_refl].
  apply grows_create_rel. destruct (Hps ab Hab) as [Ha Hb].
  by repeat split.
Qed.

Lemma contains_pattern_created (r : contains_rel) :
  props_match (contains_pattern r) (create_props (contains_pattern r)) = true.
Proof.
  unfold props_match. apply bool_decide_eq_true. intros k v Hkv.
  assert (v ≠ PNull) as Hv.
  { unfold contains_pattern in Hkv.
    apply lookup_insert_Some in Hkv as [[_ <-]|[_ Hkv]]; [done|].
    apply lookup_singleton_Some in Hkv as [_ <-]. done. }
  split; [done|]. unfold create_props. rewrite lookup_set_props, Hkv.
  by destruct v.
Qed.

Lemma existsb_app_l {A} (p : A → bool) (l k : list A) :
  existsb p l = true → existsb p (l ++ k) = true.
Proof. intros Hl. by rewrite existsb_app, Hl. Qed.

Lemma merge_rel_covers (a b : nat) (r : contains_rel) (s : db) :
  existsb (rel_matches "CONTAINS" a b (contains_pattern r))
          (rels (fst (merge_rel "CONTAINS" a b (contains_pattern r) s)))
  = true.
Proof.
  unfold merge_rel.
  destruct (List.filter _ (rels s)) as [|r' hits] eqn:Hf.
  - simpl. rewrite existsb_app. simpl. unfold rel_matches at 2. simpl.
    rewrite contains_pattern_created, !bool_decide_eq_true_2 by done.
    by rewrite orb_true_r.
  - simpl. destruct (existsb _ (rels s)) eqn:Hex; [done|].
    apply filter_nil_existsb in Hex. congruence.
Qed.

Lemma contains_covered_grows P (r : contains_rel) (s s' : db) :
  grows P s s' → contains_covered r s → contains_covered r s'.
Proof.
  intros (Hn & _ & new & Hr & _) Hc ab Hab.
  unfold contains_pairs in Hab.
  rewrite !(match_nodes_same _ _ s s' Hn) in Hab.
  rewrite Hr. apply existsb_app_l. by apply Hc.
Qed.

Lemma merge_contains_covers (st : db * nat) (r : contains_rel) :
  contains_covered r (fst (merge_contains st r)).
Proof.
  intros ab Hab.
  assert (nodes (fst (merge_contains st r)) = nodes (fst st)) as Hn
    by apply merge_contains_grows.
  unfold contains_pairs in Hab.
  rewrite !(match_nodes_same _ _ (fst st) _ Hn) in Hab.
  unfold merge_contains. fold (contains_pattern r).
  set (f := fun (st : db * nat) (ab : nat * nat) =>
              let m := merge_rel "CONTAINS" (fst ab) (snd ab)
                         (contains_pattern r) (fst st) in
              (fst m, (snd st + snd m)%nat)).
  revert Hab. generalize (pairs
    (match_nodes CodebaseNode (by_guid (parent_GUID r)) (fst st))
    (match_nodes CodebaseNode (by_guid (child_GUID r)) (fst st))).
  intros ps. clear Hn. revert st.
  induction ps as [|ab' ps IH]; intros st Hab.
  { by apply elem_of_nil in Hab. }
  cbn [foldl]. apply elem_of_cons in Hab as [->|Hab]; [|by apply IH].
  assert (grows (fun r => r_type r = "CONTAINS") (fst (f st ab'))
            (fst (foldl f (f st ab') ps))) as (_ & _ & new & -> & _).
  { apply (grows_foldl (fun r => r_type r = "CONTAINS") f).
    intros st' x. unfold f. cbn [fst]. apply merge_rel_grows. }
  apply existsb_app_l. unfold f. cbn [fst]. apply merge_rel_covers.
Qed.

Lemma merge_rel_covered ty a b pat s :
  existsb (rel_matches ty a b pat) (rels s) = true →
  fst (merge_rel ty a b pat s) = s.
Proof.
  intros Hex. unfold merge_rel.
  destruct (List.filter _ (rels s)) as [|r' hits] eqn:Hf; [|done].
  apply filter_nil_existsb in Hf. congruence.
Qed.

Lemma merge_contains_covered (st : db * nat) (r : contains_rel) :
  contains_covered r (fst st) → fst (merge_contains st r) = fst st.
Proof.
  destruct st as [s n]. cbn [fst]. intros Hc.
  unfold merge_contains. fold (contains_pattern r). cbn [fst].
  fold (contains_pairs r s). unfold contains_covered in Hc.
  revert Hc. generalize (contains_pairs r s) as ps. intros ps. revert n.
  induction ps as [|ab ps IH]; intros n Hall; [done|].
  cbn [foldl fst snd].
  rewrite merge_rel_covered by (apply Hall, elem_of_cons; by left).
  apply IH. intros ab' Hin. apply Hall, elem_of_cons. by right.
Qed.

Lemma merge_all_covers (rs : list contains_rel) (st : db * nat) (r : contains_rel) :
  r ∈ rs ∨ contains_covered r (fst st) →
  contains_covered r (fst (foldl merge_contains st rs)).
Proof.
  revert st. induction rs as [|r' rs IH]; intros st.
  - intros [?%elem_of_nil|?]; done.
  - cbn [foldl]. intros Hor. apply IH.
    destruct Hor as [Hin|Hc].
    + apply elem_of_cons in Hin as [->|Hin]; [|by left].
      right. apply merge_contains_covers.
    + right. eapply contains_covered_grows; [apply merge_contains_grows|done].
Qed.

Lemma merge_all_covered (rs : list contains_rel) (st : db * nat) :
  (∀ r, r ∈ rs → contains_covered r (fst st)) →
  fst (foldl merge_contains st rs) = fst st.
Proof.
  revert st. induction rs as [|r rs IH]; intros st Hall; [done|].
  cbn [foldl].
  assert (fst (merge_contains st r) = fst st) as Heq.
  { apply merge_contains_covered, Hall, elem_of_cons. by left. }
  rewrite IH; [done|]. intros r' Hin. rewrite Heq.
  apply Hall, elem_of_cons. by right.
Qed.

Lemma load_relationships_after (relationships : list contains_rel)
    (batch_size : Z) (s : db) :
  0 < batch_size →
  ∃ out,
    load_relationships_batch relationships batch_size s = Some out
    ∧ db_after out = fst (foldl merge_contains (s, O) relationships).
Proof.
  intros HB. unfold load_relationships_batch.
  destruct (range_slices relationships batch_size HB) as (starts & -> & Hcat).
  pose proof (load_relationships_store relationships batch_size starts
                (s, 0, [])) as Hstore.
  destruct (foldl _ (s, 0, []) starts) as [[s' total] log].
  eexists. split; [done|]. cbn [fst db_after] in *. by rewrite Hstore, Hcat.
Qed.

(** X3: [load_relationships_batch] is
    idempotent on the store: loading the same pairs once more, with the
    same or another positive batch size, leaves the store as the first
    call left it. *)
Theorem load_relationships_batch_again (relationships : list contains_rel)
    (batch_size batch_size' : Z) (s : db) :
  0 < batch_size → 0 < batch_size' →
  ∃ out out',
    load_relationships_batch relationships batch_size s = Some out
    ∧ load_relationships_batch relationships batch_size' (db_after out)
      = Some out'
    ∧ db_after out' = db_after out.
Proof.
  intros HB HB'.
  destruct (load_relationships_after relationships batch_size s HB)
    as (out & Hout & Hdb).
  destruct (load_relationships_after relationships batch_size'
              (db_after out) HB') as (out' & Hout' & Hdb').
  exists out, out'. split; [done|]. split; [done|]. rewrite Hdb'.
  apply (merge_all_covered relationships (db_after out, O)).
  intros r Hr. cbn [fst]. rewrite Hdb. apply merge_all_covers. by left.
Qed.

(** X4: [load_relationships_batch]
    only adds relationships: nodes and old relationships stay, and every
    relationship added is a [CONTAINS] carrying [fromGUID] and [toGUID] of
    one of the pairs, from a [CodebaseNode] with the pair's parent
    identifier to a [CodebaseNode] with its child identifier. *)
Theorem load_relationships_batch_creates (relationships : list contains_rel)
    (batch_size : Z) (s : db) :
  0 < batch_size →
  ∃ out,
    load_relationships_batch relationships batch_size s = Some out
    ∧ grows (fun r' => ∃ r, r ∈ relationships ∧ contains_of (nodes s) r r')
            s (db_after out).
Proof.
  intros HB.
  destruct (load_relationships_after relationships batch_size s HB)
    as (out & Hout & Hdb).
  exists out. split; [done|]. rewrite Hdb.
  apply (grows_foldl_in _ (nodes s) merge_contains relationships);
    [|done].
  intros st r Hr Hst.
  eapply grows_weaken; [|by apply merge_contains_new].
  intros r' Hr'. by exists r.
Qed.

End RelLoaderIdempotence.

(** ** A cleared store with the records loaded *)

Section LoadedStoreFacts.
Import Graph Flatten Loader LoaderNotions.

Lemma find_from_app {A} (p : A → bool) (i : nat) (l k : list A) :
  find_from p i (l ++ k) = find_from p i l ++ find_from p (i + length l) k.
Proof.
  revert i. induction l as [|x l IH]; intros i; simpl.
  - by rewrite Nat.add_0_r.
  - rewrite IH. replace (S i + length l)%nat with (i + S (length l))%nat by lia.
    by destruct (p x).
Qed.

Lemma find_from_none {A} (p : A → bool) (i : nat) (l : list A) :
  Forall (fun x => p x = false) l → find_from p i l = [].
Proof.
  intros Hall. revert i. induction Hall as [|x l Hx _ IH]; intros i; simpl;
    [done|]. by rewrite Hx, IH.
Qed.

Lemma find_from_unique {A B} `{EqDecision B} (f : A → B) (i j : nat)
    (l : list A) (x : A) :
  NoDup (f <$> l) → l !! j = Some x →
  find_from (fun y => bool_decide (f y = f x)) i l = [(i + j)%nat].
Proof.
  revert i j. induction l as [|y l IH]; intros i j Hnd Hj; [done|].
  rewrite fmap_cons in Hnd. apply NoDup_cons in Hnd as [Hy Hnd].
  destruct j as [|j]; simpl in *.
  - inversion Hj; subst. rewrite bool_decide_eq_true_2 by done.
    rewrite Nat.add_0_r. f_equal. apply find_from_none, Forall_forall.
    intros z Hz. apply bool_decide_eq_false_2. intros Heq. apply Hy.
    rewrite <- Heq. by apply list_elem_of_fmap_2.
  - rewrite bool_decide_eq_false_2.
    + rewrite (IH (S i) j Hnd Hj). f_equal. lia.
    + intros Heq. apply Hy. rewrite Heq.
      apply list_elem_of_fmap_2. by eapply list_elem_of_lookup_2.
Qed.

Lemma props_match_by_guid g (m : gmap string pval) :
  props_match (by_guid g) m = bool_decide (m !! "GUID" = Some (str g)).
Proof. exact (props_match_guid g m). Qed.

Lemma codebase_node_guid (n : flat_node) :
  n_props (codebase_node n) !! "GUID" = Some (str (GUID n)).
Proof.
  unfold codebase_node, create_props. simpl. rewrite lookup_set_props.
  unfold node_props. simpl. by rewrite lookup_insert_eq.
Qed.

Lemma node_matches_codebase g (n : flat_node) :
  node_matches CodebaseNode (by_guid g) (codebase_node n)
  = bool_decide (GUID n = g).
Proof.
  unfold node_matches. rewrite props_match_by_guid, codebase_node_guid.
  rewrite (bool_decide_eq_true_2 (CodebaseNode ⊆ _)) by done. simpl.
  apply bool_decide_ext. split; [by intros [= ->]|by intros ->].
Qed.

Lemma not_codebase_no_match g (n : node) :
  is_codebase n = false → node_matches CodebaseNode (by_guid g) n = false.
Proof.
  unfold is_codebase, has_label, node_matches, CodebaseNode.
  intros Hn. apply bool_decide_eq_false in Hn.
  rewrite bool_decide_eq_false_2; [done|]. intros Hsub. apply Hn.
  apply Hsub. by apply elem_of_singleton.
Qed.

(** In a cleared store extended by the records [ns], an identifier of
    [ns] is matched by exactly the node made for it. *)
Lemma match_loaded (s : db) (ns : list flat_node) (j : nat) (n : flat_node) :
  Forall (fun n => is_codebase n = false) (nodes s) →
  NoDup (GUID <$> ns) → ns !! j = Some n →
  ∀ s', nodes s' = nodes s ++ (codebase_node <$> ns) →
    match_nodes CodebaseNode (by_guid (GUID n)) s'
    = [(length (nodes s) + j)%nat].
Proof.
  intros Hold Hnd Hj s' Hs'. unfold match_nodes. rewrite Hs', find_from_app.
  rewrite find_from_none, find_from_fmap; simpl.
  - rewrite (find_from_ext _ (fun y => bool_decide (GUID y = GUID n))).
    + by apply find_from_unique.
    + intros y. apply node_matches_codebase.
  - eapply Forall_impl; [exact Hold|]. intros n'. apply not_codebase_no_match.
Qed.

Lemma contains_pattern_inj (r r' : contains_rel) :
  props_match (contains_pattern r) (create_props (contains_pattern r')) = true →
  r = r'.
Proof.
  unfold props_match. rewrite bool_decide_eq_true. intros Hall.
  assert (∀ k x, contains_pattern r !! k = Some x →
                 contains_pattern r' !! k = Some x) as Hsub.
  { intros k x Hk. destruct (Hall k x Hk) as [Hx Hc].
    unfold create_props in Hc. rewrite lookup_set_props in Hc.
    destruct (contains_pattern r' !! k) as [[]|]; simplify_eq; done. }
  pose proof (Hsub "fromGUID" (str (parent_GUID r))) as Hp.
  pose proof (Hsub "toGUID" (str (child_GUID r))) as Hc.
  unfold contains_pattern in Hp, Hc.
  rewrite !lookup_insert_eq in Hp.
  rewrite !lookup_insert_ne, !lookup_singleton_eq in Hc by done.
  specialize (Hp eq_refl). specialize (Hc eq_refl).
  destruct r, r'. simpl in *. by simplify_eq.
Qed.

End LoadedStoreFacts.
Section LoadedRelsFacts.
Import Graph Flatten Loader LoaderNotions.

Lemma pairs_single (a b : nat) : pairs [a] [b] = [(a, b)].
Proof. done. Qed.

(** Merging one more pair, not seen before, whose two identifiers are
    among the loaded records, creates exactly one relationship. *)
Lemma merge_contains_fresh (s : db) (ns : list flat_node)
    (done_ : list contains_rel) (r : contains_rel) (st : db * nat)
    (new : list rel) :
  cleared s → NoDup (GUID <$> ns) →
  nodes (fst st) = nodes s ++ (codebase_node <$> ns) →
  rels (fst st) = rels s ++ new →
  Forall2 (contains_of (nodes (fst st))) done_ new →
  r ∉ done_ →
  parent_GUID r ∈ GUID <$> ns → child_GUID r ∈ GUID <$> ns →
  ∃ r', rels (fst (merge_contains st r)) = rels s ++ new ++ [r']
        ∧ nodes (fst (merge_contains st r)) = nodes (fst st)
        ∧ contains_of (nodes (fst st)) r r'.
Proof.
  intros [Hold Hrels] Hnd Hn Hr Hnew Hfresh Hp Hc.
  apply list_elem_of_fmap in Hp as (np & Hgp & Hp).
  apply list_elem_of_fmap in Hc as (nc & Hgc & Hc).
  apply list_elem_of_lookup in Hp as [jp Hjp].
  apply list_elem_of_lookup in Hc as [jc Hjc].
  pose proof (merge_contains_new (nodes (fst st)) r st eq_refl)
    as (Hn' & _ & added & Hadded & Hall).
  unfold merge_contains in *.
  rewrite Hgp, (match_loaded s ns jp np Hold Hnd Hjp _ Hn) in *.
  rewrite Hgc, (match_loaded s ns jc nc Hold Hnd Hjc _ Hn) in *.
  rewrite pairs_single in *. cbn [foldl fst snd] in *.
  fold (contains_pattern r) in *. rewrite <- Hgp, <- Hgc in *.
  fold (contains_pattern r) in *.
  unfold merge_rel in *.
  destruct (List.filter _ (rels (fst st))) as [|hit hits] eqn:Hf.
  - cbn [fst create_rel rels nodes] in *. rewrite Hr in Hadded.
    apply app_inv_head in Hadded. subst added.
    rewrite Forall_singleton in Hall. eexists.
    split; [by rewrite Hr, <- app_assoc|]. split; [done|]. exact Hall.
  - exfalso.
    assert (hit ∈ List.filter
              (rel_matches "CONTAINS" (length (nodes s) + jp)
                 (length (nodes s) + jc) (contains_pattern r))
              (rels (fst st))) as Hin by (rewrite Hf; apply elem_of_cons; by left).
    apply list_elem_of_In, List.filter_In in Hin as [Hin Hm].
    apply list_elem_of_In in Hin. rewrite Hr in Hin.
    unfold rel_matches in Hm. rewrite !andb_true_iff in Hm.
    destruct Hm as [[[_ Hs] _] Hm]. apply bool_decide_eq_true in Hs.
    apply elem_of_app in Hin as [Hin|Hin].
    + rewrite Forall_forall in Hrels. destruct (Hrels hit Hin). lia.
    + apply list_elem_of_lookup in Hin as [k Hk].
      destruct (Forall2_lookup_r _ _ _ _ _ Hnew Hk) as (r0 & Hr0 & Hof).
      destruct Hof as (_ & Hprops & _). rewrite Hprops in Hm.
      apply contains_pattern_inj in Hm. subst r0.
      apply Hfresh. by eapply list_elem_of_lookup_2.
Qed.

Lemma merge_contains_all (s : db) (ns : list flat_node)
    (rs done_ : list contains_rel) (st : db * nat) (new : list rel) :
  cleared s → NoDup (GUID <$> ns) → NoDup (done_ ++ rs) →
  (∀ r, r ∈ rs → parent_GUID r ∈ GUID <$> ns ∧ child_GUID r ∈ GUID <$> ns) →
  nodes (fst st) = nodes s ++ (codebase_node <$> ns) →
  rels (fst st) = rels s ++ new →
  Forall2 (contains_of (nodes (fst st))) done_ new →
  ∃ new',
    rels (fst (foldl merge_contains st rs)) = rels s ++ new'
    ∧ nodes (fst (foldl merge_contains st rs)) = nodes (fst st)
    ∧ Forall2 (contains_of (nodes (fst st))) (done_ ++ rs) new'.
Proof.
  intros Hs Hnd. revert done_ st new.
  induction rs as [|r rs IH]; intros done_ st new Hnd' Hends Hn Hr Hnew.
  - exists new. by rewrite app_nil_r.
  - cbn [foldl].
    assert (r ∉ done_) as Hfresh.
    { apply NoDup_app in Hnd' as (_ & Hdis & _). intros Hin.
      apply (Hdis r Hin). apply elem_of_cons. by left. }
    destruct (Hends r) as [Hp Hc]; [apply elem_of_cons; by left|].
    destruct (merge_contains_fresh s ns done_ r st new Hs Hnd Hn Hr Hnew
                Hfresh Hp Hc) as (r' & Hr' & Hn' & Hof).
    destruct (IH (done_ ++ [r]) (merge_contains st r) (new ++ [r']))
      as (new' & Hrels & Hnodes & Hall).
    + by rewrite <- app_assoc.
    + intros r0 Hr0. apply Hends, elem_of_cons. by right.
    + by rewrite Hn'.
    + by rewrite Hr', app_assoc.
    + rewrite Hn'. apply Forall2_app; [done|]. by constructor.
    + exists new'. rewrite Hrels, Hnodes, Hn'. split; [done|]. split; [done|].
      rewrite Hn' in Hall. by rewrite <- app_assoc in Hall.
Qed.

End LoadedRelsFacts.

(** ** The counts after a run *)

Section PipelineFacts.
Import Graph Flatten Loader LoaderNotions Pipeline.

Lemma count_app {A} (p : A → bool) (l k : list A) :
  count p (l ++ k) = count p l + count p k.
Proof. unfold count. rewrite List.filter_app, length_app. lia. Qed.

Lemma count_none {A} (p : A → bool) (l : list A) :
  Forall (fun x => p x = false) l → count p l = 0.
Proof.
  unfold count. induction 1 as [|x l Hx _ IH]; simpl; [done|].
  by rewrite Hx.
Qed.

Lemma count_all {A} (p : A → bool) (l : list A) :
  Forall (fun x => p x = true) l → count p l = Z.of_nat (length l).
Proof.
  unfold count. induction 1 as [|x l Hx _ IH]; simpl; [done|].
  rewrite Hx. simpl. lia.
Qed.

Lemma node_matches_is_codebase g (n : node) :
  node_matches CodebaseNode (by_guid g) n = true → is_codebase n = true.
Proof.
  unfold node_matches, is_codebase, has_label, CodebaseNode.
  rewrite andb_true_iff, !bool_decide_eq_true. intros [Hsub _].
  apply Hsub. by apply elem_of_singleton.
Qed.

(** The counts of [verify_load] on a store made of a cleared store, the
    nodes of the records [ns], one [CONTAINS] per pair of [rs] and
    relationships of other types. *)
Lemma loaded_counts (s sF : db) (ns : list flat_node) (rs : list contains_rel)
    (newC newE : list rel) :
  cleared s →
  nodes sF = nodes s ++ (codebase_node <$> ns) →
  rels sF = rels s ++ newC ++ newE →
  Forall2 (contains_of (nodes sF)) rs newC →
  Forall (fun r => r_type r ≠ "CONTAINS") newE →
  node_count (collect_stats sF) = Z.of_nat (length ns)
  ∧ contains_count (collect_stats sF) = Z.of_nat (length rs).
Proof.
  intros [Hold Hrels] Hn Hr HC HE. unfold collect_stats. simpl. split.
  - rewrite Hn, count_app, count_none by done.
    rewrite count_all, length_fmap; [lia|].
    apply Forall_fmap, Forall_true. done.
  - rewrite Hr, !count_app.
    rewrite (count_none _ (rels s)), (count_none _ newE).
    + rewrite count_all; [rewrite <- (Forall2_length _ _ _ HC); lia|].
      apply Forall_forall. intros r' Hr'.
      apply list_elem_of_lookup in Hr' as [k Hk].
      destruct (Forall2_lookup_r _ _ _ _ _ HC Hk)
        as (r & _ & Ht & _ & (n1 & Hn1 & Hm1) & (n2 & Hn2 & Hm2)).
      rewrite Ht, bool_decide_eq_true_2 by done. unfold node_is.
      rewrite Hn1, Hn2. simpl.
      by rewrite (node_matches_is_codebase _ _ Hm1),
        (node_matches_is_codebase _ _ Hm2).
    + eapply Forall_impl; [exact HE|]. intros r' Hr'. simpl in Hr'.
      by rewrite bool_decide_eq_false_2.
    + pose proof (proj1 (Forall_forall _ _) Hrels) as Hrels'.
      pose proof (proj1 (Forall_forall _ _) Hold) as Hold'.
      apply Forall_forall.
      intros r' Hr'. destruct (Hrels' r' Hr') as [Hs _].
      unfold node_is. rewrite Hn, lookup_app_l by done.
      destruct (lookup_lt_is_Some_2 (nodes s) (r_start r') Hs) as [n0 Hn0].
      rewrite Hn0. simpl.
      rewrite (Hold' n0 (list_elem_of_lookup_2 _ _ _ Hn0)).
      by rewrite andb_false_r.
Qed.

End PipelineFacts.
Section PipelineTheorem.
Import Graph Flatten Loader LoaderNotions Pipeline.

Variable clock : nat -> string.

Lemma tree_edges_in_preorder (t : tree_node) (r : contains_rel) :
  r ∈ tree_edges t →
  parent_GUID r ∈ preorder t ∧ child_GUID r ∈ preorder t.
Proof.
  intros Hr. destruct (tree_edges_before t r Hr) as (l1 & l2 & l3 & ->).
  split.
  - apply elem_of_app. right. apply elem_of_cons. by left.
  - apply elem_of_app. right. apply elem_of_cons. right.
    apply elem_of_app. right. apply elem_of_cons. by left.
Qed.

Lemma tree_edges_nodup (t : tree_node) :
  NoDup (preorder t) → NoDup (tree_edges t).
Proof.
  intros Hnd. apply (NoDup_fmap_1 child_GUID).
  rewrite tree_edges_children. rewrite (preorder_head t) in Hnd.
  by apply NoDup_cons in Hnd as [_ ?].
Qed.

(** From a cleared store, the run ends with the counts of the tree. *)
Lemma load_all_verified (tree : tree_node) (edges : list edge) (s : db) :
  well_formed tree → cleared s →
  (∀ e, e ∈ edges → normalize_type (e_type e) ≠ "CONTAINS") →
  ∃ rep st,
    load_all clock tree edges s = Some rep
    ∧ rp_verify rep = [(st, classify st)]
    ∧ node_count st = Z.of_nat (size tree)
    ∧ contains_count st + 1 = Z.of_nat (size tree).
Proof.
  intros [Hok Hnodup] Hs Hedges. unfold load_all, flatten.
  destruct (flatten_nodes_appends clock tree Hok None
              {| nodes_list := []; relationships := []; tick := O |})
    as (st & -> & Hn & Hr & _).
  simpl in Hn, Hr.
  set (ns := nodes_list st) in *. rewrite Hr.
  destruct (load_nodes_after ns 1000 s ltac:(lia))
    as (o1 & -> & Hn1 & Hr1 & Hu1 & _).
  destruct (load_relationships_after (tree_edges tree) 1000 (db_after o1)
              ltac:(lia)) as (o2 & -> & Hdb2).
  destruct (merge_contains_all s ns (tree_edges tree) [] (db_after o1, O) [])
    as (newC & HrC & HnC & HallC).
  { done. }
  { by rewrite Hn. }
  { by apply tree_edges_nodup. }
  { intros r Hr0. rewrite Hn. by apply tree_edges_in_preorder. }
  { done. }
  { cbn [fst]. by rewrite Hr1, app_nil_r. }
  { constructor. }
  rewrite <- Hdb2 in HrC, HnC. cbn [fst] in HnC, HallC. simpl in HallC.
  rewrite load_edges_batch_unfold. cbn zeta. cbn [db_after printed].
  destruct (load_types_spec (group_by_type edges) (db_after o2, []))
    as ((HnE & _ & newE & HrE & HallE) & _).
  cbn [fst] in HnE, HrE.
  set (sF := fst (foldl load_type (db_after o2, []) (group_by_type edges)))
    in *.
  destruct (loaded_counts s sF ns (tree_edges tree) newC newE Hs)
    as [Hcn Hcc].
  { by rewrite HnE, HnC. }
  { by rewrite HrE, HrC, <- app_assoc. }
  { by rewrite HnE, HnC. }
  { eapply Forall_impl; [exact HallE|]. intros r Hr0 Heq. simpl in Hr0.
    rewrite Heq in Hr0.
    apply (proj1 (proj1 (proj2 (group_by_type_spec edges)) _)) in Hr0
      as (e & He & Hty).
    by apply (Hedges e He). }
  eexists _, (collect_stats sF). split; [reflexivity|].
  split; [done|]. split.
  - by rewrite Hcn, <- preorder_length, <- Hn, length_fmap.
  - rewrite Hcc, <- tree_edges_length. lia.
Qed.

End PipelineTheorem.


(** ** Flattening any tree *)

Section FlattenGeneral.
Import Flatten LoaderNotions.

Variable clock : nat -> string.

Lemma keys_ok_unfold g ty nm d p ch :
  keys_ok (TreeNode g ty nm d p ch)
  = bool_decide (is_Some g) && bool_decide (is_Some ty)
    && bool_decide (is_Some nm) && forallb keys_ok ch.
Proof. simpl. f_equal; induction ch; simpl; congruence. Qed.

Lemma with_parent_app (l k : list contains_rel) :
  with_parent (l ++ k) = with_parent l ++ with_parent k.
Proof. apply List.filter_app. Qed.

Lemma flatten_nodes_general (t : tree_node) :
  keys_ok t = true →
  ∀ parent_guid st,
    ∃ st', flatten_nodes clock t parent_guid st = Some st'
           ∧ GUID <$> nodes_list st' = (GUID <$> nodes_list st) ++ preorder t
           ∧ relationships st'
             = relationships st
               ++ with_parent
                    ((if bool_decide (is_Some parent_guid)
                      then [{| parent_GUID := default "" parent_guid;
                               child_GUID := guid_of t |}]
                      else [])
                     ++ tree_edges t).
Proof.
  induction t as [g ty nm d p ch IH] using tree_nested_ind.
  rewrite keys_ok_unfold, !andb_true_iff, !bool_decide_eq_true.
  intros [[[[g' ->] [ty' ->]] [nm' ->]] Hch] parent_guid st.
  rewrite preorder_unfold, tree_edges_unfold. simpl.
  change (fix each (cs : list tree_node) (st0 : acc) {struct cs} : option acc :=
            match cs with
            | [] => Some st0
            | c :: cs' =>
                match flatten_nodes clock c (Some g') st0 with
                | Some st' => each cs' st'
                | None => None
                end
            end) with (flatten_children clock g').
  match goal with |- ∃ st', flatten_children clock g' ch ?st0 = _ ∧ _ =>
    set (st1 := st0) end.
  assert (∀ st0, ∃ st', flatten_children clock g' ch st0 = Some st'
            ∧ GUID <$> nodes_list st'
              = (GUID <$> nodes_list st0) ++ preorder_all ch
            ∧ relationships st'
              = relationships st0 ++ with_parent (edges_all g' ch)) as Hloop.
  { clear st1. induction ch as [|c ch IHch]; intros st0.
    - exists st0. unfold with_parent. simpl. by rewrite !app_nil_r.
    - simpl in Hch. apply andb_true_iff in Hch as [Hc Hch].
      inversion IH as [|? ? IHc IHrest]; subst.
      destruct (IHc Hc (Some g') st0) as (st' & Hrun & Hn & Hr).
      destruct (IHch IHrest Hch st') as (st'' & Hrun' & Hn' & Hr').
      exists st''. simpl. rewrite Hrun. split; [exact Hrun'|].
      rewrite Hn', Hn, Hr', Hr. rewrite <- !app_assoc. split; [done|].
      f_equal. rewrite bool_decide_eq_true_2 by done.
      change (edges_all g' (c :: ch))
        with ([{| parent_GUID := g'; child_GUID := guid_of c |}]
              ++ tree_edges c ++ edges_all g' ch).
      rewrite !with_parent_app. unfold with_parent at 1. simpl.
      destruct (Py.truthy g'); simpl; by rewrite <- ?app_assoc. }
  destruct (Hloop st1) as (st' & Hrun & Hn & Hr).
  exists st'. split; [exact Hrun|].
  rewrite Hn, Hr. unfold st1. simpl.
  rewrite fmap_app. simpl. rewrite <- !app_assoc. simpl.
  split; [done|]. unfold guid_of. simpl.
  rewrite with_parent_app.
  destruct parent_guid as [pg|]; simpl; [|done].
  destruct (Py.truthy pg); simpl; [|done]. by rewrite <- app_assoc.
Qed.

Lemma flatten_children_none g (ch : list tree_node) :
  Forall (fun c => keys_ok c = false →
                   ∀ p st, flatten_nodes clock c p st = None) ch →
  forallb keys_ok ch = false →
  ∀ st, flatten_children clock g ch st = None.
Proof.
  induction 1 as [|c ch Hc _ IH]; intros Hall st; [done|].
  simpl in *. destruct (flatten_nodes clock c (Some g) st) as [st'|] eqn:Hrun;
    [|done].
  destruct (keys_ok c) eqn:Hk.
  - simpl in Hall. by apply IH.
  - by rewrite Hc in Hrun.
Qed.

Lemma flatten_nodes_none (t : tree_node) :
  keys_ok t = false → ∀ p st, flatten_nodes clock t p st = None.
Proof.
  induction t as [g ty nm d p ch IH] using tree_nested_ind.
  rewrite keys_ok_unfold. intros Hk p0 st.
  destruct g as [g|]; [|done]. destruct ty as [ty|]; [|done].
  destruct nm as [nm|]; [|done].
  rewrite !bool_decide_eq_true_2 in Hk by done. simpl in Hk. simpl.
  change (fix each (cs : list tree_node) (st0 : acc) {struct cs} : option acc :=
            match cs with
            | [] => Some st0
            | c :: cs' =>
                match flatten_nodes clock c (Some g) st0 with
                | Some st' => each cs' st'
                | None => None
                end
            end) with (flatten_children clock g).
  by apply flatten_children_none.
Qed.

(** X5: the flattening fails (with [KeyError]) exactly
    when some node of the tree lacks one of the keys ['GUID'], ['type'],
    ['name']; an empty identifier is no error. *)
Theorem flatten_key_error (t : tree_node) :
  flatten clock t = None ↔ keys_ok t = false.
Proof.
  unfold flatten. split.
  - intros Hnone. destruct (keys_ok t) eqn:Hk; [|done].
    destruct (flatten_nodes_general t Hk None
                {| nodes_list := []; relationships := []; tick := O |})
      as (st' & Hrun & _).
    by rewrite Hrun in Hnone.
  - intros Hk. by rewrite flatten_nodes_none.
Qed.

(** X6: when every node has its three keys,
    the flattening returns one record per node in depth-first order, and
    of the parent-child pairs of the tree exactly those whose parent
    identifier is not empty: the children of a node with an empty
    identifier are recorded without a pair. *)
Theorem flatten_drops_empty_parent (t : tree_node) :
  keys_ok t = true →
  ∃ ns rs,
    flatten clock t = Some (ns, rs)
    ∧ GUID <$> ns = preorder t
    ∧ length ns = size t
    ∧ rs = with_parent (tree_edges t)
    ∧ (length rs ≤ length (tree_edges t))%nat.
Proof.
  intros Hk. unfold flatten.
  destruct (flatten_nodes_general t Hk None
              {| nodes_list := []; relationships := []; tick := O |})
    as (st' & -> & Hn & Hr).
  simpl in Hn, Hr. exists (nodes_list st'), (relationships st').
  split; [done|]. split; [done|].
  split; [by rewrite <- preorder_length, <- Hn, length_fmap|].
  split; [done|].
  rewrite Hr. unfold with_parent. apply List.filter_length_le.
Qed.

End FlattenGeneral.


(** ** Clearing the store, and [main] *)

Section ClearingFacts.
Import Graph Flatten Loader LoaderNotions Pipeline.

Lemma new_index_lt (p : node → bool) (ns : list node) (i : nat) (a : node) :
  ns !! i = Some a → p a = false →
  (new_index p ns i < length (List.filter (fun n => negb (p n)) ns))%nat.
Proof.
  intros Hi Ha. unfold new_index.
  rewrite <- (take_drop_middle ns i a Hi) at 2.
  rewrite List.filter_app, length_app. simpl. rewrite Ha. simpl. lia.
Qed.

Lemma codebase_pattern (n : node) :
  node_matches CodebaseNode ∅ n = is_codebase n.
Proof.
  unfold node_matches, is_codebase, has_label, CodebaseNode, props_match.
  rewrite (bool_decide_eq_true_2 (map_Forall _ ∅)) by apply map_Forall_empty.
  rewrite andb_true_r. apply bool_decide_ext. set_solver.
Qed.

Lemma detach_delete_cleared (s : db) : cleared (detach_delete CodebaseNode s).
Proof.
  split; cbn [detach_delete nodes rels].
  - apply Forall_forall. intros n Hn.
    apply list_elem_of_In, List.filter_In in Hn as [_ Hn].
    rewrite codebase_pattern in Hn. by apply negb_true_iff.
  - apply Forall_forall. intros r' Hr'.
    apply list_elem_of_omap in Hr' as (r & _ & Hr). unfold moved in Hr.
    destruct (nodes s !! r_start r) as [a|] eqn:Ha; [|done].
    destruct (nodes s !! r_end r) as [b|] eqn:Hb; [|done].
    destruct (node_matches CodebaseNode ∅ a) eqn:Hpa; [done|].
    destruct (node_matches CodebaseNode ∅ b) eqn:Hpb; [done|].
    simpl in Hr. injection Hr as <-. simpl.
    split; by eapply new_index_lt.
Qed.

End ClearingFacts.

Section MainFacts.
Import Graph Flatten Loader LoaderNotions Pipeline.

Variable clock : nat -> string.

(** X7: on a well-formed tree and edges none of which is of
    type [CONTAINS], [main] succeeds whatever the store held before, and
    the verification it prints counts one node per tree node and one
    [CONTAINS] less than that. *)
Theorem main_counts (tree : tree_node) (data_edges : option (list edge))
    (s : db) :
  well_formed tree →
  (∀ e, e ∈ default [] data_edges → normalize_type (e_type e) ≠ "CONTAINS") →
  ∃ rep st,
    main clock (Some tree) data_edges s = Some rep
    ∧ rp_verify rep = [(st, classify st)]
    ∧ node_count st = Z.of_nat (size tree)
    ∧ contains_count st + 1 = Z.of_nat (size tree).
Proof.
  intros Htree Hedges. unfold main.
  apply load_all_verified; [done|apply detach_delete_cleared|done].
Qed.


End MainFacts.

(** ** The relationships [load_edges_batch] creates *)

Section EdgeStoreFacts.
Import Graph Flatten Loader LoaderNotions EdgeNotions.

Lemma add_rels_nil (s : db) : add_rels [] s = s.
Proof. destruct s. unfold add_rels. simpl. by rewrite app_nil_r. Qed.

Lemma add_rels_app (k l : list rel) (s : db) :
  add_rels l (add_rels k s) = add_rels (k ++ l) s.
Proof. unfold add_rels. simpl. by rewrite app_assoc. Qed.

Lemma edge_rels_same ty s s' e :
  nodes s' = nodes s → edge_rels ty s' e = edge_rels ty s e.
Proof.
  intros Hn. unfold edge_rels.
  by rewrite !(match_nodes_same _ _ s s' Hn).
Qed.

Lemma valid_edges_same es s s' :
  nodes s' = nodes s → valid_edges es s' = valid_edges es s.
Proof. intros Hn. unfold valid_edges. by rewrite (existing_guids_same es s s'). Qed.

Lemma bind_same {A B} (f g : A → list B) (l : list A) :
  (∀ x, f x = g x) → l ≫= f = l ≫= g.
Proof. intros Hfg. induction l as [|x l IH]; [done|]. by rewrite !bind_cons, Hfg, IH. Qed.

Lemma group_rels_same s s' g :
  nodes s' = nodes s → group_rels s' g = group_rels s g.
Proof.
  intros Hn. unfold group_rels. rewrite (valid_edges_same _ s s' Hn).
  apply bind_same. intros e. by apply edge_rels_same.
Qed.

Lemma bind_edge_rels_add ty (new : list rel) (s : db) (l : list edge) :
  l ≫= edge_rels ty (add_rels new s) = l ≫= edge_rels ty s.
Proof. apply bind_same. intros e. by apply edge_rels_same. Qed.

Lemma create_pairs_fold ty (props : gmap string pval) (l : list (nat * nat))
    (st : db * nat) :
  foldl (fun (st : db * nat) (ab : nat * nat) =>
           (create_rel ty (fst ab) (snd ab) props (fst st), S (snd st)))
        st l
  = (add_rels ((fun ab => {| r_type := ty; r_start := fst ab;
                             r_end := snd ab;
                             r_props := create_props props |}) <$> l)
              (fst st),
     (snd st + length l)%nat).
Proof.
  revert st. induction l as [|ab l IH]; intros [s n].
  - simpl. by rewrite add_rels_nil, Nat.add_0_r.
  - cbn [foldl]. rewrite IH. cbn [fst snd]. rewrite fmap_cons.
    change (create_rel ty (fst ab) (snd ab) props s)
      with (add_rels [{| r_type := ty; r_start := fst ab; r_end := snd ab;
                         r_props := create_props props |}] s).
    rewrite add_rels_app. simpl. f_equal. lia.
Qed.

Lemma create_edge_spec ty (st : db * nat) (e : edge) :
  create_edge ty st e
  = (add_rels (edge_rels ty (fst st) e) (fst st),
     (snd st + length (edge_rels ty (fst st) e))%nat).
Proof.
  unfold create_edge. rewrite create_pairs_fold. unfold edge_rels.
  by rewrite length_fmap.
Qed.

Lemma create_edges_fold ty (batch : list edge) (st : db * nat) :
  foldl (create_edge ty) st batch
  = (add_rels (batch ≫= edge_rels ty (fst st)) (fst st),
     (snd st + length (batch ≫= edge_rels ty (fst st)))%nat).
Proof.
  revert st. induction batch as [|e batch IH]; intros [s n].
  - simpl. by rewrite add_rels_nil, Nat.add_0_r.
  - cbn [foldl]. rewrite IH, create_edge_spec. cbn [fst snd].
    rewrite add_rels_app, bind_cons, length_app, bind_edge_rels_add.
    f_equal. lia.
Qed.

Lemma run_create_edges_spec ty (batch : list edge) (s : db) :
  run_create_edges ty batch s
  = (add_rels (batch ≫= edge_rels ty s) s,
     Z.of_nat (length (batch ≫= edge_rels ty s))).
Proof. unfold run_create_edges. by rewrite create_edges_fold. Qed.

Lemma sub_batches_fold ty (valid : list edge) (starts : list Z)
    (st : db * list Z) :
  foldl (fun (st : db * list Z) i =>
           let batch := Py.slice valid i (i + batch_size_edges) in
           let r := run_create_edges ty batch (fst st) in
           (fst r, snd st ++ [snd r]))
        st starts
  = (add_rels (concat ((fun i => Py.slice valid i (i + batch_size_edges))
                       <$> starts) ≫= edge_rels ty (fst st)) (fst st),
     snd st ++ created_counts ty valid (fst st) starts).
Proof.
  revert st. induction starts as [|i starts IH]; intros [s log].
  - simpl. by rewrite add_rels_nil, app_nil_r.
  - cbn [foldl]. cbv zeta. rewrite IH, run_create_edges_spec. cbn [fst snd].
    rewrite add_rels_app, fmap_cons, concat_cons, bind_app.
    rewrite bind_edge_rels_add.
    unfold created_counts. rewrite fmap_cons, <- app_assoc.
    reflexivity.
Qed.

Lemma sum_counts_created ty (valid : list edge) (s : db) (starts : list Z) :
  concat ((fun i => Py.slice valid i (i + batch_size_edges)) <$> starts)
  = valid →
  sum_counts (created_counts ty valid s starts)
  = Z.of_nat (length (valid ≫= edge_rels ty s)).
Proof.
  intros Hcat. rewrite <- Hcat at 2. clear Hcat. unfold created_counts.
  induction starts as [|i starts IH]; [done|].
  rewrite !fmap_cons, concat_cons, bind_app, length_app. simpl. rewrite IH.
  lia.
Qed.


Lemma type_report_of_same s s' g :
  nodes s' = nodes s → type_report_of s' g = type_report_of s g.
Proof.
  intros Hn. unfold type_report_of. rewrite (valid_edges_same _ s s' Hn).
  f_equal. unfold created_counts. apply list_fmap_ext. intros _ i _.
  f_equal. f_equal. apply bind_same. intros e. by apply edge_rels_same.
Qed.

Lemma load_type_store (st : db * list type_report) (g : string * list edge) :
  load_type st g
  = (add_rels (group_rels (fst st) g) (fst st),
     snd st ++ [type_report_of (fst st) g]).
Proof.
  destruct st as [s log], g as [ty es]. unfold load_type.
  rewrite sub_batches_fold. cbn [fst snd].
  destruct (range_slices (valid_edges es s) batch_size_edges)
    as (starts & Hstarts & Hcat); [done|].
  unfold valid_edges in Hstarts, Hcat. rewrite Hstarts in *. simpl.
  unfold group_rels, type_report_of, valid_edges. cbn [fst snd].
  by rewrite Hcat, Hstarts.
Qed.

Lemma load_types_store (groups : list (string * list edge))
    (st : db * list type_report) :
  foldl load_type st groups
  = (add_rels (groups ≫= group_rels (fst st)) (fst st),
     snd st ++ (type_report_of (fst st) <$> groups)).
Proof.
  revert st. induction groups as [|g groups IH]; intros [s log].
  - simpl. by rewrite add_rels_nil, app_nil_r.
  - cbn [foldl]. rewrite IH, load_type_store. cbn [fst snd].
    rewrite add_rels_app, bind_cons, fmap_cons, <- app_assoc.
    f_equal.
Qed.

Lemma load_edges_batch_store (edges : list edge) (s : db) :
  load_edges_batch edges s
  = Outcome (add_rels (new_edges edges s) s)
            (type_report_of s <$> group_by_type edges) PyNone.
Proof.
  rewrite load_edges_batch_unfold. cbv zeta. by rewrite load_types_store.
Qed.

Lemma length_pairs (xs ys : list nat) :
  length (pairs xs ys) = (length xs * length ys)%nat.
Proof.
  unfold pairs. induction xs as [|x xs IH]; [done|].
  rewrite bind_cons, length_app, length_fmap, IH. simpl. lia.
Qed.

Lemma valid_edge_matched (es : list edge) (s : db) (e : edge) :
  e ∈ valid_edges es s →
  match_nodes CodebaseNode (by_guid (e_source e)) s ≠ []
  ∧ match_nodes CodebaseNode (by_guid (e_target e)) s ≠ [].
Proof.
  unfold valid_edges. rewrite elem_of_filter_list. intros [_ Hv].
  unfold valid_edge in Hv.
  apply andb_true_iff in Hv as [Hs Ht].
  apply bool_decide_eq_true in Hs, Ht. unfold existing_guids in Hs, Ht.
  apply elem_of_filter in Hs as [Hs _], Ht as [Ht _]. done.
Qed.

Lemma edge_rels_some ty (es : list edge) (s : db) (e : edge) :
  e ∈ valid_edges es s → (1 ≤ length (edge_rels ty s e))%nat.
Proof.
  intros [Hs Ht]%valid_edge_matched. unfold edge_rels.
  rewrite length_fmap, length_pairs.
  destruct (match_nodes _ (by_guid (e_source e)) s); [done|].
  destruct (match_nodes _ (by_guid (e_target e)) s); [done|]. simpl. lia.
Qed.

Lemma edge_rels_one ty (es : list edge) (s : db) (e : edge) :
  guids_distinct s → e ∈ valid_edges es s →
  length (edge_rels ty s e) = 1%nat.
Proof.
  intros Hd [Hs Ht]%valid_edge_matched. unfold edge_rels.
  rewrite length_fmap, length_pairs.
  pose proof (Hd (e_source e)) as Hs1. pose proof (Hd (e_target e)) as Ht1.
  destruct (match_nodes _ (by_guid (e_source e)) s) as [|a [|]]; [done| |simpl in *; lia].
  destruct (match_nodes _ (by_guid (e_target e)) s) as [|b [|]]; [done| |simpl in *; lia].
  done.
Qed.

Lemma length_bind_ge {A B} (f : A → list B) (l : list A) :
  (∀ x, x ∈ l → (1 ≤ length (f x))%nat) → (length l ≤ length (l ≫= f))%nat.
Proof.
  induction l as [|x l IH]; intros Hf; [done|].
  rewrite bind_cons, length_app. simpl.
  pose proof (Hf x ltac:(by left)).
  pose proof (IH (fun y Hy => Hf y ltac:(by right))). lia.
Qed.

Lemma length_bind_one {A B} (f : A → list B) (l : list A) :
  (∀ x, x ∈ l → length (f x) = 1%nat) → length (l ≫= f) = length l.
Proof.
  induction l as [|x l IH]; intros Hf; [done|].
  rewrite bind_cons, length_app. simpl.
  rewrite (Hf x ltac:(by left)), (IH (fun y Hy => Hf y ltac:(by right))). lia.
Qed.

Lemma report_created (s : db) (g : string * list edge) :
  sum_counts (tr_created (type_report_of s g))
  = Z.of_nat (length (group_rels s g)).
Proof.
  unfold type_report_of, group_rels. cbn [tr_created].
  destruct (range_slices (valid_edges (snd g) s) batch_size_edges)
    as (starts & -> & Hcat); [done|]. simpl.
  by apply sum_counts_created.
Qed.

End EdgeStoreFacts.

Section EdgeLoaderTheorems.
Import Graph Flatten Loader LoaderNotions EdgeNotions Pipeline.

Lemma new_edges_same edges s s' :
  nodes s' = nodes s → new_edges edges s' = new_edges edges s.
Proof.
  intros Hn. unfold new_edges. apply bind_same. intros g.
  by apply group_rels_same.
Qed.

Lemma reports_same edges s s' :
  nodes s' = nodes s →
  type_report_of s' <$> group_by_type edges
  = type_report_of s <$> group_by_type edges.
Proof.
  intros Hn. apply list_fmap_ext. intros _ g _. by apply type_report_of_same.
Qed.

(** X9: [load_edges_batch] is not
    idempotent: it appends the relationships it creates, and a second
    call with the same edges prints the same report and appends the same
    relationships once more. *)
Theorem load_edges_batch_duplicates (edges : list edge) (s : db) :
  let once := load_edges_batch edges s in
  let twice := load_edges_batch edges (db_after once) in
  nodes (db_after twice) = nodes s
  ∧ rels (db_after once) = rels s ++ new_edges edges s
  ∧ rels (db_after twice) = rels s ++ new_edges edges s ++ new_edges edges s
  ∧ printed twice = printed once.
Proof.
  intros once twice. unfold twice, once.
  rewrite !load_edges_batch_store. cbn [db_after printed].
  rewrite (new_edges_same edges s (add_rels (new_edges edges s) s)) by done.
  rewrite (reports_same edges s (add_rels (new_edges edges s) s)) by done.
  cbn [add_rels nodes rels]. by rewrite <- app_assoc.
Qed.

(** X10: for every edge type, the store
    creates at least as many relationships as there are valid edges: the
    number [load_edges_batch] prints as created is a lower bound. *)
Theorem load_edges_batch_at_least_valid (edges : list edge) (s : db) :
  Forall (fun rep => Z.of_nat (length (tr_valid rep))
                     ≤ sum_counts (tr_created rep))
         (printed (load_edges_batch edges s)).
Proof.
  rewrite load_edges_batch_store. cbn [printed]. apply Forall_forall.
  intros rep (g & -> & Hg)%list_elem_of_fmap.
  rewrite report_created. unfold group_rels, type_report_of. cbn [tr_valid].
  apply inj_le, length_bind_ge. intros e He. by eapply edge_rels_some.
Qed.

Lemma length_new_edges (s : db) (groups : list (string * list edge)) :
  guids_distinct s →
  length (groups ≫= group_rels s)
  = length ((type_report_of s <$> groups) ≫= tr_valid).
Proof.
  intros Hd. induction groups as [|g groups IH]; [done|].
  rewrite fmap_cons, !bind_cons, !length_app, IH. f_equal.
  unfold group_rels, type_report_of. cbn [tr_valid].
  apply length_bind_one. intros e He. by eapply edge_rels_one.
Qed.

Lemma load_edges_batch_exact (edges : list edge) (s : db) :
  guids_distinct s →
  let out := load_edges_batch edges s in
  (∀ rep, rep ∈ printed out →
     sum_counts (tr_created rep) = Z.of_nat (length (tr_valid rep)))
  ∧ length (rels (db_after out))
    = (length (rels s) + length (printed out ≫= tr_valid))%nat.
Proof.
  intros Hd out. unfold out. rewrite load_edges_batch_store.
  cbn [printed db_after add_rels rels]. split.
  - intros rep (g & -> & Hg)%list_elem_of_fmap.
    rewrite report_created. unfold group_rels, type_report_of.
    cbn [tr_valid]. f_equal.
    apply length_bind_one. intros e He. by eapply edge_rels_one.
  - rewrite length_app. unfold new_edges. by rewrite length_new_edges.
Qed.

(** X11: when no two [CodebaseNode]s share a
    [GUID], the store creates exactly one relationship per valid edge:
    for every type the counts returned add up to the number printed, and
    the store grows by the number of valid edges. *)
Theorem load_edges_batch_created (edges : list edge) (s : db) :
  guids_distinct s →
  let out := load_edges_batch edges s in
  (∀ rep, rep ∈ printed out →
     sum_counts (tr_created rep) = Z.of_nat (length (tr_valid rep)))
  ∧ length (rels (db_after out))
    = (length (rels s) + length (printed out ≫= tr_valid))%nat.
Proof. apply load_edges_batch_exact. Qed.

End EdgeLoaderTheorems.

(** ** The edges of a run *)

Section PipelineEdges.
Import Graph Flatten Loader LoaderNotions EdgeNotions Pipeline.

Variable clock : nat -> string.

Lemma find_from_nil {A} (p : A → bool) (i : nat) (l : list A) :
  find_from p i l = [] ↔ Forall (fun x => p x = false) l.
Proof.
  split; [|apply find_from_none].
  revert i. induction l as [|x l IH]; intros i; simpl; [constructor|].
  destruct (p x) eqn:Hx; [done|]. intros Hnil. constructor; [done|].
  by apply (IH (S i)).
Qed.

Lemma find_from_at_most_one {A B} `{EqDecision B} (f : A → B) (b : B)
    (i : nat) (l : list A) :
  NoDup (f <$> l) →
  (length (find_from (fun y => bool_decide (f y = b)) i l) ≤ 1)%nat.
Proof.
  revert i. induction l as [|x l IH]; intros i Hnd; simpl; [lia|].
  rewrite fmap_cons in Hnd. apply NoDup_cons in Hnd as [Hx Hnd].
  case_bool_decide as Hb; [|by apply IH].
  rewrite find_from_none; [simpl; lia|].
  apply Forall_forall. intros z Hz. apply bool_decide_eq_false_2.
  intros Heq. apply Hx. rewrite Hb, <- Heq. by apply list_elem_of_fmap_2.
Qed.

(** In a cleared store extended by the records [ns], the nodes matched
    for an identifier are the records of [ns] that carry it. *)
Lemma match_in_loaded (s s' : db) (ns : list flat_node) (g : string) :
  Forall (fun n => is_codebase n = false) (nodes s) →
  nodes s' = nodes s ++ (codebase_node <$> ns) →
  match_nodes CodebaseNode (by_guid g) s'
  = find_from (fun y => bool_decide (GUID y = g)) (length (nodes s)) ns.
Proof.
  intros Hold Hs'. unfold match_nodes. rewrite Hs', find_from_app.
  rewrite find_from_none, find_from_fmap; simpl.
  - apply find_from_ext. intros y. apply node_matches_codebase.
  - eapply Forall_impl; [exact Hold|]. intros n'. apply not_codebase_no_match.
Qed.

Lemma guid_exists_loaded (s s' : db) (ns : list flat_node) (g : string) :
  Forall (fun n => is_codebase n = false) (nodes s) →
  nodes s' = nodes s ++ (codebase_node <$> ns) →
  guid_exists s' g ↔ g ∈ GUID <$> ns.
Proof.
  intros Hold Hs'. unfold guid_exists.
  rewrite (match_in_loaded s s' ns g Hold Hs'), find_from_nil.
  rewrite Forall_forall. split.
  - intros Hno. destruct (decide (g ∈ GUID <$> ns)) as [|Hout]; [done|].
    exfalso. apply Hno. intros y Hy. apply bool_decide_eq_false_2.
    intros <-. apply Hout. by apply list_elem_of_fmap_2.
  - intros (y & -> & Hy)%list_elem_of_fmap Hall.
    specialize (Hall y Hy). by rewrite bool_decide_eq_true_2 in Hall.
Qed.

Lemma guids_distinct_loaded (s s' : db) (ns : list flat_node) :
  Forall (fun n => is_codebase n = false) (nodes s) →
  nodes s' = nodes s ++ (codebase_node <$> ns) →
  NoDup (GUID <$> ns) → guids_distinct s'.
Proof.
  intros Hold Hs' Hnd g. rewrite (match_in_loaded s s' ns g Hold Hs').
  by apply find_from_at_most_one.
Qed.

(** The store in which [load_all] loads the edges. *)
Lemma load_all_edges (tree : tree_node) (edges : list edge) (s : db) :
  fields_ok tree = true →
  ∃ rep ns s2,
    load_all clock tree edges s = Some rep
    ∧ GUID <$> ns = preorder tree
    ∧ nodes s2 = nodes s ++ (codebase_node <$> ns)
    ∧ rp_edges rep = printed (load_edges_batch edges s2)
    ∧ rp_db rep = db_after (load_edges_batch edges s2).
Proof.
  intros Hok. unfold load_all, flatten.
  destruct (flatten_nodes_appends clock tree Hok None
              {| nodes_list := []; relationships := []; tick := O |})
    as (st & -> & Hn & _).
  simpl in Hn.
  destruct (load_nodes_after (nodes_list st) 1000 s ltac:(lia))
    as (o1 & -> & Hn1 & _).
  destruct (load_relationships_after (relationships st) 1000 (db_after o1)
              ltac:(lia)) as (o2 & -> & Hdb2).
  eexists _, (nodes_list st), (db_after o2).
  split; [reflexivity|]. split; [done|]. split; [|done].
  rewrite Hdb2, <- Hn1.
  apply (grows_foldl (fun r => r_type r = "CONTAINS") merge_contains
           merge_contains_grows (relationships st) (db_after o1, O)).
Qed.

(** X12: in a run of [main] on a well-formed tree, the
    edges loaded for a type are the edges of that type whose source and
    target are identifiers of tree nodes, whatever the store held before,
    and exactly one relationship is created for each. *)
Theorem main_edges_loaded (tree : tree_node)
    (data_edges : option (list edge)) (s : db) :
  well_formed tree →
  ∃ rep,
    main clock (Some tree) data_edges s = Some rep
    ∧ ∀ r, r ∈ rp_edges rep →
        tr_valid r
        = List.filter (fun e => has_type (tr_type r) e
                                && bool_decide (e_source e ∈ preorder tree)
                                && bool_decide (e_target e ∈ preorder tree))
                      (default [] data_edges)
        ∧ sum_counts (tr_created r) = Z.of_nat (length (tr_valid r)).
Proof.
  intros [Hok Hnd]. unfold main.
  set (edges := default [] data_edges).
  set (s0 := detach_delete CodebaseNode s).
  destruct (load_all_edges tree edges s0 Hok)
    as (rep & ns & s2 & -> & Hns & Hs2 & Hedges & _).
  destruct (detach_delete_cleared s) as [Hold _]. fold s0 in Hold.
  exists rep. split; [done|]. intros r Hr. rewrite Hedges in Hr.
  split.
  - rewrite load_edges_batch_store in Hr. cbn [printed] in Hr.
    apply list_elem_of_fmap in Hr as ([k es] & -> & Hg).
    destruct (group_by_type_spec edges) as (_ & _ & Hgroups).
    pose proof (Hgroups k es Hg) as Hes.
    unfold type_report_of, valid_edges. cbn [tr_valid tr_type fst snd].
    rewrite (filter_ext_elem _ (endpoints_exist s2) es)
      by (intros e He; by apply valid_edge_existing).
    rewrite Hes, filter_filter_list.
    apply filter_ext_elem. intros e _. rewrite <- andb_assoc. f_equal.
    unfold endpoints_exist. rewrite <- Hns.
    f_equal; apply bool_decide_ext; by apply (guid_exists_loaded s0).
  - apply (load_edges_batch_exact edges s2); [|done].
    apply (guids_distinct_loaded s0 s2 ns); [done|done|by rewrite Hns].
Qed.

End PipelineEdges.

(** ** The verdict of a run *)

Section VerdictFacts.
Import Graph Flatten Loader LoaderNotions VerdictNotions.

Variable clock : nat -> string.

Lemma labelled_unfold g ty nm d p ch :
  labelled (TreeNode g ty nm d p ch)
  = (default "" g, default "" nm) :: labelled_all ch.
Proof. simpl. f_equal; induction ch; simpl; congruence. Qed.

Lemma named_children_unfold K g ty nm d p ch :
  named_children K (TreeNode g ty nm d p ch)
  = ((if bool_decide (default "" nm = K) then length ch else O)
     + named_children_all K ch)%nat.
Proof. simpl. f_equal; induction ch; simpl; congruence. Qed.

Lemma fields_ok_keys (t : tree_node) : fields_ok t = true → keys_ok t = true.
Proof.
  induction t as [g ty nm d p ch IH] using tree_nested_ind.
  rewrite fields_ok_unfold, keys_ok_unfold, !andb_true_iff.
  intros [[[Hg Hty] Hnm] Hch]. repeat split; try done.
  - apply bool_decide_eq_true. by destruct g.
  - unfold fields_all in Hch. clear -IH Hch.
    induction IH as [|c ch Hc _ IHch]; simpl in *; [done|].
    apply andb_true_iff in Hch as [? ?]. apply andb_true_iff. auto.
Qed.

Lemma flatten_nodes_labelled (t : tree_node) :
  keys_ok t = true →
  ∀ parent_guid st,
    ∃ st', flatten_nodes clock t parent_guid st = Some st'
           ∧ record_label <$> nodes_list st'
             = (record_label <$> nodes_list st) ++ labelled t.
Proof.
  induction t as [g ty nm d p ch IH] using tree_nested_ind.
  rewrite keys_ok_unfold, !andb_true_iff, !bool_decide_eq_true.
  intros [[[[g' ->] [ty' ->]] [nm' ->]] Hch] parent_guid st.
  rewrite labelled_unfold. simpl.
  change (fix each (cs : list tree_node) (st0 : acc) {struct cs} : option acc :=
            match cs with
            | [] => Some st0
            | c :: cs' =>
                match flatten_nodes clock c (Some g') st0 with
                | Some st' => each cs' st'
                | None => None
                end
            end) with (flatten_children clock g').
  match goal with |- ∃ st', flatten_children clock g' ch ?st0 = _ ∧ _ =>
    set (st1 := st0) end.
  assert (∀ st0, ∃ st', flatten_children clock g' ch st0 = Some st'
            ∧ record_label <$> nodes_list st'
              = (record_label <$> nodes_list st0) ++ labelled_all ch)
    as Hloop.
  { clear st1. induction ch as [|c ch IHch]; intros st0.
    - exists st0. simpl. by rewrite app_nil_r.
    - simpl in Hch. apply andb_true_iff in Hch as [Hc Hch].
      inversion IH as [|? ? IHc IHrest]; subst.
      destruct (IHc Hc (Some g') st0) as (st' & Hrun & Hn).
      destruct (IHch IHrest Hch st') as (st'' & Hrun' & Hn').
      exists st''. simpl. rewrite Hrun. split; [exact Hrun'|].
      by rewrite Hn', Hn, <- app_assoc. }
  destruct (Hloop st1) as (st' & Hrun & Hn).
  exists st'. split; [exact Hrun|].
  rewrite Hn. unfold st1. simpl. rewrite fmap_app. simpl.
  by rewrite <- app_assoc.
Qed.

Lemma NoDup_fmap_agree {A B} (f : A → B) (l : list A) (x y : A) :
  NoDup (f <$> l) → x ∈ l → y ∈ l → f x = f y → x = y.
Proof.
  induction l as [|z l IH]; intros Hnd Hx Hy Hf.
  { by apply elem_of_nil in Hx. }
  rewrite fmap_cons in Hnd. apply NoDup_cons in Hnd as [Hz Hnd].
  apply elem_of_cons in Hx as [->|Hx], Hy as [->|Hy].
  - done.
  - exfalso. apply Hz. rewrite Hf. by apply list_elem_of_fmap_2.
  - exfalso. apply Hz. rewrite <- Hf. by apply list_elem_of_fmap_2.
  - by apply IH.
Qed.

Lemma parent_named_own (N : list (string * string)) (K g nm c : string) :
  NoDup (fst <$> N) → (g, nm) ∈ N →
  parent_named N K {| parent_GUID := g; child_GUID := c |}
  = bool_decide (nm = K).
Proof.
  intros Hnd Hin. unfold parent_named. simpl. apply bool_decide_ext. split.
  - intros HK.
    by injection (NoDup_fmap_agree fst N (g, K) (g, nm) Hnd HK Hin eq_refl).
  - by intros <-.
Qed.

(** Among the pairs of a tree, those whose parent is named [K]. *)
Lemma named_edges_count (N : list (string * string)) (K : string)
    (t : tree_node) :
  NoDup (fst <$> N) → (∀ x, x ∈ labelled t → x ∈ N) →
  length (List.filter (parent_named N K) (tree_edges t))
  = named_children K t.
Proof.
  intros Hnd. induction t as [g ty nm d p ch IH] using tree_nested_ind.
  rewrite labelled_unfold, tree_edges_unfold, named_children_unfold.
  intros Hsub.
  assert ((default "" g, default "" nm) ∈ N) as Hroot
    by (apply Hsub; by left).
  assert (∀ x, x ∈ labelled_all ch → x ∈ N) as Hch
    by (intros x Hx; apply Hsub; by right).
  clear Hsub. generalize dependent (default "" g). intros g' Hroot.
  induction IH as [|c ch Hc _ IHch]; simpl.
  { by destruct (bool_decide _). }
  rewrite (parent_named_own N K g' (default "" nm)) by done.
  assert (∀ x, x ∈ labelled c → x ∈ N) as Hsubc
    by (intros x Hx; apply Hch; simpl; apply elem_of_app; by left).
  assert (∀ x, x ∈ labelled_all ch → x ∈ N) as Hsubch
    by (intros x Hx; apply Hch; simpl; apply elem_of_app; by right).
  specialize (IHch Hsubch). specialize (Hc Hsubc).
  destruct (bool_decide (default "" nm = K)); simpl;
    rewrite List.filter_app, length_app, Hc, IHch; lia.
Qed.

Lemma filter_length_pointwise {A B} (p : A → bool) (q : B → bool)
    (l : list A) (k : list B) :
  Forall2 (fun a b => p a = q b) l k →
  length (List.filter p l) = length (List.filter q k).
Proof.
  induction 1 as [|a b l k Hab _ IH]; simpl; [done|].
  rewrite Hab. destruct (q b); simpl; by rewrite IH.
Qed.

Lemma codebase_node_name (n : flat_node) :
  n_props (codebase_node n) !! "name" = Some (str (name n)).
Proof.
  unfold codebase_node, create_props. simpl. rewrite lookup_set_props.
  unfold node_props. simpl.
  by rewrite lookup_insert_ne, lookup_insert_eq.
Qed.

Lemma node_matches_named K (n : flat_node) :
  node_matches CodebaseNode (by_name K) (codebase_node n)
  = bool_decide (name n = K).
Proof.
  unfold node_matches, props_match, by_name.
  rewrite (bool_decide_eq_true_2 (CodebaseNode ⊆ _)) by done.
  rewrite andb_true_l.
  apply bool_decide_ext. rewrite map_Forall_singleton, codebase_node_name.
  split; [by intros [_ [= ->]]|by intros ->].
Qed.

Lemma not_codebase_unmatched pat (n : node) :
  is_codebase n = false → node_matches CodebaseNode pat n = false.
Proof.
  unfold is_codebase, has_label, node_matches, CodebaseNode.
  intros Hn. apply bool_decide_eq_false in Hn.
  rewrite bool_decide_eq_false_2; [done|]. intros Hsub. apply Hn.
  apply Hsub. by apply elem_of_singleton.
Qed.

(** What the count of the children of Kalisi sees of a relationship made
    for a pair. *)
Lemma named_start (s sF : db) (ns : list flat_node) (K : string)
    (r : contains_rel) (r' : rel) :
  Forall (fun n => is_codebase n = false) (nodes s) →
  nodes sF = nodes s ++ (codebase_node <$> ns) →
  NoDup (GUID <$> ns) →
  contains_of (nodes sF) r r' →
  bool_decide (r_type r' = "CONTAINS")
  && node_is (node_matches CodebaseNode (by_name K)) sF (r_start r')
  && node_is (fun _ => true) sF (r_end r')
  = parent_named (record_label <$> ns) K r.
Proof.
  intros Hold Hn Hnd (Ht & _ & (n1 & Hn1 & Hm1) & (n2 & Hn2 & _)).
  rewrite Ht, bool_decide_eq_true_2 by done. unfold node_is.
  rewrite Hn2, Hn1. simpl. rewrite andb_true_r.
  rewrite Hn in Hn1. apply lookup_app_Some in Hn1 as [Hn1|[_ Hn1]].
  { apply list_elem_of_lookup_2 in Hn1.
    rewrite (not_codebase_no_match _ n1) in Hm1; [done|].
    by apply (proj1 (Forall_forall _ _) Hold). }
  apply list_lookup_fmap_Some in Hn1 as (rec & -> & Hrec).
  apply list_elem_of_lookup_2 in Hrec.
  rewrite node_matches_codebase in Hm1. apply bool_decide_eq_true in Hm1.
  rewrite node_matches_named. unfold parent_named. apply bool_decide_ext.
  rewrite <- Hm1. split.
  - intros <-. by apply (list_elem_of_fmap_2 record_label).
  - intros (rec' & Heq & Hrec')%list_elem_of_fmap.
    injection Heq as Hg Hk.
    by rewrite (NoDup_fmap_agree GUID ns rec rec' Hnd Hrec Hrec' Hg).
Qed.

Lemma kalisi_children_loaded (s sF : db) (ns : list flat_node)
    (rs : list contains_rel) (newC newE : list rel) :
  cleared s →
  nodes sF = nodes s ++ (codebase_node <$> ns) →
  rels sF = rels s ++ newC ++ newE →
  NoDup (GUID <$> ns) →
  Forall2 (contains_of (nodes sF)) rs newC →
  Forall (fun r => r_type r ≠ "CONTAINS") newE →
  kalisi_children (collect_stats sF)
  = Z.of_nat (length (List.filter
                        (parent_named (record_label <$> ns) "Kalisi") rs)).
Proof.
  intros [Hold Hrels] Hn Hr Hnd HC HE. unfold collect_stats.
  cbn [kalisi_children]. rewrite Hr, !count_app.
  rewrite (count_none _ (rels s)), (count_none _ newE).
  - unfold count. f_equal.
    rewrite (filter_length_pointwise
               (parent_named (record_label <$> ns) "Kalisi")
               (fun r' => bool_decide (r_type r' = "CONTAINS")
                          && node_is (node_matches CodebaseNode
                                        {["name" := str "Kalisi"]}) sF
                               (r_start r')
                          && node_is (fun _ => true) sF (r_end r'))
               rs newC); [lia|].
    eapply Forall2_impl; [exact HC|]. intros r r' Hof. symmetry.
    by apply (named_start s sF ns "Kalisi").
  - eapply Forall_impl; [exact HE|]. intros r' Hr'. simpl in Hr'.
    by rewrite bool_decide_eq_false_2.
  - pose proof (proj1 (Forall_forall _ _) Hrels) as Hrels'.
    pose proof (proj1 (Forall_forall _ _) Hold) as Hold'.
    apply Forall_forall.
    intros r' Hr'. destruct (Hrels' r' Hr') as [Hs _].
    unfold node_is. rewrite Hn, lookup_app_l by done.
    destruct (lookup_lt_is_Some_2 (nodes s) (r_start r') Hs) as [n0 Hn0].
    rewrite Hn0. simpl.
    rewrite (not_codebase_unmatched _ n0
               (Hold' n0 (list_elem_of_lookup_2 _ _ _ Hn0))).
    by rewrite andb_false_r.
Qed.

(** The store a run leaves, from a cleared store. *)
Lemma load_all_structure (tree : tree_node) (edges : list edge) (s : db) :
  well_formed tree → cleared s →
  (∀ e, e ∈ edges → normalize_type (e_type e) ≠ "CONTAINS") →
  ∃ rep ns newC newE,
    Pipeline.load_all clock tree edges s = Some rep
    ∧ Pipeline.rp_verify rep
      = [(collect_stats (Pipeline.rp_db rep),
          classify (collect_stats (Pipeline.rp_db rep)))]
    ∧ record_label <$> ns = labelled tree
    ∧ GUID <$> ns = preorder tree
    ∧ nodes (Pipeline.rp_db rep) = nodes s ++ (codebase_node <$> ns)
    ∧ rels (Pipeline.rp_db rep) = rels s ++ newC ++ newE
    ∧ Forall2 (contains_of (nodes (Pipeline.rp_db rep))) (tree_edges tree) newC
    ∧ Forall (fun r => r_type r ≠ "CONTAINS") newE.
Proof.
  intros [Hok Hnodup] Hs Hedges. unfold Pipeline.load_all, flatten.
  destruct (flatten_nodes_appends clock tree Hok None
              {| nodes_list := []; relationships := []; tick := O |})
    as (st & Hrun & Hn & Hr & _).
  destruct (flatten_nodes_labelled tree (fields_ok_keys tree Hok) None
              {| nodes_list := []; relationships := []; tick := O |})
    as (st_ & Hrun_ & Hlab).
  rewrite Hrun in Hrun_. injection Hrun_ as <-. rewrite Hrun.
  simpl in Hn, Hr, Hlab.
  set (ns := nodes_list st) in *. rewrite Hr.
  destruct (load_nodes_after ns 1000 s ltac:(lia))
    as (o1 & -> & Hn1 & Hr1 & Hu1 & _).
  destruct (load_relationships_after (tree_edges tree) 1000 (db_after o1)
              ltac:(lia)) as (o2 & -> & Hdb2).
  destruct (merge_contains_all s ns (tree_edges tree) [] (db_after o1, O) [])
    as (newC & HrC & HnC & HallC).
  { done. }
  { by rewrite Hn. }
  { by apply tree_edges_nodup. }
  { intros r Hr0. rewrite Hn. by apply tree_edges_in_preorder. }
  { done. }
  { cbn [fst]. by rewrite Hr1, app_nil_r. }
  { constructor. }
  rewrite <- Hdb2 in HrC, HnC. cbn [fst] in HnC, HallC. simpl in HallC.
  rewrite load_edges_batch_unfold. cbn zeta. cbn [db_after printed].
  destruct (load_types_spec (group_by_type edges) (db_after o2, []))
    as ((HnE & _ & newE & HrE & HallE) & _).
  cbn [fst] in HnE, HrE.
  set (sF := fst (foldl load_type (db_after o2, []) (group_by_type edges)))
    in *.
  eexists _, ns, newC, newE. split; [reflexivity|].
  cbn [Pipeline.rp_verify Pipeline.rp_db verify_load printed db_after].
  split; [done|]. split; [done|]. split; [done|].
  split; [by rewrite HnE, HnC|].
  split; [by rewrite HrE, HrC, <- app_assoc|].
  split; [by rewrite HnE, HnC|].
  eapply Forall_impl; [exact HallE|]. intros r Hr0 Heq. simpl in Hr0.
  rewrite Heq in Hr0.
  apply (proj1 (proj1 (proj2 (group_by_type_spec edges)) _)) in Hr0
    as (e & He & Hty).
  by apply (Hedges e He).
Qed.

Lemma labelled_fst (t : tree_node) : fst <$> labelled t = preorder t.
Proof.
  induction t as [g ty nm d p ch IH] using tree_nested_ind.
  rewrite labelled_unfold, preorder_unfold, fmap_cons. simpl. f_equal.
  induction IH as [|c ch Hc _ IHch]; simpl; [done|].
  by rewrite fmap_app, Hc, IHch.
Qed.

(** X13: in a run of [main] on a well-formed tree and edges
    none of which is of type [CONTAINS], the number reported as children
    of Kalisi is the number of children of the tree nodes named Kalisi,
    and the load is reported as perfect exactly when the tree has 6943
    nodes and those nodes have 22 children, whatever the store held
    before and whatever the other edges are. *)
Theorem main_verdict (tree : tree_node) (data_edges : option (list edge))
    (s : db) :
  well_formed tree →
  (∀ e, e ∈ default [] data_edges → normalize_type (e_type e) ≠ "CONTAINS") →
  ∃ rep st,
    Pipeline.main clock (Some tree) data_edges s = Some rep
    ∧ Pipeline.rp_verify rep = [(st, classify st)]
    ∧ kalisi_children st = Z.of_nat (named_children "Kalisi" tree)
    ∧ (complete (classify st) = true
       ↔ Z.of_nat (size tree) = 6943
         ∧ Z.of_nat (named_children "Kalisi" tree) = 22).
Proof.
  intros Htree Hedges. unfold Pipeline.main.
  pose proof (detach_delete_cleared s) as Hs.
  set (s0 := Pipeline.detach_delete CodebaseNode s) in *.
  destruct (load_all_structure tree (default [] data_edges) s0 Htree Hs
              Hedges)
    as (rep & ns & newC & newE & Hrun & Hv & Hlab & Hg & Hn & Hr & HC & HE).
  destruct Htree as [Hok Hnd].
  destruct (loaded_counts s0 (Pipeline.rp_db rep) ns (tree_edges tree)
              newC newE Hs Hn Hr HC HE) as [Hcn Hcc].
  assert (kalisi_children (collect_stats (Pipeline.rp_db rep))
          = Z.of_nat (named_children "Kalisi" tree)) as Hk.
  { rewrite (kalisi_children_loaded s0 (Pipeline.rp_db rep) ns
               (tree_edges tree) newC newE Hs Hn Hr) by (by rewrite ?Hg).
    rewrite Hlab, named_edges_count; [done| |done].
    by rewrite labelled_fst. }
  exists rep, (collect_stats (Pipeline.rp_db rep)).
  split; [done|]. split; [done|]. split; [done|].
  assert (Z.of_nat (length ns) = Z.of_nat (size tree)) as Hsize
    by (by rewrite <- preorder_length, <- Hg, length_fmap).
  pose proof (tree_edges_length tree) as Hel.
  unfold complete, classify, perfect.
  rewrite Hcn, Hcc, Hk.
  destruct (_ && _ && _) eqn:Hp.
  - split; [intros _|done].
    apply andb_true_iff in Hp as [[H1 H2]%andb_true_iff H3].
    apply Z.eqb_eq in H1, H2, H3. lia.
  - split; [done|]. intros [H1 H2]. exfalso.
    rewrite !andb_false_iff, !Z.eqb_neq in Hp. lia.
Qed.

End VerdictFacts.

Lemma main_verdict_witness :
  ∃ rep st,
    Pipeline.main Flatten.fixed_clock (Some VerdictNotions.kalisi_tree)
      (Some [Loader.tab_edge]) Loader.two_nodes = Some rep
    ∧ Pipeline.rp_verify rep = [(st, Loader.classify st)]
    ∧ Loader.kalisi_children st = 2.
Proof.
  destruct (main_verdict Flatten.fixed_clock VerdictNotions.kalisi_tree
              (Some [Loader.tab_edge]) Loader.two_nodes)
    as (rep & st & Hrun & Hv & Hk & _).
  - split; [reflexivity|]. simpl.
    repeat (apply NoDup_cons; split;
            [rewrite ?elem_of_cons, elem_of_nil; intros H;
             repeat destruct H as [H|H]; done|]).
    apply NoDup_nil_2.
  - intros e ->%list_elem_of_singleton. discriminate.
  - exists rep, st. split; [exact Hrun|]. split; [exact Hv|]. exact Hk.
Defined.

(** ** The edge counts of a run *)

Section EdgeCountFacts.
Import Graph Flatten Loader LoaderNotions EdgeNotions Pipeline CountNotions.

Variable clock : nat -> string.

(** A relationship made for a valid edge is counted under its type. *)
Lemma edge_rel_counted (ty T : string) (s sF : db) (e : edge) (r : rel) :
  nodes sF = nodes s → r ∈ edge_rels ty s e →
  counted T sF r = bool_decide (ty = T).
Proof.
  intros Hn. unfold edge_rels.
  intros (ab & -> & [Ha Hb]%elem_of_pairs)%list_elem_of_fmap.
  apply elem_of_match_nodes in Ha as (na & Hna & Hma).
  apply elem_of_match_nodes in Hb as (nb & Hnb & _).
  unfold counted, node_is. cbn [r_type r_start r_end].
  rewrite Hn, Hna, Hnb. simpl.
  by rewrite (node_matches_is_codebase _ _ Hma), !andb_true_r.
Qed.

Lemma count_group (T : string) (s sF : db) (g : string * list edge) :
  guids_distinct s → nodes sF = nodes s →
  count (counted T sF) (group_rels s g)
  = if bool_decide (fst g = T)
    then Z.of_nat (length (valid_edges (snd g) s)) else 0.
Proof.
  intros Hd Hn.
  assert (∀ r, r ∈ group_rels s g →
               counted T sF r = bool_decide (fst g = T)) as Hall.
  { unfold group_rels. intros r (e & Hr & He)%list_elem_of_bind.
    by apply (edge_rel_counted _ _ s sF e). }
  case_bool_decide as HT.
  - rewrite count_all.
    + f_equal. unfold group_rels. apply length_bind_one.
      intros e He. by eapply edge_rels_one.
    + apply Forall_forall. intros r Hr. by apply Hall.
  - apply count_none, Forall_forall. intros r Hr. by apply Hall.
Qed.

Lemma count_groups (T : string) (s sF : db)
    (groups : list (string * list edge)) :
  guids_distinct s → nodes sF = nodes s →
  count (counted T sF) (groups ≫= group_rels s)
  = Z.of_nat (length (reported_valid T (type_report_of s <$> groups))).
Proof.
  intros Hd Hn. unfold reported_valid.
  induction groups as [|g groups IH]; [done|].
  rewrite bind_cons, count_app, IH, (count_group T s sF g Hd Hn).
  rewrite fmap_cons. cbn [List.filter]. unfold type_report_of at 2.
  cbn [tr_type]. destruct (bool_decide (fst g = T)); [|lia].
  rewrite bind_cons, length_app.
  change (tr_valid (type_report_of s g)) with (valid_edges (snd g) s). lia.
Qed.

(** The store a run leaves, with the relationships of its two steps. *)
Lemma load_all_rels (tree : tree_node) (edges : list edge) (s : db) :
  fields_ok tree = true →
  ∃ rep ns newC,
    load_all clock tree edges s = Some rep
    ∧ rp_verify rep
      = [(collect_stats (rp_db rep), classify (collect_stats (rp_db rep)))]
    ∧ GUID <$> ns = preorder tree
    ∧ nodes (rp_db rep) = nodes s ++ (codebase_node <$> ns)
    ∧ rels (rp_db rep) = rels s ++ newC ++ new_edges edges (rp_db rep)
    ∧ Forall (fun r => r_type r = "CONTAINS") newC
    ∧ rp_edges rep = type_report_of (rp_db rep) <$> group_by_type edges.
Proof.
  intros Hok. unfold load_all, flatten.
  destruct (flatten_nodes_appends clock tree Hok None
              {| nodes_list := []; relationships := []; tick := O |})
    as (st & -> & Hn & _).
  simpl in Hn.
  destruct (load_nodes_after (nodes_list st) 1000 s ltac:(lia))
    as (o1 & -> & Hn1 & Hr1 & _).
  destruct (load_relationships_after (relationships st) 1000 (db_after o1)
              ltac:(lia)) as (o2 & -> & Hdb2).
  destruct (grows_foldl (fun r => r_type r = "CONTAINS") merge_contains
              merge_contains_grows (relationships st) (db_after o1, O))
    as (Hn2 & _ & newC & Hr2 & HC).
  rewrite <- Hdb2 in Hn2, Hr2. cbn [fst] in Hn2, Hr2.
  rewrite load_edges_batch_store.
  set (s2 := db_after o2) in *.
  set (sF := add_rels (new_edges edges s2) s2).
  assert (nodes sF = nodes s2) as HnF by done.
  eexists _, (nodes_list st), newC. split; [reflexivity|].
  cbn [rp_verify rp_db rp_edges verify_load printed db_after]. fold sF.
  split; [done|]. split; [done|].
  split; [by rewrite HnF, Hn2, Hn1|].
  split.
  { rewrite (new_edges_same edges s2 sF HnF). unfold sF at 1.
    cbn [add_rels rels]. by rewrite Hr2, Hr1, <- app_assoc. }
  split; [done|].
  apply list_fmap_ext. intros _ g _. symmetry.
  by apply type_report_of_same.
Qed.

(** X14: in a run of [main] on a well-formed tree, the
    numbers [verify_load] prints for [IMPORTS] and [DEPENDS_ON] are the
    numbers of valid edges [load_edges_batch] reported for these types,
    whatever the store held before. *)
Theorem main_edge_counts (tree : tree_node)
    (data_edges : option (list edge)) (s : db) :
  well_formed tree →
  ∃ rep st,
    main clock (Some tree) data_edges s = Some rep
    ∧ rp_verify rep = [(st, classify st)]
    ∧ imports_count st
      = Z.of_nat (length (reported_valid "IMPORTS" (rp_edges rep)))
    ∧ depends_count st
      = Z.of_nat (length (reported_valid "DEPENDS_ON" (rp_edges rep))).
Proof.
  intros [Hok Hnd]. unfold main.
  set (edges := default [] data_edges).
  destruct (detach_delete_cleared s) as [Hold Hrels].
  set (s0 := detach_delete CodebaseNode s) in *.
  destruct (load_all_rels tree edges s0 Hok)
    as (rep & ns & newC & -> & Hv & Hg & Hn & Hr & HC & He).
  set (sF := rp_db rep) in *.
  assert (guids_distinct sF) as Hd
    by (apply (guids_distinct_loaded s0 sF ns); [done|done|by rewrite Hg]).
  assert (∀ T, T ≠ "CONTAINS" →
            count (counted T sF) (rels sF)
            = Z.of_nat (length (reported_valid T (rp_edges rep)))) as Hcount.
  { intros T HT. rewrite Hr, !count_app, He.
    rewrite (count_none _ (rels s0)), (count_none _ newC).
    - unfold new_edges. by rewrite count_groups.
    - eapply Forall_impl; [exact HC|]. intros r Hty. unfold counted.
      rewrite Hty, bool_decide_eq_false_2; [done|congruence].
    - pose proof (proj1 (Forall_forall _ _) Hrels) as Hrels'.
      pose proof (proj1 (Forall_forall _ _) Hold) as Hold'.
      apply Forall_forall. intros r Hr0.
      destruct (Hrels' r Hr0) as [Hs _]. unfold counted, node_is.
      rewrite Hn, lookup_app_l by done.
      destruct (lookup_lt_is_Some_2 (nodes s0) (r_start r) Hs) as [n0 Hn0].
      rewrite Hn0. simpl.
      rewrite (Hold' n0 (list_elem_of_lookup_2 _ _ _ Hn0)).
      by rewrite andb_false_r. }
  exists rep, (collect_stats sF). split; [done|]. split; [done|].
  split; [exact (Hcount "IMPORTS" ltac:(done))
         |exact (Hcount "DEPENDS_ON" ltac:(done))].
Qed.

End EdgeCountFacts.

Lemma main_edge_counts_witness :
  ∃ rep st,
    Pipeline.main Flatten.fixed_clock (Some Flatten.sample_tree)
      (Some CountNotions.sample_edges) Loader.two_nodes = Some rep
    ∧ Pipeline.rp_verify rep = [(st, Loader.classify st)]
    ∧ Loader.imports_count st = 2
    ∧ Loader.depends_count st = 1.
Proof.
  destruct (main_edge_counts Flatten.fixed_clock Flatten.sample_tree
              (Some CountNotions.sample_edges) Loader.two_nodes
              sample_tree_well_formed)
    as (rep & st & Hrun & Hv & Hi & Hd).
  exists rep, st. split; [exact Hrun|]. split; [exact Hv|].
  assert ((fun r => (length (CountNotions.reported_valid "IMPORTS"
                               (Pipeline.rp_edges r)),
                     length (CountNotions.reported_valid "DEPENDS_ON"
                               (Pipeline.rp_edges r))))
            <$> Pipeline.main Flatten.fixed_clock (Some Flatten.sample_tree)
                  (Some CountNotions.sample_edges) Loader.two_nodes
          = Some (2, 1)%nat) as Hnum by (vm_compute; reflexivity).
  rewrite Hrun in Hnum. simpl in Hnum. injection Hnum as H1 H2.
  split; [rewrite Hi, H1 | rewrite Hd, H2]; reflexivity.
Defined.

(** ** Instances *)

Section LoaderInstances.
Import Graph Flatten Loader LoaderNotions EdgeNotions Pipeline.

Lemma load_nodes_batch_appends_witness :
  ∃ out,
    load_nodes_batch (sample_flat_node <$> ["a"; "b"; "c"]) 2 two_nodes
    = Some out
    ∧ length (Graph.nodes (db_after out)) = 5%nat
    ∧ rels (db_after out) = [].
Proof.
  destruct (load_nodes_batch_appends (sample_flat_node <$> ["a"; "b"; "c"])
              2 two_nodes ltac:(lia)) as (out & Hout & Hn & Hr & _).
  exists out. split; [exact Hout|]. split; [|exact Hr].
  rewrite Hn. reflexivity.
Defined.

Lemma batch_size_not_positive_witness :
  load_nodes_batch (sample_flat_node <$> ["a"]) 0 two_nodes = None
  ∧ load_relationships_batch one_rel (-5) two_nodes
    = Some (Outcome two_nodes [] PyNone).
Proof.
  split.
  - exact (proj1 (batch_size_not_positive (sample_flat_node <$> ["a"])
                    one_rel 0 two_nodes ltac:(lia))).
  - exact (proj2 (batch_size_not_positive [] one_rel (-5) two_nodes
                    ltac:(lia))).
Defined.

Lemma load_relationships_batch_again_witness :
  ∃ out out',
    load_relationships_batch one_rel 1000 two_nodes = Some out
    ∧ load_relationships_batch one_rel 1 (db_after out) = Some out'
    ∧ db_after out' = db_after out.
Proof.
  exact (load_relationships_batch_again one_rel 1000 1 two_nodes
           ltac:(lia) ltac:(lia)).
Defined.

Lemma load_relationships_batch_creates_witness :
  ∃ out,
    load_relationships_batch one_rel 1000 two_nodes = Some out
    ∧ grows (fun r' => ∃ r, r ∈ one_rel
                            ∧ contains_of (Graph.nodes two_nodes) r r')
            two_nodes (db_after out).
Proof.
  exact (load_relationships_batch_creates one_rel 1000 two_nodes ltac:(lia)).
Defined.

Lemma flatten_drops_empty_parent_witness :
  ∃ ns rs,
    flatten fixed_clock empty_root = Some (ns, rs)
    ∧ GUID <$> ns = [""; "A"; "B"]
    ∧ rs = [{| parent_GUID := "A"; child_GUID := "B" |}].
Proof.
  destruct (flatten_drops_empty_parent fixed_clock empty_root eq_refl)
    as (ns & rs & Hrun & Hns & _ & Hrs & _).
  exists ns, rs. split; [exact Hrun|]. split; [exact Hns | exact Hrs].
Defined.

Lemma main_counts_witness :
  ∃ rep st,
    main fixed_clock (Some sample_tree) (Some [tab_edge]) two_nodes = Some rep
    ∧ rp_verify rep = [(st, classify st)]
    ∧ node_count st = 4
    ∧ contains_count st = 3.
Proof.
  destruct (main_counts fixed_clock sample_tree (Some [tab_edge]) two_nodes
              sample_tree_well_formed)
    as (rep & st & Hrun & Hv & Hn & Hc).
  { intros e ->%list_elem_of_singleton. discriminate. }
  exists rep, st. split; [exact Hrun|]. split; [exact Hv|].
  split; [exact Hn|]. simpl in Hc. lia.
Defined.

Lemma two_nodes_distinct : guids_distinct two_nodes.
Proof.
  apply (guids_distinct_loaded Graph.empty two_nodes
           [sample_flat_node "R"; sample_flat_node "A"]).
  - constructor.
  - reflexivity.
  - apply (bool_decide_unpack _). vm_compute. exact I.
Defined.

Lemma load_edges_batch_created_witness :
  length (rels (db_after (load_edges_batch [sample_edge; tab_edge] two_nodes)))
  = 1%nat.
Proof.
  destruct (load_edges_batch_created [sample_edge; tab_edge] two_nodes
              two_nodes_distinct) as [_ Hlen].
  rewrite Hlen. vm_compute. reflexivity.
Defined.

Lemma main_edges_loaded_witness :
  ∃ rep,
    main fixed_clock (Some sample_tree) (Some [sample_edge; tab_edge])
         two_nodes = Some rep
    ∧ ∀ r, r ∈ rp_edges rep →
        sum_counts (tr_created r) = Z.of_nat (length (tr_valid r)).
Proof.
  destruct (main_edges_loaded fixed_clock sample_tree
              (Some [sample_edge; tab_edge]) two_nodes
              sample_tree_well_formed) as (rep & Hrun & Hall).
  exists rep. split; [exact Hrun|]. intros r Hr.
  exact (proj2 (Hall r Hr)).
Defined.

End LoaderInstances.

(** ** The type token is canonical *)

Section TypeTokenCanonical.
Import Graph Loader.






End TypeTokenCanonical.

(** ** The importer: skipped edges, phases, labels, errors *)

Section ImporterSkips.
Import Graph Importer ImporterNotions.

Lemma pairs_nil_r (xs : list nat) : pairs xs [] = [].
Proof.
  unfold pairs. induction xs as [|x xs IH]; [done|].
  by rewrite bind_cons, IH.
Qed.

Lemma guid_absent_no_match (L : gset string) (g : string) (s : db) :
  guid_absent g s → match_nodes L (by_guid g) s = [].
Proof.
  intros Hno. apply match_nodes_nil, existsb_false_Forall.
  eapply Forall_impl; [exact Hno|]. intros n Hn. unfold node_matches.
  rewrite props_match_guid, (bool_decide_eq_false_2 _ Hn).
  apply andb_false_r.
Qed.

(** X16: an edge with an identifier and two
    end point identifiers, one of which is the [GUID] of no node of the
    store, is skipped without an error: [merge_relationship] leaves the
    store as it is, and the loop of [main] goes on with the next edge. *)
Theorem merge_relationship_unmatched (s : db) (edge : edge_payload)
    (g f t : string) (rest : list edge_payload) :
  ep_GUID edge = Some g → Py.truthy g = true →
  ep_fromGUID edge = Some f → Py.truthy f = true →
  ep_toGUID edge = Some t → Py.truthy t = true →
  guid_absent f s ∨ guid_absent t s →
  merge_relationship s edge = Ok s
  ∧ import_edges (edge :: rest) s = import_edges rest s.
Proof.
  intros Hg Hgt Hf Hft Ht Htt Hno.
  assert (merge_relationship s edge = Ok s) as Hm.
  { unfold merge_relationship. rewrite Hg, Hf, Ht.
    cbn [Py.truthy_opt default]. rewrite Hft, Htt. cbn [negb orb].
    destruct Hno as [Hno|Hno]; rewrite (guid_absent_no_match _ _ _ Hno).
    - done.
    - by rewrite pairs_nil_r. }
  split; [done|]. cbn [import_edges]. rewrite Hg. cbn [Py.truthy_opt].
  rewrite Hgt. cbn [negb]. by rewrite Hm.
Qed.

(** X17: in a run of [main], the node loop writes no
    relationship and the edge loop writes no node; when the node loop
    ends with an exception, the run ends there, with no edge looked
    at. *)
Theorem import_phases (accepted : bool) (nodes : list node_payload)
    (edges : list edge_payload) (s : db) :
  let n := import_nodes nodes (ensure_constraint accepted s) in
  let r := main false accepted nodes edges s in
  rels (fst n) = rels s
  ∧ Graph.nodes (fst r) = Graph.nodes (fst n)
  ∧ (snd n ≠ None → r = n).
Proof.
  intros n r. unfold r, n, main.
  destruct (ensure_constraint_abs accepted s) as (_ & _ & Hr).
  destruct (import_nodes_abs nodes (ensure_constraint accepted s))
    as (_ & Hr' & _).
  split; [congruence|].
  destruct (import_nodes nodes (ensure_constraint accepted s))
    as [s1 [e|]] eqn:Hrun; cbn [fst snd].
  - split; done.
  - split; [|done]. by destruct (import_edges_abs edges s1) as (_ & Hn & _).
Qed.

Lemma truthy_nonempty (l : string) : Py.truthy l = true ↔ l ≠ "".
Proof. destruct l; simpl; split; done. Qed.

Lemma node_labels_elem (node : node_payload) (l : string) :
  l ∈ node_labels node
  ↔ l ≠ "" ∧ (l = "Imported" ∨ l ∈ raw_labels (np_labels node)).
Proof.
  unfold node_labels. rewrite elem_of_list_to_set, elem_of_filter_list.
  rewrite elem_of_app, list_elem_of_singleton, truthy_nonempty.
  unfold ensure_list, raw_labels. destruct (np_labels node) as [|ls|v].
  - rewrite !elem_of_nil. tauto.
  - rewrite elem_of_filter_list, truthy_nonempty. tauto.
  - tauto.
Qed.

(** X18: whatever the payload has under ["labels"]
    (nothing, [null], a list, a single string), the labels of the merge
    pattern are [Imported] and the non-empty strings found there: the
    pattern always has the label [Imported] and never an empty label. *)
Theorem node_labels_spec (node : node_payload) :
  (∀ l, l ∈ node_labels node
        ↔ l ≠ "" ∧ (l = "Imported" ∨ l ∈ raw_labels (np_labels node)))
  ∧ "Imported" ∈ node_labels node
  ∧ "" ∉ node_labels node.
Proof.
  split; [apply node_labels_elem|]. split.
  - apply node_labels_elem. split; [done|by left].
  - rewrite node_labels_elem. by intros [? _].
Qed.

End ImporterSkips.

Section ImporterUnique.
Import Graph Importer ImporterNotions.

Lemma kimported_elem (g : string) (ks : list nkey) :
  str g ∈ kimported ks → existsb (kmatch {["Imported"]} g) ks = true.
Proof.
  unfold kimported. intros (k & Hk & Hg)%list_elem_of_omap.
  apply existsb_true_elem. exists k. split; [done|]. unfold kmatch.
  case_bool_decide as Hl; [|done].
  rewrite Hg, (bool_decide_eq_true_2 (Some (str g) = Some (str g))) by done.
  rewrite andb_true_r. apply bool_decide_eq_true_2.
  by apply singleton_subseteq_l.
Qed.

Lemma kmerge_node_unique (ks ks' : list nkey) (node : node_payload) :
  NoDup (kimported ks) → kmerge_node true ks node = inl ks' →
  NoDup (kimported ks').
Proof.
  intros Hnd. unfold kmerge_node. destruct (np_GUID node) as [g|]; [|done].
  destruct (existsb (kmatch (node_labels node) g) ks); [by intros [= <-]|].
  cbn [andb]. destruct (existsb (kmatch {["Imported"]} g) ks) eqn:Hex; [done|].
  intros [= <-]. unfold kimported. rewrite omap_app, omap_cons_eq.
  cbn [fst snd].
  rewrite bool_decide_eq_true_2
    by (apply node_labels_elem; split; [done|by left]).
  change (omap _ []) with (@nil pval).
  apply NoDup_app. split; [done|]. split; [|apply NoDup_singleton].
  intros x Hx ->%list_elem_of_singleton.
  apply kimported_elem in Hx. congruence.
Qed.

Lemma kimport_nodes_unique (nodes : list node_payload) (ks : list nkey) :
  NoDup (kimported ks) → NoDup (kimported (fst (kimport_nodes true ks nodes))).
Proof.
  revert ks. induction nodes as [|node rest IH]; intros ks Hnd; [done|].
  cbn [kimport_nodes]. destruct (negb _); [done|].
  destruct (kmerge_node true ks node) as [ks'|e] eqn:Hm; [|done].
  apply IH. by eapply kmerge_node_unique.
Qed.

(** X19: a run of [main] keeps the store
    consistent with the constraint: if the constraint is in force after
    the run, and the store respected it wherever it was already in force
    before, then no two [Imported] nodes hold the same [GUID] after the
    run. *)
Theorem main_keeps_guids_unique (dry_run accepted : bool)
    (nodes : list node_payload) (edges : list edge_payload) (s : db) :
  (unique_guid s = true → NoDup (imported_guids s)) →
  unique_guid (fst (main dry_run accepted nodes edges s)) = true →
  NoDup (imported_guids (fst (main dry_run accepted nodes edges s))).
Proof.
  intros Hinv Hu.
  pose proof (main_abs dry_run accepted nodes edges s) as Habs.
  destruct dry_run; [by apply Hinv|].
  unfold kmain, abs in Habs. cbn [fst snd] in Habs.
  set (s' := fst (main false accepted nodes edges s)) in *.
  set (u := kensure accepted (unique_guid s) (nkeys s)) in *.
  assert (unique_guid s' = u
          ∧ nkeys s' = fst (kimport_nodes u (nkeys s) nodes)) as [Hu' Hk].
  { destruct (kimport_nodes u (nkeys s) nodes) as [nks [e|]];
      cbn [fst]; split; congruence. }
  rewrite imported_guids_keys, Hk.
  assert (u = true) as Htrue by congruence. rewrite Htrue.
  apply kimport_nodes_unique.
  unfold u, kensure in Htrue. destruct (unique_guid s) eqn:Hus.
  - rewrite <- imported_guids_keys. by apply Hinv.
  - simpl in Htrue. apply andb_true_iff in Htrue as [_ Hnd].
    by apply bool_decide_eq_true in Hnd.
Qed.

End ImporterUnique.

Section ImporterErrors.
Import Graph Importer ImporterNotions.

Lemma import_nodes_app (before rest : list node_payload) (s : db) :
  snd (import_nodes before s) = None →
  import_nodes (before ++ rest) s
  = import_nodes rest (fst (import_nodes before s)).
Proof.
  revert s. induction before as [|node before IH]; intros s; [done|].
  cbn [app import_nodes]. destruct (negb _); [done|].
  destruct (merge_node s node) as [s'|e]; [apply IH|done].
Qed.

(** X20: a node without an identifier, or with
    an empty one, ends the run with [ValueError] when the loop reaches
    it: the nodes before it are imported and stay, the nodes after it
    and all edges are not looked at, no relationship is written. *)
Theorem node_without_guid_is_fatal (accepted : bool)
    (before rest : list node_payload) (bad : node_payload)
    (edges : list edge_payload) (s : db) :
  Py.truthy_opt (np_GUID bad) = false →
  snd (import_nodes before (ensure_constraint accepted s)) = None →
  main false accepted (before ++ bad :: rest) edges s
  = (fst (import_nodes before (ensure_constraint accepted s)),
     Some (NodeMissingGUID bad))
  ∧ rels (fst (main false accepted (before ++ bad :: rest) edges s))
    = rels s.
Proof.
  intros Hbad Hbefore.
  assert (main false accepted (before ++ bad :: rest) edges s
          = (fst (import_nodes before (ensure_constraint accepted s)),
             Some (NodeMissingGUID bad))) as Hrun.
  { unfold main. rewrite import_nodes_app by done.
    cbn [import_nodes]. by rewrite Hbad. }
  split; [done|]. rewrite Hrun. cbn [fst].
  destruct (ensure_constraint_abs accepted s) as (_ & _ & Hr).
  destruct (import_nodes_abs before (ensure_constraint accepted s))
    as (_ & Hr' & _).
  congruence.
Qed.

Lemma merge_node_errors (s : db) (node : node_payload) (g : string)
    (e : error) :
  np_GUID node = Some g → merge_node s node = Raise e →
  unique_guid s = true ∧ e = ConstraintViolation g.
Proof.
  intros Hg. unfold merge_node. rewrite Hg.
  destruct (existsb _ (nodes s)); [done|].
  destruct (unique_guid s); [|done]. cbn [andb].
  destruct (guid_taken g s); [|done]. by intros [= <-].
Qed.

Lemma import_nodes_errors (nodes : list node_payload) (s s' : db)
    (e : error) :
  import_nodes nodes s = (s', Some e) →
  node_without_guid nodes e ∨ node_breaks_constraint nodes s e.
Proof.
  revert s. induction nodes as [|node rest IH]; intros s; [done|].
  cbn [import_nodes].
  destruct (negb (Py.truthy_opt (np_GUID node))) eqn:Hg.
  { intros [= _ <-]. left. exists node. split; [by left|].
    split; [by apply negb_true_iff|done]. }
  apply truthy_opt_some in Hg as [g Hg].
  pose proof (merge_node_abs s node) as Habs.
  destruct (merge_node s node) as [s1|e1] eqn:Hm.
  - destruct Habs as (_ & _ & Hu). intros Hrun.
    destruct (IH s1 Hrun) as [(n & Hn & Hno & ->)|(n & g' & Hn & Hg' & Hu' & ->)].
    + left. exists n. split; [by right|done].
    + right. exists n, g'. split; [by right|]. split; [done|].
      split; [congruence|done].
  - intros [= _ <-]. destruct (merge_node_errors s node g e1 Hg Hm) as [Hu ->].
    right. exists node, g. split; [by left|done].
Qed.

Lemma import_edges_errors (edges : list edge_payload) (s s' : db)
    (e : error) :
  import_edges edges s = (s', Some e) →
  edge_without_guid edges e ∨ edge_without_endpoint edges e.
Proof.
  revert s. induction edges as [|edge rest IH]; intros s; [done|].
  cbn [import_edges].
  destruct (negb (Py.truthy_opt (ep_GUID edge))) eqn:Hg.
  { intros [= _ <-]. left. exists edge. split; [by left|].
    split; [by apply negb_true_iff|done]. }
  apply truthy_opt_some in Hg as [g Hg].
  destruct (merge_relationship s edge) as [s1|e1] eqn:Hm.
  - intros Hrun.
    destruct (IH s1 Hrun) as [(ed & Hed & Hno & ->)|(ed & g' & Hed & Hg' & Hmiss & ->)].
    + left. exists ed. split; [by right|done].
    + right. exists ed, g'. split; [by right|done].
  - intros [= _ <-]. right. exists edge, g. split; [by left|].
    split; [done|]. unfold merge_relationship in Hm. rewrite Hg in Hm.
    unfold endpoint_missing.
    destruct (negb _ || negb _); [|done]. split; [done|]. by injection Hm as <-.
Qed.

(** X21: a run of [main] that ends with an exception is
    no dry run, and the exception is one of four: a node without an
    identifier, a node the uniqueness constraint rejects (only when the
    constraint is in force), an edge without an identifier, an edge
    without an end point identifier.  The [KeyError] of [merge_node] and
    [merge_relationship] never occurs in a run of [main]. *)
Theorem main_error_cases (dry_run accepted : bool)
    (nodes : list node_payload) (edges : list edge_payload) (s : db)
    (e : error) :
  snd (main dry_run accepted nodes edges s) = Some e →
  dry_run = false
  ∧ (node_without_guid nodes e
     ∨ node_breaks_constraint nodes (ensure_constraint accepted s) e
     ∨ edge_without_guid edges e
     ∨ edge_without_endpoint edges e)
  ∧ ∀ k, e ≠ KeyError k.
Proof.
  unfold main. destruct dry_run; [done|]. intros Hrun.
  split; [done|].
  assert (node_without_guid nodes e
          ∨ node_breaks_constraint nodes (ensure_constraint accepted s) e
          ∨ edge_without_guid edges e
          ∨ edge_without_endpoint edges e) as Hcases.
  { destruct (import_nodes nodes (ensure_constraint accepted s))
      as [s1 [e1|]] eqn:Hn; cbn [snd] in Hrun.
    - injection Hrun as ->.
      destruct (import_nodes_errors _ _ _ _ Hn) as [?|?]; tauto.
    - destruct (import_edges edges s1) as [s2 oe] eqn:He. cbn [snd] in Hrun.
      subst oe. destruct (import_edges_errors _ _ _ _ He) as [?|?]; tauto. }
  split; [done|]. intros k ->.
  destruct Hcases as [(n & _ & _ & [=])|[(n & g & _ & _ & _ & [=])
                     |[(ed & _ & _ & [=])|(ed & g & _ & _ & _ & [=])]]].
Qed.

End ImporterErrors.

Section ImporterInstances.
Import Graph Importer ImporterNotions.

Lemma merge_relationship_unmatched_witness :
  import_edges distinct_edges Graph.empty = (Graph.empty, None).
Proof.
  destruct (merge_relationship_unmatched Graph.empty
              {| ep_GUID := Some "e1"; ep_type := Some "CALLS";
                 ep_fromGUID := Some "a"; ep_toGUID := Some "b";
                 ep_properties := None; ep_neo4jId := None |}
              "e1" "a" "b" [] eq_refl eq_refl eq_refl eq_refl eq_refl eq_refl)
    as [_ Hrun].
  - left. constructor.
  - exact Hrun.
Defined.

Lemma main_keeps_guids_unique_witness :
  NoDup (imported_guids
           (fst (main false true distinct_nodes distinct_edges Graph.empty))).
Proof.
  apply main_keeps_guids_unique.
  - intros Hu. discriminate Hu.
  - vm_compute. reflexivity.
Defined.

Lemma node_without_guid_is_fatal_witness :
  main false false (distinct_nodes ++ anonymous_node :: distinct_nodes)
       distinct_edges Graph.empty
  = (fst (import_nodes distinct_nodes Graph.empty),
     Some (NodeMissingGUID anonymous_node)).
Proof.
  destruct (node_without_guid_is_fatal false distinct_nodes distinct_nodes
              anonymous_node distinct_edges Graph.empty eq_refl)
    as [Hrun _].
  - vm_compute. reflexivity.
  - exact Hrun.
Defined.

Lemma main_error_cases_witness :
  edge_without_guid [anonymous_edge] (EdgeMissingGUID anonymous_edge)
  ∨ edge_without_endpoint [anonymous_edge] (EdgeMissingGUID anonymous_edge).
Proof.
  destruct (main_error_cases false false [] [anonymous_edge] Graph.empty
              (EdgeMissingGUID anonymous_edge) eq_refl)
    as (_ & [(n & Hn & _)|[(n & g & Hn & _)|Hcases]] & _).
  - apply elem_of_nil in Hn. destruct Hn.
  - apply elem_of_nil in Hn. destruct Hn.
  - exact Hcases.
Defined.

End ImporterInstances.

(** ** The exporter's environment file *)

Section EnvFileFacts.
Import Exporter ExportRun.

Lemma split_once_spec (sep : ascii) (s k v : string) :
  PyStr.split_once sep s = Some (k, v) →
  s = k +:+ String sep v ∧ PyStr.contains sep k = false.
Proof.
  revert k. induction s as [|c s IH]; intros k; simpl; [done|].
  destruct (Ascii.eqb c sep) eqn:Hc.
  - apply Ascii.eqb_eq in Hc as ->. by intros [= <- <-].
  - destruct (PyStr.split_once sep s) as [[k' v']|]; [|done].
    intros [= <- <-]. destruct (IH k' eq_refl) as [-> Hk]. simpl.
    by rewrite Hc, Hk.
Qed.

Lemma split_once_append (sep : ascii) (k v : string) :
  PyStr.contains sep k = false →
  PyStr.split_once sep (k +:+ String sep v) = Some (k, v).
Proof.
  induction k as [|c k IH]; simpl.
  - by rewrite Ascii.eqb_refl.
  - intros [Hc Hk]%orb_false_iff. by rewrite Hc, IH.
Qed.

Lemma assignment_unfold (k v : string) :
  assignment k v = k +:+ String "=" v.
Proof. reflexivity. Qed.

(** A line that does not assign [k] leaves the value of [k]. *)
Lemma read_line_other (env : gmap string string) (line k : string) :
  (∀ v, PyStr.strip line ≠ assignment k v) →
  read_line env line !! k = env !! k.
Proof.
  intros Hno. unfold read_line.
  destruct (Py.truthy _ && negb _); [|done].
  destruct (PyStr.split_once "=" (PyStr.strip line)) as [[k' v']|] eqn:Hs;
    [|done].
  apply split_once_spec in Hs as [Hs _].
  rewrite lookup_insert_ne; [done|]. intros ->. by apply (Hno v').
Qed.

Lemma read_line_assignment (env : gmap string string) (line k v : string) :
  PyStr.strip line = assignment k v →
  PyStr.contains "=" k = false → PyStr.startswith "#" k = false →
  read_line env line = <[k := v]> env.
Proof.
  intros Hs Hk Hc. unfold read_line. rewrite Hs, assignment_unfold.
  rewrite split_once_append by done.
  assert (Py.truthy (k +:+ String "=" v) = true) as -> by by destruct k.
  assert (PyStr.startswith "#" (k +:+ String "=" v) = false) as ->
    by by destruct k.
  done.
Qed.

Lemma read_lines_other (lines : list string) (env : gmap string string)
    (k : string) :
  unset k lines → foldl read_line env lines !! k = env !! k.
Proof.
  revert env. induction lines as [|line lines IH]; intros env Hno; [done|].
  cbn [foldl]. rewrite IH.
  - apply read_line_other. intros v. apply Hno. by left.
  - intros l v Hl. apply Hno. by right.
Qed.

(** Where a binding of the result comes from. *)
Lemma read_lines_sound (lines : list string) (env : gmap string string)
    (k v : string) :
  foldl read_line env lines !! k = Some v →
  env !! k = Some v
  ∨ ∃ line, line ∈ lines ∧ PyStr.strip line = assignment k v
            ∧ PyStr.contains "=" k = false
            ∧ PyStr.startswith "#" (PyStr.strip line) = false.
Proof.
  revert env. induction lines as [|line lines IH]; intros env; [by left|].
  cbn [foldl]. intros Hk. destruct (IH _ Hk) as [Hin|(l & Hl & Hrest)].
  - unfold read_line in Hin.
    destruct (Py.truthy _ && negb (PyStr.startswith "#" (PyStr.strip line)))
      eqn:Hc; [|by left].
    apply andb_true_iff in Hc as [_ Hc]. apply negb_true_iff in Hc.
    destruct (PyStr.split_once "=" (PyStr.strip line)) as [[k' v']|] eqn:Hs;
      [|by left].
    apply split_once_spec in Hs as [Hs Hk'].
    destruct (decide (k' = k)) as [->|Hne].
    + rewrite lookup_insert_eq in Hin. injection Hin as ->.
      right. exists line. split; [by left|done].
    + rewrite lookup_insert_ne in Hin by done. by left.
  - right. exists l. split; [by right|done].
Qed.

Lemma read_env_sound (file : option (list string)) (k v : string) :
  load_env_file file !! k = Some v →
  ∃ lines line,
    file = Some lines ∧ line ∈ lines
    ∧ PyStr.strip line = assignment k v
    ∧ PyStr.contains "=" k = false
    ∧ PyStr.startswith "#" (PyStr.strip line) = false.
Proof.
  destruct file as [lines|]; simpl; [|done]. intros Hk.
  destruct (read_lines_sound lines ∅ k v Hk) as [?|(line & Hl & Hrest)];
    [done|].
  by exists lines, line.
Qed.

(** X22: every variable [load_env_file] returns comes
    from a line of the file: stripped of surrounding whitespace, the line
    is the key, an equals sign and the value; it is no comment, and the
    key holds no equals sign.  Without a file, nothing is returned. *)
Theorem load_env_file_sound (file : option (list string)) (k v : string) :
  load_env_file file !! k = Some v →
  ∃ lines line,
    file = Some lines ∧ line ∈ lines
    ∧ PyStr.strip line = assignment k v
    ∧ PyStr.contains "=" k = false
    ∧ PyStr.startswith "#" (PyStr.strip line) = false.
Proof. apply read_env_sound. Qed.

Lemma load_env_file_assigned (lines rest : list string) (line k v : string) :
  PyStr.strip line = assignment k v →
  PyStr.contains "=" k = false → PyStr.startswith "#" k = false →
  unset k rest →
  load_env_file (Some (lines ++ line :: rest)) !! k = Some v.
Proof.
  intros Hs Hk Hc Hrest. unfold load_env_file.
  rewrite foldl_app. cbn [foldl]. rewrite read_lines_other by done.
  rewrite (read_line_assignment _ line k v) by done.
  apply lookup_insert_eq.
Qed.

(** X23: the value [load_env_file] returns for a
    key is the one of the last line that assigns it: everything after the
    first equals sign of that line, up to the whitespace that ends the
    line, whatever stands in the lines before. *)
Theorem load_env_file_last_wins (lines rest : list string)
    (line k v : string) :
  PyStr.strip line = assignment k v →
  PyStr.contains "=" k = false → PyStr.startswith "#" k = false →
  unset k rest →
  load_env_file (Some (lines ++ line :: rest)) !! k = Some v.
Proof. apply load_env_file_assigned. Qed.

End EnvFileFacts.

(** ** The export *)

Section ExportRunFacts.
Import Exporter ExportRun.

Variable DateTime : Type.
Variable iso_format : DateTime -> string.

Abbreviation xvalue := (value DateTime).
Abbreviation xserialize := (serialize_neo4j_value DateTime iso_format).
Abbreviation export := (export_neo4j_to_json DateTime iso_format).

Lemma forallb_map_true {A B} (f : A → B) (p : B → bool) (l : list A) :
  Forall (fun x => p (f x) = true) l → forallb p (List.map f l) = true.
Proof. induction 1 as [|x l Hx _ IH]; simpl; [done|]. by rewrite Hx, IH. Qed.

Lemma serialize_plain (v : xvalue) : plain (xserialize v) = true.
Proof.
  induction v as [x|d|items IH|items IH|entries IH]
    using (value_nested_ind DateTime); simpl; try done.
  - by apply forallb_map_true.
  - by apply forallb_map_true.
  - apply (forallb_map_true _ (fun kv => plain (snd kv))).
    eapply Forall_impl; [exact IH|]. by intros [k w].
Qed.

Lemma plain_fixed (v : xvalue) : plain v = true → xserialize v = v.
Proof.
  induction v as [x|d|items IH|items IH|entries IH]
    using (value_nested_ind DateTime); simpl; try done.
  - intros Hall. f_equal.
    induction IH as [|w items Hw _ IHitems]; simpl in *; [done|].
    apply andb_true_iff in Hall as [Hp Hall].
    by rewrite Hw, IHitems.
  - intros Hall. f_equal.
    induction IH as [|[k w] entries Hw _ IHentries]; simpl in *; [done|].
    apply andb_true_iff in Hall as [Hp Hall].
    by rewrite Hw, IHentries.
Qed.

(** X24: the result of the conversion
    holds no timestamp and no tuple, at any depth; the conversion
    returns its argument unchanged exactly when the argument holds none,
    so converting twice is converting once. *)
Theorem serialize_neo4j_value_fixpoint (v : xvalue) :
  plain (xserialize v) = true
  ∧ (xserialize v = v ↔ plain v = true)
  ∧ xserialize (xserialize v) = xserialize v.
Proof.
  split; [apply serialize_plain|]. split.
  - split; [|apply plain_fixed]. intros <-. apply serialize_plain.
  - apply plain_fixed, serialize_plain.
Qed.

Lemma export_nodes_elem (ns : list (xnode DateTime)) (i : nat)
    (d : node_dict DateTime) :
  d ∈ export_nodes_from DateTime iso_format i ns
  ↔ ∃ j n, ns !! j = Some n ∧ code_element n = false
           ∧ d = {| nd_id := (i + j)%nat; nd_labels := xn_labels n;
                    nd_properties := xserialize (VDict (xn_props n)) |}.
Proof.
  revert i. induction ns as [|n ns IH]; intros i; simpl.
  - rewrite elem_of_nil. split; [done|]. by intros (j & n & Hj & _).
  - assert (d ∈ export_nodes_from DateTime iso_format (S i) ns
            ↔ ∃ j n', (n :: ns) !! S j = Some n' ∧ code_element n' = false
                ∧ d = {| nd_id := (i + S j)%nat; nd_labels := xn_labels n';
                         nd_properties := xserialize (VDict (xn_props n')) |})
      as Hrest.
    { rewrite IH. simpl. split; intros (j & n' & Hj & Hc & ->);
        exists j, n'; (split; [done|]); (split; [done|]); do 2 f_equal; lia. }
    destruct (code_element n) eqn:Hn.
    + rewrite Hrest. split.
      * intros (j & n' & ?). by exists (S j), n'.
      * intros ([|j] & n' & Hj & Hc & Hd); [|by exists j, n'].
        simpl in Hj. injection Hj as <-. congruence.
    + rewrite elem_of_cons, Hrest. split.
      * intros [->|(j & n' & ?)]; [|by exists (S j), n'].
        exists O, n. rewrite Nat.add_0_r. done.
      * intros ([|j] & n' & Hj & Hc & Hd); [|right; by exists j, n'].
        simpl in Hj. injection Hj as <-. left.
        by rewrite Nat.add_0_r in Hd.
Qed.

Lemma export_nodes_nodup (ns : list (xnode DateTime)) (i : nat) :
  NoDup (nd_id <$> export_nodes_from DateTime iso_format i ns).
Proof.
  revert i. induction ns as [|n ns IH]; intros i; simpl; [constructor|].
  destruct (code_element n); [apply IH|]. rewrite fmap_cons.
  apply NoDup_cons. split; [|apply IH]. simpl.
  intros (d & Hid & Hd)%list_elem_of_fmap.
  apply export_nodes_elem in Hd as (j & n' & _ & _ & ->). simpl in Hid. lia.
Qed.

Lemma export_nodes_length (ns : list (xnode DateTime)) (i : nat) :
  length (export_nodes_from DateTime iso_format i ns)
  = length (List.filter (fun n => negb (code_element n)) ns).
Proof.
  revert i. induction ns as [|n ns IH]; intros i; simpl; [done|].
  destruct (code_element n); simpl; by rewrite IH.
Qed.

Lemma export_edges_elem (ns : list (xnode DateTime)) (j : nat)
    (rs : list (xrel DateTime)) (e : edge_dict DateTime) :
  e ∈ export_edges_from DateTime iso_format ns j rs →
  ∃ r a b,
    r ∈ rs ∧ ns !! xr_start r = Some a ∧ ns !! xr_end r = Some b
    ∧ code_element a = false ∧ code_element b = false
    ∧ ed_source_id e = xr_start r ∧ ed_target_id e = xr_end r
    ∧ ed_properties e = xserialize (VDict (xr_props r)).
Proof.
  revert j. induction rs as [|r rs IH]; intros j; simpl.
  { by intros ?%elem_of_nil. }
  assert (e ∈ export_edges_from DateTime iso_format ns (S j) rs →
          ∃ r' a b,
            r' ∈ r :: rs ∧ ns !! xr_start r' = Some a
            ∧ ns !! xr_end r' = Some b
            ∧ code_element a = false ∧ code_element b = false
            ∧ ed_source_id e = xr_start r' ∧ ed_target_id e = xr_end r'
            ∧ ed_properties e = xserialize (VDict (xr_props r'))) as Hrest.
  { intros (r' & a & b & Hr' & Hrest)%IH. exists r', a, b.
    split; [by right|done]. }
  destruct (ns !! xr_start r) as [a|] eqn:Ha; [|done].
  destruct (ns !! xr_end r) as [b|] eqn:Hb; [|done].
  destruct (code_element a) eqn:Hca; [done|].
  destruct (code_element b) eqn:Hcb; [done|]. simpl.
  intros [->|He]%elem_of_cons; [|by apply Hrest].
  exists r, a, b. split; [by left|done].
Qed.

(** X25: a successful export is closed and excludes what it
    says: no exported node has the label [CodeElement], every exported
    node has its own identifier, every exported edge has both its source
    and its target among the exported nodes, and the counts in the
    metadata and in the value returned are the numbers of exported nodes
    and edges, the first being the number of nodes of the store without
    the label. *)
Theorem export_closed (file : option (list string)) (now : string)
    (s : xdb DateTime) (out : output_data DateTime)
    (ret : string * nat * nat) :
  export file now s = Exported out ret →
  (∀ d, d ∈ out_nodes out → "CodeElement" ∉ nd_labels d)
  ∧ NoDup (nd_id <$> out_nodes out)
  ∧ (∀ e, e ∈ out_edges out →
       ed_source_id e ∈ nd_id <$> out_nodes out
       ∧ ed_target_id e ∈ nd_id <$> out_nodes out)
  ∧ length (out_nodes out)
    = length (List.filter (fun n => negb (code_element n)) (xnodes s))
  ∧ md_node_count (export_metadata out) = length (out_nodes out)
  ∧ md_edge_count (export_metadata out) = length (out_edges out)
  ∧ snd (fst ret) = length (out_nodes out)
  ∧ snd ret = length (out_edges out).
Proof.
  unfold export_neo4j_to_json. destruct (negb _); [done|].
  intros [= <- <-]. cbn [out_nodes out_edges export_metadata md_node_count
                         md_edge_count fst snd].
  split.
  { intros d (j & n & _ & Hc & ->)%export_nodes_elem. simpl.
    by apply bool_decide_eq_false in Hc. }
  split; [apply export_nodes_nodup|]. split.
  { intros e (r & a & b & _ & Ha & Hb & Hca & Hcb & -> & -> & _)%export_edges_elem.
    split; apply list_elem_of_fmap.
    - eexists. split; [|apply export_nodes_elem; by exists (xr_start r), a].
      done.
    - eexists. split; [|apply export_nodes_elem; by exists (xr_end r), b].
      done. }
  split; [apply export_nodes_length|done].
Qed.


(** X27: the export succeeds only if the [.env]
    file exists and a line of it sets [NEO4J_PASSWORD] to a non-empty
    value; the variables of the process are not consulted. *)
Theorem export_requires_password (file : option (list string))
    (now : string) (s : xdb DateTime) (out : output_data DateTime)
    (ret : string * nat * nat) :
  export file now s = Exported out ret →
  ∃ lines line password,
    file = Some lines ∧ line ∈ lines
    ∧ PyStr.strip line = assignment "NEO4J_PASSWORD" password
    ∧ password ≠ "".
Proof.
  unfold export_neo4j_to_json.
  destruct (load_env_file file !! "NEO4J_PASSWORD") as [pw|] eqn:Hpw;
    [|done].
  destruct pw as [|c pw]; [done|]. intros _.
  apply read_env_sound in Hpw as (lines & line & -> & Hl & Hs & _).
  by exists lines, line, (String c pw).
Qed.

End ExportRunFacts.

Section ExportInstances.
Import Exporter ExportRun.

Lemma load_env_file_sound_witness :
  ∃ lines line,
    Some sample_env = Some lines ∧ line ∈ lines
    ∧ PyStr.strip line = assignment "NEO4J_PASSWORD" "a=b".
Proof.
  destruct (load_env_file_sound (Some sample_env) "NEO4J_PASSWORD" "a=b")
    as (lines & line & Hf & Hl & Hs & _).
  - vm_compute. reflexivity.
  - by exists lines, line.
Defined.

Lemma load_env_file_last_wins_witness :
  load_env_file (Some (sample_env ++ ["NEO4J_URI=bolt://other:7687"; ""]))
  !! "NEO4J_URI" = Some "bolt://other:7687".
Proof.
  apply (load_env_file_last_wins sample_env [""]
           "NEO4J_URI=bolt://other:7687" "NEO4J_URI" "bolt://other:7687");
    try reflexivity.
  intros line value ->%list_elem_of_singleton. discriminate.
Defined.

Lemma sample_export :
  ∃ out ret,
    export_neo4j_to_json string id (Some sample_env) "now" sample_store
    = Exported out ret.
Proof. eexists _, _. vm_compute. reflexivity. Defined.

Lemma export_closed_witness :
  ∃ out ret,
    export_neo4j_to_json string id (Some sample_env) "now" sample_store
    = Exported out ret
    ∧ nd_id <$> out_nodes out = [0; 2]%nat
    ∧ ∀ e, e ∈ out_edges out →
        ed_source_id e ∈ nd_id <$> out_nodes out
        ∧ ed_target_id e ∈ nd_id <$> out_nodes out.
Proof.
  destruct sample_export as (out & ret & Hrun).
  destruct (export_closed string id _ _ _ out ret Hrun)
    as (_ & _ & Hedges & _).
  exists out, ret. split; [exact Hrun|]. split; [|exact Hedges].
  vm_compute in Hrun. injection Hrun as <- _. reflexivity.
Defined.


Lemma export_requires_password_witness :
  ∃ lines line password,
    Some sample_env = Some lines ∧ line ∈ lines
    ∧ PyStr.strip line = assignment "NEO4J_PASSWORD" password
    ∧ password ≠ "".
Proof.
  destruct sample_export as (out & ret & Hrun).
  exact (export_requires_password string id _ _ _ out ret Hrun).
Defined.

End ExportInstances.
